(** * Sunburst chart: layout, visibility filter, zoom and label fit

    A shallow embedding of [src/sunburst.js].  The widget is glue over the
    d3 libraries, so the embedding has two layers:

    - [D3]: the functions of d3-hierarchy that [_parseData] calls
      ([hierarchy], [node.sum], [node.sort], [partition], [node.descendants]),
      written after the library's implementation.  d3-hierarchy is an
      external dependency of the widget; its code is not part of
      [src/sunburst.js].
    - [Sunburst]: the widget's own state and its [_parseData] and [update]
      methods.

    Numbers.  JavaScript numbers are idealised: domain-space quantities
    (sizes, [x0], [x1], [y0], [y1], [minSliceAngle]) are exact rationals [Q],
    compared with [==]; screen-space quantities (radii, angles, which involve
    [Math.PI] and [Math.sqrt]) are reals [R].  Rounding is not modelled.
    The program computes in doubles, so the statements about coordinates
    are kept to what rounding leaves true: a coordinate is described by the
    assignment that writes it ([x1 = x0 + value * k], a child starts where
    the one before it ends, [y0 = depth / n]), not by a sum of shares, which
    in doubles reaches its exact value only up to rounding; and a threshold
    is stated with room on either side of it. *)

From Stdlib Require Import String List Bool Arith ZArith QArith Lia Psatz.
From Stdlib Require Import Permutation Sorted Reals Qreals.
Import ListNotations.

Set Implicit Arguments.
Unset Elimination Schemes.

(* ------------------------------------------------------------------ *)
(** ** The user's data *)

(** A raw data node as the widget sees it through its accessors: the
    list the [children] accessor returns is [raw_children] (empty when the
    accessor returns nothing), [raw_name] and [raw_value] are the
    properties the default [label] and [size] accessors read.  [raw_value]
    is [None] when the property is missing or does not coerce to a number. *)
Inductive RawNode : Type :=
  mkRaw { raw_name : string;
          raw_value : option Q;
          raw_children : list RawNode }.

(** [+v || 0]: a missing or non-numeric value counts as zero. *)
Definition num_or_zero (v : option Q) : Q :=
  match v with Some q => q | None => 0%Q end.

(** The raw nodes of a tree, root first. *)
Fixpoint raw_preorder (r : RawNode) : list RawNode :=
  r :: flat_map raw_preorder (raw_children r).

(** Number of levels of a raw tree. *)
Fixpoint raw_levels (r : RawNode) : nat :=
  S (fold_right Nat.max 0%nat (map raw_levels (raw_children r))).

(* ------------------------------------------------------------------ *)
(** ** d3-hierarchy *)

Module D3.
Local Open Scope Q_scope.

(** A d3-hierarchy node.  A field that no stage has written yet
    ([undefined] in JavaScript) holds 0; no stage reads a field before
    the stage that writes it has run.  The [parent] back-reference is not
    represented: the tree structure carries it. *)
Inductive Node : Type :=
  mkNode { data : RawNode;
           depth : nat;
           height : nat;
           value : Q;
           x0 : Q; x1 : Q;
           y0 : Q; y1 : Q;
           children : list Node }.

Definition list_max (l : list nat) : nat := fold_right Nat.max 0%nat l.

(** [computeHeight]: a leaf has height 0, an internal node one more than
    its highest child. *)
Definition computeHeight (cs : list Node) : nat :=
  match cs with
  | [] => 0%nat
  | _ => S (list_max (map height cs))
  end.

(** [d3.hierarchy(data, children)]: one node per raw node, with [depth]
    counted from the root and [height] computed at the end. *)
Fixpoint hierarchy_from (d : nat) (r : RawNode) : Node :=
  let cs := map (hierarchy_from (S d)) (raw_children r) in
  mkNode r d (computeHeight cs) 0 0 0 0 0 cs.

Definition hierarchy (r : RawNode) : Node := hierarchy_from 0 r.

(** [node.sum(value)], a post-order pass:
    [sum = +value(node.data) || 0; while (--i >= 0) sum += children[i].value]. *)
Fixpoint sum (size : RawNode -> option Q) (n : Node) : Node :=
  let cs := map (sum size) (children n) in
  mkNode (data n) (depth n) (height n)
         (fold_left (fun s c => s + value c) (rev cs) (num_or_zero (size (data n))))
         (x0 n) (x1 n) (y0 n) (y1 n) cs.

(** [Array.prototype.sort] with a comparator: stable; [compare a b > 0]
    puts [a] after [b].  The order the language fixes is the one of a
    consistent comparator; for any other the result is left to the
    engine, and this insertion sort stands for the method only where the
    comparator is consistent. *)
Section ArraySort.
Variable A : Type.
Variable compare : A -> A -> Q.

Fixpoint insert (a : A) (l : list A) : list A :=
  match l with
  | [] => [a]
  | b :: l' => if Qlt_le_dec 0 (compare a b) then b :: insert a l' else a :: l
  end.

Definition array_sort (l : list A) : list A := fold_right insert [] l.
End ArraySort.

(** [node.sort(compare)], a pre-order pass ([eachBefore]): a node's
    children are sorted before their own children are, so the comparator
    sees each child as it was before the pass reached it.  The children
    are therefore sorted by their original form and replaced by their
    sorted form. *)
Fixpoint sort (compare : Node -> Node -> Q) (n : Node) : Node :=
  let keyed := map (fun c => (c, sort compare c)) (children n) in
  mkNode (data n) (depth n) (height n) (value n)
         (x0 n) (x1 n) (y0 n) (y1 n)
         (map snd (array_sort (fun p q => compare (fst p) (fst q)) keyed)).

(** The partition layout, [d3.partition()] with its default size
    [dx = dy = 1]; the widget sets [padding] to 0 and leaves the size
    untouched. *)
Definition dx : Q := 1.
Definition dy : Q := 1.
Definition padding : Q := 0.

Definition of_nat (n : nat) : Q := inject_Z (Z.of_nat n).

(** [treemapDice(parent, x0, y0, x1, y1)]: the children are laid side by
    side from [x0] on, each as wide as its value times [k], where
    [k = parent.value && (x1 - x0) / parent.value]; per child
    [node.x0 = x0, node.x1 = x0 += node.value * k].  [position x x' c] is
    what the pass then does with child [c] holding the span [x, x']. *)
Definition treemapDice (position : Q -> Q -> Node -> Node) (k : Q)
  : Q -> list Node -> list Node :=
  fix dice (x : Q) (nodes : list Node) : list Node :=
    match nodes with
    | [] => []
    | c :: rest =>
        position x (x + value c * k) c :: dice (x + value c * k) rest
    end.

(** [if (x1 < x0) x0 = x1 = (x0 + x1) / 2]. *)
Definition collapse (a b : Q) : Q * Q :=
  if Qlt_le_dec b a then ((a + b) / 2, (a + b) / 2) else (a, b).

(** [positionNode(dy, n)] applied to [node] and, through [eachBefore], to
    its descendants.  [nx0 ny0 nx1 ny1] are the coordinates the node holds
    when the pass reaches it (written by [partition] for the root and by
    [treemapDice] of the parent otherwise). *)
Fixpoint positionNode (n : nat) (nx0 ny0 nx1 ny1 : Q) (node : Node) : Node :=
  let k := if Qeq_bool (value node) 0 then 0 else (nx1 - nx0) / value node in
  let cy0 := dy * of_nat (depth node + 1) / of_nat n in
  let cy1 := dy * of_nat (depth node + 2) / of_nat n in
  let cs :=
    treemapDice (fun a b c => positionNode n a cy0 b cy1 c) k nx0 (children node) in
  let xs := collapse nx0 (nx1 - padding) in
  let ys := collapse ny0 (ny1 - padding) in
  mkNode (data node) (depth node) (height node) (value node)
         (fst xs) (snd xs) (fst ys) (snd ys) cs.

(** [partition(root)]: [n = root.height + 1; root.x0 = root.y0 = padding;
    root.x1 = dx; root.y1 = dy / n; root.eachBefore(positionNode(dy, n))]. *)
Definition partition (root : Node) : Node :=
  let n := S (height root) in
  positionNode n padding padding dx (dy / of_nat n) root.

(** [node.each]: breadth-first, level by level.  [next] is the current
    level; the loop runs while a level is non-empty, at most once per
    level of the tree. *)
Fixpoint each_levels (fuel : nat) (next : list Node) : list Node :=
  match fuel with
  | O => []
  | S fuel' =>
      match next with
      | [] => []
      | _ => next ++ each_levels fuel' (flat_map children next)
      end
  end.

(** Number of levels of a tree, from its shape. *)
Fixpoint levels (n : Node) : nat :=
  S (list_max (map levels (children n))).

(** [node.descendants()]: the nodes in [each] order. *)
Definition descendants (root : Node) : list Node :=
  each_levels (levels root) [root].

(** The nodes in pre-order ([eachBefore] order). *)
Fixpoint preorder (n : Node) : list Node :=
  n :: flat_map preorder (children n).

(** The nodes at distance [k] from the root, left to right. *)
Fixpoint level (k : nat) (n : Node) : list Node :=
  match k with
  | O => [n]
  | S k' => flat_map (level k') (children n)
  end.

(** *** Properties of a laid-out tree *)

Definition span (n : Node) : Q := x1 n - x0 n.

Definition spans (cs : list Node) : Q :=
  fold_right (fun c s => span c + s) 0 cs.

Definition total (cs : list Node) : Q :=
  fold_right (fun c s => value c + s) 0 cs.

(** [cs] tile the interval from [lo] to [hi] in order: each starts where
    the previous one ends and none runs backwards. *)
Fixpoint contiguous (lo hi : Q) (cs : list Node) : Prop :=
  match cs with
  | [] => lo == hi
  | c :: rest => x0 c == lo /\ x0 c <= x1 c /\ contiguous (x1 c) hi rest
  end.

(** The children of [n] partition its interval exactly. *)
Definition partitioned (n : Node) : Prop :=
  contiguous (x0 n) (x1 n) (children n) /\ spans (children n) == span n.

End D3.

(* ------------------------------------------------------------------ *)
(** ** Invariants of the layout passes *)

Module Invariants.
Import D3.
Local Open Scope Q_scope.

(** The locals of [positionNode]: the factor [k] of [treemapDice] and the
    band handed to the children. *)
Definition dice_k (nx0 nx1 : Q) (node : Node) : Q :=
  if Qeq_bool (value node) 0 then 0 else (nx1 - nx0) / value node.

Definition child_y0 (n : nat) (node : Node) : Q :=
  dy * of_nat (depth node + 1) / of_nat n.
Definition child_y1 (n : nat) (node : Node) : Q :=
  dy * of_nat (depth node + 2) / of_nat n.

(** The span each child receives from [treemapDice]. *)
Fixpoint spread (k x : Q) (cs : list Node) : list (Q * Q * Node) :=
  match cs with
  | [] => []
  | c :: rest => (x, x + value c * k, c) :: spread k (x + value c * k) rest
  end.

(** *** Conditions on the tree the partition receives *)

(** Values are non-negative and a node's own contribution is too. *)
Definition nonneg (m : Node) : Prop :=
  0 <= value m /\ total (children m) <= value m.

(** Children are one level below their parent. *)
Definition deep (m : Node) : Prop :=
  Forall (fun c => depth c = S (depth m)) (children m).

(** Own contributions, read off the raw data. *)
Definition own_nonneg (size : RawNode -> option Q) (m : Node) : Prop :=
  0 <= num_or_zero (size (data m)).

(** *** What holds of a node and the box it holds when the partition
    reaches it ([.._in], [within]), and of the node afterwards *)

Definition within (lo hi : Q) (a b c d : Q) (node : Node) : Prop :=
  lo <= a /\ a <= c /\ c <= hi /\ Forall nonneg (preorder node).

Definition bounded (lo hi : Q) (m : Node) : Prop :=
  lo <= x0 m /\ x0 m <= x1 m /\ x1 m <= hi.

Definition band_in (n : nat) (a b c d : Q) (node : Node) : Prop :=
  b == of_nat (depth node) / of_nat (S n)
  /\ d == of_nat (depth node + 1) / of_nat (S n)
  /\ Forall deep (preorder node).

Definition banded (n : nat) (m : Node) : Prop :=
  y0 m == of_nat (depth m) / of_nat (S n)
  /\ y1 m == of_nat (depth m + 1) / of_nat (S n).

Definition share_in (K : Q) (a b c d : Q) (node : Node) : Prop :=
  a <= c /\ c - a == value node * K /\ Forall nonneg (preorder node).

Definition shared (K : Q) (m : Node) : Prop := span m == value m * K.

(** *** The children as [treemapDice] leaves them *)

(** The first child starts at [lo], each next one where the one before
    it ends, and none runs backwards.  Nothing is said of where the last
    one ends. *)
Fixpoint chained (lo : Q) (cs : list Node) : Prop :=
  match cs with
  | [] => True
  | c :: rest => x0 c == lo /\ x0 c <= x1 c /\ chained (x1 c) rest
  end.

(** Each child ends at its start plus its value times the factor:
    [node.x0 = x0, node.x1 = x0 += node.value * k]. *)
Definition stepped (k : Q) (cs : list Node) : Prop :=
  Forall (fun c => x1 c == x0 c + value c * k) cs.

(** The factor [k] of a laid-out node, read off the node:
    [parent.value && (x1 - x0) / parent.value]. *)
Definition factor (m : Node) : Q := dice_k (x0 m) (x1 m) m.

Definition dealt (m : Node) : Prop :=
  chained (x0 m) (children m) /\ stepped (factor m) (children m).

(** *** Levels of a forest *)

(** The number of levels of the tallest tree of a forest. *)
Definition forest_levels (l : list Node) : nat := list_max (map levels l).

End Invariants.

(* ------------------------------------------------------------------ *)
(** ** d3-scale and d3-interpolate *)

Module Scale.
Local Open Scope R_scope.

(** A continuous scale with a two-point domain and range. *)
Record t : Type := mk { domain : R * R; range : R * R }.

Definition set_domain (s : t) (d : R * R) : t := mk d (range s).
Definition set_range (s : t) (r : R * R) : t := mk (domain s) r.

(** [interpolateNumber(a, b)(t)]. *)
Definition interpolateNumber (a b t : R) : R := a * (1 - t) + b * t.

(** [d3.interpolate] of two two-element arrays: element by element. *)
Definition interpolate (a b : R * R) (t : R) : R * R :=
  (interpolateNumber (fst a) (fst b) t, interpolateNumber (snd a) (snd b) t).

(** [raise(x, 0.5)], the transform of [scaleSqrt]. *)
Definition raise (x : R) : R :=
  if Rlt_dec x 0 then - sqrt (- x) else sqrt x.

(** [deinterpolate(a, b)(x)] under a transform; at a degenerate domain it
    is the constant 0 (d3-scale 1; later versions answer 1/2 there, so the
    theorems below assume a proper domain wherever this case matters). *)
Definition deinterpolate (f : R -> R) (a b x : R) : R :=
  if Req_dec_T (f b - f a) 0 then 0 else (f x - f a) / (f b - f a).

(** [deinterpolateClamp]. *)
Definition deinterpolateClamp (f : R -> R) (a b x : R) : R :=
  if Rle_dec x a then 0 else if Rle_dec b x then 1 else deinterpolate f a b x.

(** [bimap]: the scale applied to [x]. *)
Definition apply (f : R -> R) (clamp : bool) (s : t) (x : R) : R :=
  let '(d0, d1) := domain s in
  let '(r0, r1) := range s in
  let de := if clamp then deinterpolateClamp f else deinterpolate f in
  if Rlt_dec d1 d0
  then interpolateNumber r1 r0 (de d1 d0 x)
  else interpolateNumber r0 r1 (de d0 d1 x).

(** [scaleLinear().clamp(true)] and [scaleSqrt()] applied. *)
Definition linear_clamped : t -> R -> R := apply (fun x => x) true.
Definition sqrt_scale : t -> R -> R := apply raise false.

End Scale.

(* ------------------------------------------------------------------ *)
(** ** The widget *)

Module Sunburst.
Local Open Scope Q_scope.

Definition TRANSITION_DURATION : Q := 750.
Definition CHAR_PX : nat := 6.

(** An element of [layoutData]: a laid-out node and the [id] that
    [_parseData] wrote on it. *)
Record LayoutDatum : Type := mkDatum { id : nat; node : D3.Node }.

(** The raw node handed to [focusOnNode], with its [__dataNode] link: the
    layout node [_parseData] linked it to, if any. *)
Record FocusTarget : Type :=
  mkTarget { target : RawNode; __dataNode : option LayoutDatum }.

(** The window the chart zooms to: a layout node's box or the literal
    [{ x0: 0, x1: 1, y0: 0, y1: 1 }]. *)
Record Focus : Type := mkFocus { fx0 : Q; fx1 : Q; fy0 : Q; fy1 : Q }.

(** The [display] style of a label: [null] (shown) or ['none']. *)
Inductive Display : Type := display_null | display_none.

(** A [g.slice] element of the canvas.  [opacity] is the value of its
    style; [fade] is the target of an opacity transition scheduled on it,
    if any; [removed] says the element is removed when that transition
    ends; [arc_tween] says its arc path is re-drawn on every frame of the
    shared transition.  The slice holds one [text.path-label]:
    [text_display] is the [display] style of that label and
    [display_tween] says the display tween of the transition that the
    last [update] started is installed on it. *)
Record Slice : Type :=
  mkSlice { datum : LayoutDatum;
            opacity : Q;
            fade : option Q;
            removed : bool;
            on_click : bool;
            on_mouseover : bool;
            on_mouseout : bool;
            arc_tween : bool;
            text_display : Display;
            display_tween : bool }.

(** The tween installed on the svg: the two domain interpolators. *)
Record Zoom : Type := mkZoom { xd : R -> R * R; yd : R -> R * R }.

(** The state of the component: the properties that the modelled code
    reads, [layoutData], the two scales, the slices in the document and
    the zoom tween in progress.  The [children] accessor is folded into
    [RawNode]; colours, tooltips, the click callback and the chart id
    play no part in what follows. *)
Record State : Type :=
  mkState { width : R;
            height : R;
            data : option RawNode;
            sort : option (D3.Node -> D3.Node -> Q);
            label : RawNode -> string;
            size : RawNode -> option Q;
            minSliceAngle : Q;
            showLabels : bool;
            focusOnNode : option FocusTarget;
            layoutData : option (list LayoutDatum);
            radiusScale : Scale.t;
            angleScale : Scale.t;
            slices : list Slice;
            zoom : option Zoom }.

Definition set_layoutData (state : State) (l : list LayoutDatum) : State :=
  mkState (width state) (height state) (data state) (sort state) (label state)
          (size state) (minSliceAngle state) (showLabels state)
          (focusOnNode state) (Some l) (radiusScale state) (angleScale state)
          (slices state) (zoom state).

Definition set_radiusScale (state : State) (s : Scale.t) : State :=
  mkState (width state) (height state) (data state) (sort state) (label state)
          (size state) (minSliceAngle state) (showLabels state)
          (focusOnNode state) (layoutData state) s (angleScale state)
          (slices state) (zoom state).

Definition set_angleScale (state : State) (s : Scale.t) : State :=
  mkState (width state) (height state) (data state) (sort state) (label state)
          (size state) (minSliceAngle state) (showLabels state)
          (focusOnNode state) (layoutData state) (radiusScale state) s
          (slices state) (zoom state).

Definition set_render (state : State) (sl : list Slice) (z : Zoom) : State :=
  mkState (width state) (height state) (data state) (sort state) (label state)
          (size state) (minSliceAngle state) (showLabels state)
          (focusOnNode state) (layoutData state) (radiusScale state)
          (angleScale state) sl (Some z).

(** [descendants().forEach((d, i) => { d.id = i; ... })]. *)
Fixpoint number_from (i : nat) (l : list D3.Node) : list LayoutDatum :=
  match l with
  | [] => []
  | d :: rest => mkDatum i d :: number_from (S i) rest
  end.

(** [hierData] before the partition:
    [d3Hierarchy(state.data, accessorFn(state.children)).sum(accessorFn(state.size))],
    then [hierData.sort(state.sort)] if a comparator is set. *)
Definition prepared (state : State) (root : RawNode) : D3.Node :=
  let hierData := D3.sum (size state) (D3.hierarchy root) in
  match sort state with
  | Some compare => D3.sort compare hierData
  | None => hierData
  end.

(** [d3Partition().padding(0)(hierData)]. *)
Definition layout (state : State) (root : RawNode) : D3.Node :=
  D3.partition (prepared state root).

(** The aggregate value [sum] leaves on the root. *)
Definition rootValue (state : State) (root : RawNode) : Q :=
  D3.value (D3.sum (size state) (D3.hierarchy root)).

(** [_parseData]: nothing happens without data; with data the tree is
    laid out and [layoutData] becomes its [descendants()], numbered.  The
    link [d.data.__dataNode = d] written in the same loop is read back
    through [FocusTarget]: a target carries the link it had when it was
    handed over.  The link of a target handed over before the data were
    laid out again is not refreshed here, so the statements set the focus
    after the layout they speak of. *)
Definition _parseData (state : State) : State :=
  match data state with
  | Some root =>
      set_layoutData state (number_from 0 (D3.descendants (layout state root)))
  | None => state
  end.

(** The state [init] sets up, for given properties. *)
Definition init (w h : R) (d : option RawNode) : State :=
  mkState w h d None raw_name raw_value (2 # 10) true None None
          (Scale.mk (0, 1)%R (0, 1)%R)
          (Scale.mk (0, 10)%R (0, 2 * PI)%R)
          [] None.

(** *** [update] *)

Definition focusD (state : State) : Focus :=
  match focusOnNode state with
  | Some t =>
      match __dataNode t with
      | Some d => mkFocus (D3.x0 (node d)) (D3.x1 (node d))
                          (D3.y0 (node d)) (D3.y1 (node d))
      | None => mkFocus 0 1 0 1
      end
  | None => mkFocus 0 1 0 1
  end.

(** The quotient of two finite numbers in JavaScript. *)
Inductive JsNum : Type := Fin (q : Q) | PosInf | NegInf | NaN.

Definition js_div (a b : Q) : JsNum :=
  if Qeq_bool b 0 then
    (if Qlt_le_dec 0 a then PosInf else if Qlt_le_dec a 0 then NegInf else NaN)
  else Fin (a / b).

Definition js_gt (a : JsNum) (b : Q) : bool :=
  match a with
  | Fin q => if Qlt_le_dec b q then true else false
  | PosInf => true
  | NegInf | NaN => false
  end.

(** The predicate of the [filter] call: slices with a large enough
    angle.  The quotient and the comparison are exact here and doubles in
    the program, so the two can part where the quotient is within rounding
    of the threshold. *)
Definition visible (minSliceAngle : Q) (f : Focus) (d : LayoutDatum) : bool :=
  Qle_bool (fx0 f) (D3.x1 (node d))
  && Qle_bool (D3.x0 (node d)) (fx1 f)
  && js_gt (js_div (D3.x1 (node d) - D3.x0 (node d)) (fx1 f - fx0 f))
           (minSliceAngle / 360).

Definition has_key (k : nat) (l : list LayoutDatum) : bool :=
  existsb (fun d => Nat.eqb (id d) k) l.

Definition bound (k : nat) (l : list Slice) : bool :=
  existsb (fun s => Nat.eqb (id (datum s)) k) l.

Definition rebind (l : list LayoutDatum) (s : Slice) : LayoutDatum :=
  match find (fun d => Nat.eqb (id d) (id (datum s))) l with
  | Some d => d
  | None => datum s
  end.

(** [slice.exit().transition(transition).style('opacity', 0).remove()],
    with the arc tweens on its paths.  The new transition puts no tween
    on the label of an exiting slice: its display stays as it is. *)
Definition exiting (s : Slice) : Slice :=
  mkSlice (datum s) (opacity s) (Some 0) true
          (on_click s) (on_mouseover s) (on_mouseout s) true
          (text_display s) false.

(** [slice.enter().append('g').style('opacity', 0).on(...)], with its
    paths and its label; the new label has no [display] style yet. *)
Definition entering (d : LayoutDatum) : Slice :=
  mkSlice d 0 None false true true true false display_null false.

(** [allSlices.style('opacity', 1)], the arc tweens and the display
    tween of the label on the shared transition. *)
Definition entered_or_updated (s : Slice) : Slice :=
  mkSlice (datum s) 1 (fade s) (removed s)
          (on_click s) (on_mouseover s) (on_mouseout s) true
          (text_display s) true.

(** The data join [selectAll('.slice').data(shown, d => d.id)] and what
    [update] does with its three parts: slices whose key is gone exit,
    slices whose key stays are re-bound, data without a slice enter. *)
Definition reconcile (old : list Slice) (shown : list LayoutDatum) : list Slice :=
  let kept :=
    map (fun s => if has_key (id (datum s)) shown
                  then entered_or_updated
                         (mkSlice (rebind shown s) (opacity s) (fade s)
                                  (removed s) (on_click s) (on_mouseover s)
                                  (on_mouseout s) (arc_tween s)
                                  (text_display s) (display_tween s))
                  else exiting s)
        old in
  let newSlice :=
    map entering (filter (fun d => negb (bound (id d) old)) shown) in
  kept ++ map entered_or_updated newSlice.

(** [update]: set the radius range; stop if there is no layout; pick the
    focus, filter the data, install the zoom tween and reconcile the
    slices.  The tween's interpolators start from the domains the scales
    have when [update] runs.  Sizing the svg, filling and labelling the
    paths are not represented. *)
Definition update (state : State) : State :=
  let maxRadius := (Rmin (width state) (height state) / 2)%R in
  let state :=
    set_radiusScale state
      (Scale.set_range (radiusScale state) (maxRadius * 0.1, maxRadius)%R) in
  match layoutData state with
  | None => state
  | Some ld =>
      let f := focusD state in
      let shown := filter (visible (minSliceAngle state) f) ld in
      let z :=
        mkZoom (Scale.interpolate (Scale.domain (angleScale state))
                                  (Q2R (fx0 f), Q2R (fx1 f)))
               (Scale.interpolate (Scale.domain (radiusScale state))
                                  (Q2R (fy0 f), 1%R)) in
      set_render state (reconcile (slices state) shown) z
  end.

(** One frame of the zoom tween, at eased time [t]:
    [state.angleScale.domain(xd(t)); state.radiusScale.domain(yd(t))]. *)
Definition frame (t : R) (state : State) : State :=
  match zoom state with
  | None => state
  | Some z =>
      set_angleScale
        (set_radiusScale state (Scale.set_domain (radiusScale state) (yd z t)))
        (Scale.set_domain (angleScale state) (xd z t))
  end.

(** The accessors of [state.arc]. *)
Definition startAngle (state : State) (d : LayoutDatum) : R :=
  Scale.linear_clamped (angleScale state) (Q2R (D3.x0 (node d))).
Definition endAngle (state : State) (d : LayoutDatum) : R :=
  Scale.linear_clamped (angleScale state) (Q2R (D3.x1 (node d))).
Definition innerRadius (state : State) (d : LayoutDatum) : R :=
  Rmax 0 (Scale.sqrt_scale (radiusScale state) (Q2R (D3.y0 (node d)))).
Definition outerRadius (state : State) (d : LayoutDatum) : R :=
  Rmax 0 (Scale.sqrt_scale (radiusScale state) (Q2R (D3.y1 (node d)))).

(** [nameOf(d.data)]: the [label] accessor is taken to answer with a
    string for every node; a node for which it answers nothing makes
    [.toString()] raise, which is not represented. *)
Definition nameOf (state : State) (d : LayoutDatum) : string :=
  label state (D3.data (node d)).

(** The locals of [textFits]. *)
Definition deltaAngle (state : State) (d : LayoutDatum) : R :=
  (Scale.linear_clamped (angleScale state) (Q2R (D3.x1 (node d)))
   - Scale.linear_clamped (angleScale state) (Q2R (D3.x0 (node d))))%R.

Definition meanRadius (state : State) (d : LayoutDatum) : R :=
  Rmax 0 ((Scale.sqrt_scale (radiusScale state) (Q2R (D3.y0 (node d)))
           + Scale.sqrt_scale (radiusScale state) (Q2R (D3.y1 (node d)))) / 2)%R.

Definition perimeter (state : State) (d : LayoutDatum) : R :=
  (meanRadius state d * deltaAngle state d)%R.

Definition textFits (state : State) (d : LayoutDatum) : bool :=
  if Rlt_dec (INR (String.length (nameOf state d)) * INR CHAR_PX)
             (perimeter state d)
  then true else false.

Definition label_display (state : State) (d : LayoutDatum) : Display :=
  if showLabels state && textFits state d then display_null else display_none.

(** *** Property setters

    A property setter stores the value, runs the property's [onChange]
    and re-renders.  [focusOnNode]'s [onChange] only reorders the slices
    in the document, which is not represented. *)
Definition with_data (state : State) (v : option RawNode) : State :=
  mkState (width state) (height state) v (sort state) (label state)
          (size state) (minSliceAngle state) (showLabels state)
          (focusOnNode state) (layoutData state) (radiusScale state)
          (angleScale state) (slices state) (zoom state).

Definition with_focusOnNode (state : State) (v : option FocusTarget) : State :=
  mkState (width state) (height state) (data state) (sort state) (label state)
          (size state) (minSliceAngle state) (showLabels state)
          v (layoutData state) (radiusScale state)
          (angleScale state) (slices state) (zoom state).

Definition with_minSliceAngle (state : State) (v : Q) : State :=
  mkState (width state) (height state) (data state) (sort state) (label state)
          (size state) v (showLabels state)
          (focusOnNode state) (layoutData state) (radiusScale state)
          (angleScale state) (slices state) (zoom state).

Definition with_showLabels (state : State) (v : bool) : State :=
  mkState (width state) (height state) (data state) (sort state) (label state)
          (size state) (minSliceAngle state) v
          (focusOnNode state) (layoutData state) (radiusScale state)
          (angleScale state) (slices state) (zoom state).

Definition with_sort (state : State) (v : option (D3.Node -> D3.Node -> Q)) : State :=
  mkState (width state) (height state) (data state) v (label state)
          (size state) (minSliceAngle state) (showLabels state)
          (focusOnNode state) (layoutData state) (radiusScale state)
          (angleScale state) (slices state) (zoom state).

Definition set_data (v : option RawNode) (state : State) : State :=
  update (_parseData (with_data state v)).

Definition set_focusOnNode (v : option FocusTarget) (state : State) : State :=
  update (with_focusOnNode state v).

Definition set_minSliceAngle (v : Q) (state : State) : State :=
  update (with_minSliceAngle state v).

Definition set_showLabels (v : bool) (state : State) : State :=
  update (with_showLabels state v).

(** The raw node of a layout datum, as a focus target. *)
Definition target_of (d : LayoutDatum) : FocusTarget :=
  mkTarget (D3.data (node d)) (Some d).

(** *** Vocabulary of the statements *)

(** Every size is non-negative. *)
Definition sizes_nonneg (state : State) (root : RawNode) : Prop :=
  Forall (fun r => 0 <= num_or_zero (size state r)) (raw_preorder root).

(** The name of the raw node behind a datum. *)
Definition raw_name_of (d : LayoutDatum) : string :=
  raw_name (D3.data (node d)).

(** The angular span of [d] meets the window [f]. *)
Definition overlaps (f : Focus) (d : LayoutDatum) : Prop :=
  fx0 f <= D3.x1 (node d) /\ D3.x0 (node d) <= fx1 f.

Definition whole_tree : Focus := mkFocus 0 1 0 1.

Definition box_of (d : LayoutDatum) : Focus :=
  mkFocus (D3.x0 (node d)) (D3.x1 (node d)) (D3.y0 (node d)) (D3.y1 (node d)).

(** The focus property names no node, or a node without a layout link. *)
Definition unresolved (state : State) : Prop :=
  focusOnNode state = None
  \/ exists t, focusOnNode state = Some t /\ __dataNode t = None.

(** [maxRadius] of [update]. *)
Definition maxRadius (state : State) : R :=
  (Rmin (width state) (height state) / 2)%R.

(** A chart of the given size after its data property was set. *)
Definition loaded (w h : R) (root : RawNode) : State :=
  set_data (Some root) (init w h None).

(** The datum of the root in the layout of [root] under the default
    accessors. *)
Definition root_datum (root : RawNode) : LayoutDatum :=
  mkDatum 0 (D3.partition (D3.sum raw_value (D3.hierarchy root))).

(** *** The label guide *)

(** What [middleArcLine] returns: the empty string, or the path of its one
    call [path.arc(0, 0, r, a0, a1, ccw)], kept as the arguments of the
    call. *)
Inductive GuidePath : Type :=
| no_path
| arc_path (r a0 a1 : R) (ccw : bool).

(** [middleAngle > 0 && middleAngle < Math.PI]. *)
Definition invertDirection (middleAngle : R) : bool :=
  if Rlt_dec 0 middleAngle
  then (if Rlt_dec middleAngle PI then true else false)
  else false.

Definition middleArcLine (state : State) (d : LayoutDatum) : GuidePath :=
  let halfPi := (PI / 2)%R in
  let angle0 :=
    (Scale.linear_clamped (angleScale state) (Q2R (D3.x0 (node d))) - halfPi)%R in
  let angle1 :=
    (Scale.linear_clamped (angleScale state) (Q2R (D3.x1 (node d))) - halfPi)%R in
  let r :=
    Rmax 0 ((Scale.sqrt_scale (radiusScale state) (Q2R (D3.y0 (node d)))
             + Scale.sqrt_scale (radiusScale state) (Q2R (D3.y1 (node d)))) / 2)%R in
  if Req_dec_T r 0 then no_path
  else if Req_dec_T (angle1 - angle0) 0 then no_path
  else
    let middleAngle := ((angle1 + angle0) / 2)%R in
    if invertDirection middleAngle
    then arc_path r angle1 angle0 true
    else arc_path r angle0 angle1 false.

(** The length of the arc a guide path runs along. *)
Definition guide_length (g : GuidePath) : R :=
  match g with
  | no_path => 0%R
  | arc_path r a0 a1 _ => (r * Rabs (a1 - a0))%R
  end.

(** *** The breadcrumb of the tooltip *)

(** A layout node with the [parent] reference [d3.hierarchy] gives it
    ([child.parent = node]; the root has none). *)
Inductive Linked : Type :=
  mkLinked { lnode : D3.Node; lparent : option Linked }.

(** The nodes of a tree, each with its chain of parents, in pre-order. *)
Fixpoint linked_from (parent : option Linked) (n : D3.Node) : list Linked :=
  mkLinked n parent
    :: flat_map (linked_from (Some (mkLinked n parent))) (D3.children n).

Definition linked (root : D3.Node) : list Linked := linked_from None root.

(** The loop of [getNodeStack]:
    [while (curNode) { stack.unshift(curNode); curNode = curNode.parent; }]. *)
Fixpoint climb (curNode : Linked) (stack : list Linked) : list Linked :=
  match curNode with
  | mkLinked n parent =>
      match parent with
      | Some p => climb p (mkLinked n parent :: stack)
      | None => mkLinked n parent :: stack
      end
  end.

Definition getNodeStack (d : Linked) : list Linked := climb d [].

(** The title of the tooltip:
    [getNodeStack(d).map(d => nameOf(d.data)).join(' > ')]. *)
Definition tooltip_title (state : State) (d : Linked) : string :=
  String.concat " > "
    (map (fun l => label state (D3.data (lnode l))) (getNodeStack d)).

(** *** Pointer events *)

(** The [mousemove] handler shifts the tooltip left by
    [pageX / state.width * 100] percent of the tooltip's own width;
    [pageX] is the pointer's position in the page, wherever the canvas
    is. *)
Definition tooltip_shift (state : State) (pageX : R) : R :=
  (pageX / width state * 100)%R.

(** The left edge, in page coordinates, of a tooltip [w] wide that is
    placed at [left: pageX] and translated by that percentage of its own
    width. *)
Definition tooltip_left (state : State) (pageX w : R) : R :=
  (pageX - tooltip_shift state pageX / 100 * w)%R.

(** The [viewBox] that [update] gives the svg:
    [-width/2 -height/2 width height], as min-x, min-y, width, height. *)
Definition viewBox (state : State) : R * R * R * R :=
  (- width state / 2, - height state / 2, width state, height state)%R.

(** A click on a slice when no [onNodeClick] is set,
    [this.focusOnNode(d.data)], and a click on the canvas,
    [this.focusOnNode(null)]. *)
Definition click_slice (d : LayoutDatum) (state : State) : State :=
  set_focusOnNode (Some (target_of d)) state.

Definition click_canvas (state : State) : State :=
  set_focusOnNode None state.

(** *** A tick and the end of the transition *)

Definition set_slices (state : State) (sl : list Slice) : State :=
  mkState (width state) (height state) (data state) (sort state) (label state)
          (size state) (minSliceAngle state) (showLabels state)
          (focusOnNode state) (layoutData state) (radiusScale state)
          (angleScale state) sl (zoom state).

(** The display tween of a label, where it is installed:
    [styleTween('display', d => () => state.showLabels && textFits(d) ? null : 'none')]. *)
Definition relabel (state : State) (s : Slice) : Slice :=
  if display_tween s
  then mkSlice (datum s) (opacity s) (fade s) (removed s)
               (on_click s) (on_mouseover s) (on_mouseout s) (arc_tween s)
               (label_display state (datum s)) true
  else s.

(** One tick of the transition at eased time [t]: the tween of the svg,
    scheduled first, sets the two domains ([frame]); then the display
    tweens of the labels run under the new domains. *)
Definition tick (t : R) (state : State) : State :=
  let state := frame t state in
  set_slices state (map (relabel state) (slices state)).

(** The slices that are not on their way out. *)
Definition staying (s : Slice) : bool := negb (removed s).

(** The end of the exit transitions: [.remove()] takes the slices that
    were marked out of the document. *)
Definition settle (state : State) : State :=
  set_slices state (filter staying (slices state)).

(** *** States the component goes through *)

(** From [init]: by setting a property and rendering at once, or by
    storing a property (for [data], with its [onChange], [_parseData]) and
    rendering later, as the debounced digest does; by frames and ticks of
    the transition; and by the removal of the exited slices at its end. *)
Inductive Reachable : State -> Prop :=
| reach_init (w h : R) : Reachable (init w h None)
| reach_data (v : option RawNode) (s : State) :
    Reachable s -> Reachable (set_data v s)
| reach_focus (v : option FocusTarget) (s : State) :
    Reachable s -> Reachable (set_focusOnNode v s)
| reach_minSliceAngle (v : Q) (s : State) :
    Reachable s -> Reachable (set_minSliceAngle v s)
| reach_showLabels (v : bool) (s : State) :
    Reachable s -> Reachable (set_showLabels v s)
| reach_frame (t : R) (s : State) :
    Reachable s -> Reachable (frame t s)
| reach_store_data (v : option RawNode) (s : State) :
    Reachable s -> Reachable (_parseData (with_data s v))
| reach_store_focus (v : option FocusTarget) (s : State) :
    Reachable s -> Reachable (with_focusOnNode s v)
| reach_store_minSliceAngle (v : Q) (s : State) :
    Reachable s -> Reachable (with_minSliceAngle s v)
| reach_store_showLabels (v : bool) (s : State) :
    Reachable s -> Reachable (with_showLabels s v)
| reach_update (s : State) :
    Reachable s -> Reachable (update s)
| reach_tick (t : R) (s : State) :
    Reachable s -> Reachable (tick t s)
| reach_settle (s : State) :
    Reachable s -> Reachable (settle s).

(** *** More vocabulary *)

(** The key of a slice: the id of its datum. *)
Definition key (s : Slice) : nat := id (datum s).

(** The sizes of the raw nodes under a layout node, added up. *)
Definition subtree_sizes (size : RawNode -> option Q) (n : D3.Node) : Q :=
  fold_right (fun m acc => num_or_zero (size (D3.data m)) + acc) 0
             (D3.preorder n).

(** The fields of a node that [hierarchy] and [sum] have written when
    [sort] runs, and a comparator that reads only those. *)
Definition fields (n : D3.Node) : RawNode * nat * nat * Q :=
  (D3.data n, D3.depth n, D3.height n, D3.value n).

Definition by_fields (cmp : RawNode * nat * nat * Q -> RawNode * nat * nat * Q -> Q)
  : D3.Node -> D3.Node -> Q :=
  fun a b => cmp (fields a) (fields b).

(** [a] does not come after [b] under the comparator. *)
Definition in_order (compare : D3.Node -> D3.Node -> Q) (a b : D3.Node) : Prop :=
  compare a b <= 0.

(** The chain of parents of a linked node, root first, the node last. *)
Fixpoint ancestors (l : Linked) : list Linked :=
  match l with
  | mkLinked n parent =>
      match parent with
      | Some p => ancestors p ++ [mkLinked n parent]
      | None => [mkLinked n parent]
      end
  end.

Definition ancestors_of (parent : option Linked) : list Linked :=
  match parent with
  | Some p => ancestors p
  | None => []
  end.

(** [p] leads from [n] down to [m], each node a child of the one before. *)
Inductive descent : D3.Node -> D3.Node -> list D3.Node -> Prop :=
| descent_here (n : D3.Node) : descent n n [n]
| descent_down (n c m : D3.Node) (p : list D3.Node) :
    In c (D3.children n) -> descent c m p -> descent n m (n :: p).

(** A slice answers clicks and the pointer. *)
Definition handled (s : Slice) : Prop :=
  on_click s = true /\ on_mouseover s = true /\ on_mouseout s = true.

(** What holds of the scales, the tween and the slices throughout. *)
Definition steady (state : State) : Prop :=
  Scale.range (angleScale state) = (0, 2 * PI)%R
  /\ snd (Scale.domain (radiusScale state)) = 1%R
  /\ (forall z t, zoom state = Some z -> snd (yd z t) = 1%R)
  /\ NoDup (map key (slices state))
  /\ (forall ld, layoutData state = Some ld -> NoDup (map id ld))
  /\ Forall handled (slices state)
  /\ (layoutData state = None -> slices state = []).

(** The parts of the join: what becomes of a slice of the document, and
    the data that have no slice yet. *)
Definition kept_slice (l : list LayoutDatum) (s : Slice) : Slice :=
  if has_key (id (datum s)) l
  then entered_or_updated
         (mkSlice (rebind l s) (opacity s) (fade s) (removed s) (on_click s)
                  (on_mouseover s) (on_mouseout s) (arc_tween s)
                  (text_display s) (display_tween s))
  else exiting s.

Definition unbound (old : list Slice) (l : list LayoutDatum) : list LayoutDatum :=
  filter (fun d => negb (bound (id d) old)) l.

(** The data [update] draws: [layoutData] through the filter. *)
Definition shown (state : State) (ld : list LayoutDatum) : list LayoutDatum :=
  filter (visible (minSliceAngle state) (focusD state)) ld.

End Sunburst.

(* ------------------------------------------------------------------ *)
(** ** Shapes of a laid-out tree *)

Module Shape.
Import D3 Invariants.
Local Open Scope Q_scope.

(** The sizes of a list of raw nodes, added up. *)
Definition own_sum (size : RawNode -> option Q) (l : list RawNode) : Q :=
  fold_right (fun r acc => num_or_zero (size r) + acc) 0 l.

(** The value of a node is the total of the sizes under it. *)
Definition summed (size : RawNode -> option Q) (m : Node) : Prop :=
  value m == Sunburst.subtree_sizes size m.

(** The children of a node stand for the children of its raw node, in the
    order of the data. *)
Definition mirrors (m : Node) : Prop :=
  map data (children m) = raw_children (data m).

(** Whatever lies under a node lies inside its span. *)
Definition encloses (m : Node) : Prop :=
  Forall (bounded (x0 m) (x1 m)) (preorder m).

(** No element of a list comes after its successor under a comparator. *)
Definition le_by (A : Type) (cmp : A -> A -> Q) (a b : A) : Prop :=
  cmp a b <= 0.

(** A consistent comparator, as the language defines it: equal to
    itself, and [= 0], [< 0] and [> 0] each transitive, [= 0] symmetric. *)
Definition consistent (A : Type) (c : A -> A -> Q) : Prop :=
  (forall a, c a a == 0)
  /\ (forall a b, c a b == 0 -> c b a == 0)
  /\ (forall a b d, c a b == 0 -> c b d == 0 -> c a d == 0)
  /\ (forall a b d, c a b < 0 -> c b d < 0 -> c a d < 0)
  /\ (forall a b d, 0 < c a b -> 0 < c b d -> 0 < c a d).

(** The children of a node are in the order of a comparator on fields. *)
Definition ordered
  (c : RawNode * nat * nat * Q -> RawNode * nat * nat * Q -> Q) (m : Node) : Prop :=
  Sorted (Sunburst.in_order (Sunburst.by_fields c)) (children m).

End Shape.

(* ------------------------------------------------------------------ *)
(** ** Sample data *)

Module Sample.
Local Open Scope string_scope.

Definition leaf (name : string) (v : Q) : RawNode := mkRaw name (Some v) [].

(** [A{value:0} -> [B{value:10}, C{value:30}]]. *)
Definition abc : RawNode := mkRaw "A" (Some 0%Q) [leaf "B" 10; leaf "C" 30].

(** [A -> [B -> [D, E], C]]: pre-order and level order differ. *)
Definition nested : RawNode :=
  mkRaw "A" None [mkRaw "B" None [leaf "D" 5; leaf "E" 5]; leaf "C" 30].

(** [A{value:10} -> [B{value:10}]]: an internal node with a size of its own. *)
Definition heavy_parent : RawNode := mkRaw "A" (Some 10%Q) [leaf "B" 10].

(** [A -> [B{value:0}, C{value:30}]]: a child of no weight. *)
Definition weightless : RawNode := mkRaw "A" None [leaf "B" 0; leaf "C" 30].

(** [A -> [B -> [C -> [D]]]]: four levels. *)
Definition chain : RawNode :=
  mkRaw "A" None [mkRaw "B" None [mkRaw "C" None [leaf "D" 1]]].

(** A single node whose label is fifty characters long. *)
Definition fifty : string :=
  "0123456789012345678901234567890123456789012345678X".

Definition long_label : RawNode := leaf fifty 1.

(** The data of the default layout of a tree. *)
Definition data_of (root : RawNode) : list Sunburst.LayoutDatum :=
  Sunburst.number_from 0
    (D3.descendants (D3.partition (D3.sum raw_value (D3.hierarchy root)))).

(** Node [C] of [abc] and node [B] of [chain]. *)
Definition abc_C : Sunburst.LayoutDatum :=
  nth 2 (data_of abc) (Sunburst.root_datum abc).

(** Node [B] of [abc]. *)
Definition abc_B : Sunburst.LayoutDatum :=
  nth 1 (data_of abc) (Sunburst.root_datum abc).

Definition chain_B : Sunburst.LayoutDatum :=
  nth 1 (data_of chain) (Sunburst.root_datum chain).


(** Zoom to [B] of [chain] in a 600 by 600 chart and let the zoom
    finish. *)
Definition zoomed_in : Sunburst.State :=
  Sunburst.frame 1
    (Sunburst.set_focusOnNode (Some (Sunburst.target_of chain_B))
       (Sunburst.loaded 600 600 chain)).

(** Zoom to [B] of [chain], let the zoom finish, ask for the root again:
    the state three quarters of the way back. *)
Definition zooming_out : Sunburst.State :=
  Sunburst.frame (3 / 4)
    (Sunburst.set_focusOnNode (Some (Sunburst.target_of (Sunburst.root_datum chain)))
       (Sunburst.frame 1
          (Sunburst.set_focusOnNode (Some (Sunburst.target_of chain_B))
             (Sunburst.loaded 600 600 chain)))).

(** Node [B] of [weightless], the child without weight. *)
Definition weightless_B : Sunburst.LayoutDatum :=
  nth 1 (data_of weightless) (Sunburst.root_datum weightless).

(** The comparator [(a, b) => b.value - a.value]: largest first. *)
Definition largest_first (u v : RawNode * nat * nat * Q) : Q := (snd v - snd u)%Q.

(** [abc], to be laid out largest first. *)
Definition abc_sorted : Sunburst.State :=
  Sunburst.with_sort (Sunburst.init 800 600 (Some abc))
                     (Some (Sunburst.by_fields largest_first)).

End Sample.

(* ------------------------------------------------------------------ *)
(** * Facts *)

Module TreeFacts.
Import D3 Invariants.
Local Open Scope Q_scope.

Lemma node_induction (P : Node -> Prop) :
  (forall n, Forall P (children n) -> P n) -> forall n, P n.
Proof.
  intros step. fix IH 1. intros [a b c d e f g h cs].
  apply step. simpl.
  induction cs as [|x r IHr]; constructor; [apply IH | exact IHr].
Qed.

Lemma raw_induction (P : RawNode -> Prop) :
  (forall r, Forall P (raw_children r) -> P r) -> forall r, P r.
Proof.
  intros step. fix IH 1. intros [a b cs].
  apply step. simpl.
  induction cs as [|x r IHr]; constructor; [apply IH | exact IHr].
Qed.

(** Sorting permutes. *)
Lemma insert_perm (A : Type) (cmp : A -> A -> Q) (a : A) (l : list A) :
  Permutation (insert cmp a l) (a :: l).
Proof.
  induction l as [|b l IH]; simpl; [reflexivity|].
  destruct (Qlt_le_dec 0 (cmp a b)); [|reflexivity].
  rewrite IH. apply perm_swap.
Qed.

Lemma array_sort_perm (A : Type) (cmp : A -> A -> Q) (l : list A) :
  Permutation (array_sort cmp l) l.
Proof.
  induction l as [|a l IH]; simpl; [reflexivity|].
  rewrite insert_perm. now constructor.
Qed.

Lemma sort_children (cmp : Node -> Node -> Q) (n : Node) :
  Permutation (children (sort cmp n)) (map (sort cmp) (children n)).
Proof.
  destruct n as [a b c d e f g h cs]; simpl.
  rewrite array_sort_perm, map_map. simpl. reflexivity.
Qed.

Lemma list_max_app (l l' : list nat) :
  list_max (l ++ l') = Nat.max (list_max l) (list_max l').
Proof.
  unfold list_max. induction l as [|a l IH]; simpl; [reflexivity|].
  rewrite IH. lia.
Qed.

(** Breadth-first order lists the same nodes as pre-order. *)
Lemma levels_eq (n : Node) :
  levels n = S (forest_levels (children n)).
Proof. destruct n; reflexivity. Qed.

Lemma forest_levels_cons (t : Node) (l : list Node) :
  forest_levels (t :: l) = Nat.max (levels t) (forest_levels l).
Proof. reflexivity. Qed.

Lemma forest_levels_children (l : list Node) :
  (forest_levels (flat_map children l) <= Nat.pred (forest_levels l))%nat.
Proof.
  induction l as [|t l IH]; [simpl; lia|].
  rewrite forest_levels_cons, levels_eq. cbn [flat_map].
  unfold forest_levels in *. rewrite map_app, list_max_app. lia.
Qed.

Lemma preorder_forest (l : list Node) :
  Permutation (flat_map preorder l) (l ++ flat_map preorder (flat_map children l)).
Proof.
  induction l as [|t l IH]; simpl; [reflexivity|].
  destruct t as [a b c d e f g h cs]; simpl.
  constructor. rewrite flat_map_app, IH.
  rewrite !app_assoc. apply Permutation_app_tail. apply Permutation_app_comm.
Qed.

Lemma each_levels_perm (fuel : nat) : forall l,
  (forest_levels l <= fuel)%nat ->
  Permutation (each_levels fuel l) (flat_map preorder l).
Proof.
  induction fuel as [|fuel IH]; intros l Hl.
  - destruct l as [|t l]; [reflexivity|].
    rewrite forest_levels_cons, levels_eq in Hl. lia.
  - destruct l as [|t l]; [reflexivity|].
    cbn [each_levels]. rewrite (preorder_forest (t :: l)).
    apply Permutation_app_head. apply IH.
    pose proof (forest_levels_children (t :: l)). lia.
Qed.

Lemma descendants_perm (t : Node) : Permutation (descendants t) (preorder t).
Proof.
  unfold descendants. rewrite each_levels_perm.
  - simpl. now rewrite app_nil_r.
  - rewrite forest_levels_cons. change (forest_levels []) with 0%nat. lia.
Qed.

Lemma Forall_preorder (P : Node -> Prop) (n : Node) :
  Forall P (preorder n) <->
  P n /\ Forall (fun c => Forall P (preorder c)) (children n).
Proof.
  destruct n as [a b c d e f g h cs]. cbn [preorder children].
  rewrite Forall_cons_iff, Forall_flat_map. reflexivity.
Qed.

End TreeFacts.

(** ** The partition pass *)

Module PartitionFacts.
Import D3 Invariants TreeFacts.
Local Open Scope Q_scope.

Lemma treemapDice_spread (pos : Q -> Q -> Node -> Node) (k : Q) (cs : list Node) :
  forall x, treemapDice pos k x cs
            = map (fun p => pos (fst (fst p)) (snd (fst p)) (snd p)) (spread k x cs).
Proof.
  induction cs as [|c cs IH]; intros x; simpl; [reflexivity|].
  now rewrite IH.
Qed.

Lemma positionNode_eq (n : nat) (a b c d : Q) (node : Node) :
  positionNode n a b c d node =
  mkNode (data node) (depth node) (height node) (value node)
         (fst (collapse a (c - padding))) (snd (collapse a (c - padding)))
         (fst (collapse b (d - padding))) (snd (collapse b (d - padding)))
         (map (fun p => positionNode n (fst (fst p)) (child_y0 n node)
                                     (snd (fst p)) (child_y1 n node) (snd p))
              (spread (dice_k a c node) a (children node))).
Proof.
  destruct node as [da de he va xa xb ya yb cs].
  cbn [positionNode data depth height value children].
  now rewrite treemapDice_spread.
Qed.

Lemma spread_nodes (k : Q) (cs : list Node) :
  forall x, map snd (spread k x cs) = cs.
Proof.
  induction cs as [|c cs IH]; intros x; simpl; [reflexivity|].
  now rewrite IH.
Qed.

(** One induction for every property of the pass: [Inv] is what holds of
    a node and the box it holds when the pass reaches it, [Post] what
    holds of the node afterwards. *)
Section Pass.
Variable n : nat.
Variable Inv : Q -> Q -> Q -> Q -> Node -> Prop.
Variable Post : Node -> Prop.

Hypothesis local :
  forall a b c d node, Inv a b c d node -> Post (positionNode n a b c d node).
Hypothesis down :
  forall a b c d node, Inv a b c d node ->
    Forall (fun p => Inv (fst (fst p)) (child_y0 n node)
                         (snd (fst p)) (child_y1 n node) (snd p))
           (spread (dice_k a c node) a (children node)).

Lemma pass_all (node : Node) :
  forall a b c d, Inv a b c d node ->
                  Forall Post (preorder (positionNode n a b c d node)).
Proof.
  induction node as [node IH] using node_induction.
  intros a b c d HI. apply Forall_preorder. split; [now apply local|].
  rewrite positionNode_eq. cbn [children].
  apply Forall_map.
  pose proof (down HI) as Hd.
  pose proof (spread_nodes (dice_k a c node) (children node) a) as Hn.
  revert Hd Hn IH.
  generalize (spread (dice_k a c node) a (children node)) as ps.
  generalize (children node) as cs.
  intros cs ps. revert cs.
  induction ps as [|p ps IHps]; intros cs Hd Hn IH; [constructor|].
  destruct cs as [|c0 cs]; [discriminate|].
  simpl in Hn. injection Hn as Hp Hps.
  apply Forall_cons_iff in Hd. destruct Hd as [Hp1 Hd1].
  apply Forall_cons_iff in IH. destruct IH as [Hc Hcs].
  constructor; [|now apply (IHps cs)].
  subst c0. apply Hc. exact Hp1.
Qed.
End Pass.

(** What the pass leaves in each field. *)
Lemma positionNode_value n a b c d node :
  value (positionNode n a b c d node) = value node.
Proof. now rewrite positionNode_eq. Qed.

Lemma positionNode_depth n a b c d node :
  depth (positionNode n a b c d node) = depth node.
Proof. now rewrite positionNode_eq. Qed.

Lemma positionNode_data n a b c d node :
  data (positionNode n a b c d node) = data node.
Proof. now rewrite positionNode_eq. Qed.

Lemma collapse_ordered (a b : Q) :
  a <= b -> collapse a (b - padding) = (a, b - padding).
Proof.
  intros H. unfold collapse, padding.
  destruct (Qlt_le_dec (b - 0) a) as [Hlt|_]; [lra|reflexivity].
Qed.

Lemma positionNode_x n a b c d node :
  a <= c ->
  x0 (positionNode n a b c d node) == a /\ x1 (positionNode n a b c d node) == c.
Proof.
  intros H. rewrite positionNode_eq. cbn [x0 x1].
  rewrite (collapse_ordered H). unfold padding. cbn [fst snd]. split; lra.
Qed.

Lemma positionNode_y n a b c d node :
  b <= d ->
  y0 (positionNode n a b c d node) == b /\ y1 (positionNode n a b c d node) == d.
Proof.
  intros H. rewrite positionNode_eq. cbn [y0 y1].
  rewrite (collapse_ordered H). unfold padding. cbn [fst snd]. split; lra.
Qed.

(** *** Input conditions *)

Lemma children_nonneg (node : Node) :
  Forall nonneg (preorder node) -> Forall (fun c => 0 <= value c) (children node).
Proof.
  intros H. apply Forall_preorder in H. destruct H as [_ H].
  eapply Forall_impl; [|exact H]. intros c Hc.
  apply Forall_preorder in Hc. apply Hc.
Qed.

Lemma total_nonneg (cs : list Node) :
  Forall (fun c => 0 <= value c) cs -> 0 <= total cs.
Proof.
  induction 1 as [|c cs Hc _ IH]; simpl; lra.
Qed.

Lemma dice_k_nonneg (a c : Q) (node : Node) :
  a <= c -> 0 <= value node -> 0 <= dice_k a c node.
Proof.
  intros Hac Hv. unfold dice_k.
  destruct (Qeq_bool (value node) 0) eqn:E; [lra|].
  apply Qeq_bool_neq in E.
  apply Qle_shift_div_l; lra.
Qed.

Lemma dice_k_value (a c : Q) (node : Node) :
  (value node == 0 -> a == c) -> dice_k a c node * value node == c - a.
Proof.
  intros Hz. unfold dice_k.
  destruct (Qeq_bool (value node) 0) eqn:E.
  - apply Qeq_bool_iff in E. rewrite E. specialize (Hz E). lra.
  - apply Qeq_bool_neq in E. field. exact E.
Qed.

Lemma dice_k_total (a c : Q) (node : Node) :
  a <= c -> nonneg node ->
  dice_k a c node * total (children node) <= c - a.
Proof.
  intros Hac [Hv Ht].
  pose proof (dice_k_nonneg node Hac Hv) as Hk.
  unfold dice_k in *.
  destruct (Qeq_bool (value node) 0) eqn:E; [lra|].
  apply Qeq_bool_neq in E.
  assert (Hpos : 0 < value node) by lra.
  assert (H1 : (c - a) / value node * value node == c - a) by (field; exact E).
  assert (H2 : 0 <= (c - a) / value node * (value node - total (children node))).
  { apply Qmult_le_0_compat; lra. }
  lra.
Qed.

(** The boxes [treemapDice] hands out are ordered and stay below
    [x + k * total cs]. *)
Lemma spread_bounds (k : Q) (cs : list Node) :
  0 <= k -> Forall (fun c => 0 <= value c) cs ->
  forall x,
    Forall (fun p => x <= fst (fst p) /\ fst (fst p) <= snd (fst p)
                     /\ snd (fst p) <= x + k * total cs)
           (spread k x cs).
Proof.
  intros Hk Hcs. induction Hcs as [|c cs Hc Hcs IH]; intros x; simpl; [constructor|].
  assert (Hck : 0 <= value c * k) by (apply Qmult_le_0_compat; assumption).
  assert (Ht : 0 <= k * total cs).
  { apply Qmult_le_0_compat; [assumption|now apply total_nonneg]. }
  constructor; cbn [fst snd].
  - repeat split; lra.
  - eapply Forall_impl; [|apply (IH (x + value c * k))].
    intros p (H1 & H2 & H3). repeat split; lra.
Qed.

Lemma spread_In_children (k : Q) (cs : list Node) :
  forall x p, In p (spread k x cs) -> In (snd p) cs.
Proof.
  intros x p Hp. rewrite <- (spread_nodes k cs x). now apply in_map.
Qed.

Lemma spread_width (k : Q) (cs : list Node) :
  forall x, Forall (fun p => snd (fst p) == fst (fst p) + value (snd p) * k)
                   (spread k x cs).
Proof.
  induction cs as [|m l IH]; intros x; simpl; constructor;
    [reflexivity | apply IH].
Qed.

(** Hereditary conditions pass to the children. *)
Lemma hereditary_children (P : Node -> Prop) (node : Node) (k x : Q) :
  Forall P (preorder node) ->
  Forall (fun p => Forall P (preorder (snd p))) (spread k x (children node)).
Proof.
  intros H. apply Forall_preorder in H. destruct H as [_ H].
  rewrite Forall_forall in *. intros p Hp.
  apply H. eapply spread_In_children, Hp.
Qed.

(** *** Angular bounds: every span lies inside the root's. *)
Section Bounds.
Variable n : nat.
Variables lo hi : Q.

Lemma within_local a b c d node :
  within lo hi a b c d node -> bounded lo hi (positionNode n a b c d node).
Proof.
  intros (H1 & H2 & H3 & _). unfold bounded.
  destruct (positionNode_x n b d node H2) as [E0 E1].
  rewrite E0, E1. repeat split; assumption.
Qed.

Lemma within_down a b c d node :
  within lo hi a b c d node ->
  Forall (fun p => within lo hi (fst (fst p)) (child_y0 n node)
                          (snd (fst p)) (child_y1 n node) (snd p))
         (spread (dice_k a c node) a (children node)).
Proof.
  intros (H1 & H2 & H3 & H4).
  assert (Hn : nonneg node) by (apply Forall_preorder in H4; apply H4).
  pose proof (dice_k_nonneg node H2 (proj1 Hn)) as Hk.
  pose proof (dice_k_total H2 Hn) as Ht.
  pose proof (spread_bounds Hk (children_nonneg node H4) a) as Hb.
  pose proof (hereditary_children node (dice_k a c node) a H4) as Hh.
  rewrite Forall_forall in *. intros p Hp.
  destruct (Hb p Hp) as (B1 & B2 & B3). specialize (Hh p Hp).
  unfold within. repeat split; try assumption; lra.
Qed.

Lemma bounds_all a b c d node :
  within lo hi a b c d node ->
  Forall (bounded lo hi) (preorder (positionNode n a b c d node)).
Proof. apply pass_all; [exact within_local | exact within_down]. Qed.
End Bounds.

(** *** Depth bands *)
Lemma of_nat_succ (k : nat) : of_nat (k + 1) == of_nat k + 1.
Proof.
  unfold of_nat. rewrite Nat2Z.inj_add, inject_Z_plus. reflexivity.
Qed.

Lemma of_nat_pos (n : nat) : of_nat (S n) > 0.
Proof.
  unfold of_nat. change 0 with (inject_Z 0). rewrite <- Zlt_Qlt. lia.
Qed.

Lemma band_step (k n : nat) :
  of_nat (k + 1) / of_nat (S n) == of_nat k / of_nat (S n) + 1 / of_nat (S n).
Proof.
  rewrite of_nat_succ. field.
  pose proof (of_nat_pos n). lra.
Qed.

Lemma band_width_pos (n : nat) : 0 < 1 / of_nat (S n).
Proof.
  apply Qlt_shift_div_l; [apply of_nat_pos|lra].
Qed.

Section Bands.
Variable n : nat.

Lemma band_local a b c d node :
  band_in n a b c d node -> banded n (positionNode (S n) a b c d node).
Proof.
  intros (H1 & H2 & _). unfold banded.
  assert (Hbd : b <= d).
  { rewrite H1, H2, band_step. pose proof (band_width_pos n). lra. }
  destruct (positionNode_y (S n) a c node Hbd) as [E0 E1].
  rewrite positionNode_depth, E0, E1. split; assumption.
Qed.

Lemma band_down a b c d node :
  band_in n a b c d node ->
  Forall (fun p => band_in n (fst (fst p)) (child_y0 (S n) node)
                           (snd (fst p)) (child_y1 (S n) node) (snd p))
         (spread (dice_k a c node) a (children node)).
Proof.
  intros (_ & _ & H).
  pose proof (hereditary_children node (dice_k a c node) a H) as Hh.
  apply Forall_preorder in H. destruct H as [Hd _]. unfold deep in Hd.
  rewrite Forall_forall in *. intros p Hp.
  specialize (Hh p Hp).
  pose proof (Hd (snd p) (spread_In_children _ _ _ _ Hp)) as Hdp.
  unfold band_in, child_y0, child_y1, dy. rewrite Hdp.
  repeat split; try assumption.
  - replace (S (depth node)) with (depth node + 1)%nat by lia. field.
    pose proof (of_nat_pos n). lra.
  - replace (S (depth node) + 1)%nat with (depth node + 2)%nat by lia. field.
    pose proof (of_nat_pos n). lra.
Qed.

Lemma bands_all a b c d node :
  band_in n a b c d node ->
  Forall (banded n) (preorder (positionNode (S n) a b c d node)).
Proof. apply pass_all; [exact band_local | exact band_down]. Qed.
End Bands.

(** *** Widths: every span is the node's share of the root's value. *)
Lemma value_le_total (c : Node) (cs : list Node) :
  Forall (fun c => 0 <= value c) cs -> In c cs -> value c <= total cs.
Proof.
  induction 1 as [|m l Hm Hl IH]; intros Hin; [contradiction|].
  pose proof (total_nonneg Hl). simpl. destruct Hin as [->|Hin]; [lra|].
  specialize (IH Hin). lra.
Qed.

Section Shares.
Variable n : nat.
Variable K : Q.

Lemma share_local a b c d node :
  share_in K a b c d node -> shared K (positionNode n a b c d node).
Proof.
  intros (H1 & H2 & _). unfold shared, span.
  destruct (positionNode_x n b d node H1) as [E0 E1].
  rewrite E0, E1, positionNode_value. exact H2.
Qed.

Lemma share_down a b c d node :
  share_in K a b c d node ->
  Forall (fun p => share_in K (fst (fst p)) (child_y0 n node)
                            (snd (fst p)) (child_y1 n node) (snd p))
         (spread (dice_k a c node) a (children node)).
Proof.
  intros (H1 & H2 & H3).
  assert (Hn : nonneg node) by (apply Forall_preorder in H3; apply H3).
  pose proof (dice_k_nonneg node H1 (proj1 Hn)) as Hk.
  pose proof (children_nonneg node H3) as Hcs.
  pose proof (spread_bounds Hk Hcs a) as Hb.
  pose proof (hereditary_children node (dice_k a c node) a H3) as Hh.
  pose proof (spread_width (dice_k a c node) (children node) a) as Hw.
  rewrite Forall_forall in Hb, Hh, Hw. apply Forall_forall. intros p Hp.
  destruct (Hb p Hp) as (B1 & B2 & B3). specialize (Hh p Hp). specialize (Hw p Hp).
  pose proof (@value_le_total _ _ Hcs (spread_In_children _ _ _ _ Hp)) as Hle.
  assert (Hv : 0 <= value (snd p)).
  { rewrite Forall_forall in Hcs. apply Hcs. eapply spread_In_children, Hp. }
  unfold share_in. repeat split; try assumption.
  rewrite Hw. unfold dice_k in *.
  destruct (Qeq_bool (value node) 0) eqn:E.
  - apply Qeq_bool_iff in E. destruct Hn as [_ Hn].
    assert (Hz : value (snd p) == 0) by lra. rewrite Hz. lra.
  - apply Qeq_bool_neq in E.
    assert (Hk' : (c - a) / value node == K).
    { rewrite H2. field. exact E. }
    rewrite Hk'. lra.
Qed.

Lemma shares_all a b c d node :
  share_in K a b c d node ->
  Forall (shared K) (preorder (positionNode n a b c d node)).
Proof. apply pass_all; [exact share_local | exact share_down]. Qed.
End Shares.

(** The pass keeps every node. *)
Lemma positionNode_size n node :
  forall a b c d,
    List.length (preorder (positionNode n a b c d node))
    = List.length (preorder node).
Proof.
  induction node as [node IH] using node_induction. intros a b c d.
  rewrite positionNode_eq.
  destruct node as [da de he va xa xb ya yb cs].
  cbn [preorder children data depth height value List.length] in *. f_equal.
  generalize (child_y0 n (mkNode da de he va xa xb ya yb cs)) as u.
  generalize (child_y1 n (mkNode da de he va xa xb ya yb cs)) as v.
  generalize (dice_k a c (mkNode da de he va xa xb ya yb cs)) as k.
  intros k v u. generalize a as x. clear a.
  induction IH as [|m l Hm Hl IHl]; intros x; cbn [spread map flat_map]; [reflexivity|].
  rewrite !length_app, Hm, IHl. reflexivity.
Qed.

(** The pass keeps children one level below their parent. *)
Lemma deep_all n a b c d node :
  Forall deep (preorder node) ->
  Forall deep (preorder (positionNode n a b c d node)).
Proof.
  apply (@pass_all n (fun _ _ _ _ m => Forall deep (preorder m)) deep).
  - clear. intros a b c d node H.
    apply Forall_preorder in H. destruct H as [Hd _].
    unfold deep in *. rewrite positionNode_eq. cbn [children depth].
    apply Forall_map. rewrite Forall_forall in *. intros p Hp.
    rewrite positionNode_depth. apply Hd. eapply spread_In_children, Hp.
  - clear. intros a b c d node H. now apply hereditary_children.
Qed.

(** *** The children as they are dealt out: every node's children
    start at its [x0], follow one another without a gap and each end at
    its start plus its value times the node's factor. *)

Lemma chained_ext (l : list Node) (lo lo' : Q) :
  lo == lo' -> chained lo l -> chained lo' l.
Proof.
  destruct l as [|m l]; cbn [chained]; [trivial|].
  intros E (A & B & C). repeat split; auto. lra.
Qed.

Lemma stepped_ext (k k' : Q) (cs : list Node) :
  k == k' -> stepped k cs -> stepped k' cs.
Proof.
  intros E H. unfold stepped in *. eapply Forall_impl; [|exact H].
  intros c Hc. cbn beta in *. rewrite Hc, E. reflexivity.
Qed.

Lemma dice_k_ext (a a' c c' : Q) (node node' : Node) :
  a == a' -> c == c' -> value node' = value node ->
  dice_k a' c' node' == dice_k a c node.
Proof.
  intros Ea Ec Ev. unfold dice_k. rewrite Ev.
  destruct (Qeq_bool (value node) 0); [reflexivity|].
  rewrite Ea, Ec. reflexivity.
Qed.

Lemma dealt_spread (n : nat) (k b d : Q) (cs : list Node) :
  0 <= k -> Forall (fun c => 0 <= value c) cs ->
  forall x,
    chained x (map (fun p => positionNode n (fst (fst p)) b (snd (fst p)) d (snd p))
                   (spread k x cs))
    /\ stepped k (map (fun p => positionNode n (fst (fst p)) b (snd (fst p)) d (snd p))
                      (spread k x cs)).
Proof.
  intros Hk Hcs. induction Hcs as [|c cs Hc Hcs IH]; intros x; cbn [spread map chained].
  - split; [trivial|constructor].
  - assert (Hck : 0 <= value c * k) by (apply Qmult_le_0_compat; assumption).
    assert (Hord : x <= x + value c * k) by lra.
    destruct (positionNode_x n b d c Hord) as [E0 E1].
    destruct (IH (x + value c * k)) as [IH1 IH2].
    cbn [fst snd]. split.
    + repeat split; try lra. eapply chained_ext; [|exact IH1]. lra.
    + constructor; [|exact IH2]. rewrite positionNode_value. lra.
Qed.

Lemma dealt_all n a b c d node :
  a <= c -> Forall nonneg (preorder node) ->
  Forall dealt (preorder (positionNode n a b c d node)).
Proof.
  intros Hac Hn.
  apply (@pass_all n (fun a _ c _ m => a <= c /\ Forall nonneg (preorder m)) dealt);
    [| |now split]; clear a b c d node Hac Hn.
  - intros a b c d node [Hac Hn]. unfold dealt, factor.
    destruct (positionNode_x n b d node Hac) as [E0 E1].
    assert (Hv : 0 <= value node).
    { apply Forall_preorder in Hn. apply Hn. }
    destruct (@dealt_spread n (dice_k a c node) (child_y0 n node) (child_y1 n node)
                (children node) (dice_k_nonneg node Hac Hv) (children_nonneg node Hn) a)
      as [C S].
    assert (Ec : children (positionNode n a b c d node)
                 = map (fun p => positionNode n (fst (fst p)) (child_y0 n node)
                                   (snd (fst p)) (child_y1 n node) (snd p))
                       (spread (dice_k a c node) a (children node)))
      by now rewrite positionNode_eq.
    rewrite Ec. split.
    + eapply chained_ext; [|exact C]. now symmetry.
    + eapply stepped_ext; [|exact S]. symmetry.
      apply dice_k_ext; [now symmetry|now symmetry|apply positionNode_value].
  - intros a b c d node [Hac Hn].
    assert (Hw : within a c a b c d node) by (unfold within; repeat split; auto; lra).
    pose proof (within_down n Hw) as Hd.
    rewrite Forall_forall in *. intros p Hp.
    destruct (Hd p Hp) as (_ & H2 & _ & H4). now split.
Qed.

(** What a chain says of the children one by one. *)
Lemma chained_head (lo : Q) (cs : list Node) (c : Node) :
  chained lo cs -> hd_error cs = Some c -> x0 c == lo.
Proof.
  destruct cs as [|m l]; cbn [chained hd_error]; [discriminate|].
  intros (A & _) E. injection E as <-. exact A.
Qed.

Lemma chained_lower (cs : list Node) :
  forall lo c, chained lo cs -> In c cs -> lo <= x0 c /\ x0 c <= x1 c.
Proof.
  induction cs as [|m l IH]; intros lo c; cbn [chained]; [intros _ []|].
  intros (A & B & C) [<-|Hc]; [split; lra|].
  destruct (IH (x1 m) c C Hc) as [L1 L2]. split; lra.
Qed.

Lemma chained_next (cs : list Node) :
  forall lo i c c',
    chained lo cs ->
    nth_error cs i = Some c -> nth_error cs (S i) = Some c' -> x1 c == x0 c'.
Proof.
  induction cs as [|m l IH]; intros lo i c c' H Hi Hj; [now destruct i|].
  cbn [chained] in H. destruct H as (A & B & C).
  destruct i as [|i]; cbn [nth_error] in Hi, Hj.
  - injection Hi as <-. symmetry. eapply chained_head; [exact C|].
    destruct l; [discriminate|exact Hj].
  - apply (IH (x1 m) i c c' C); [exact Hi|exact Hj].
Qed.

Lemma chained_order (cs : list Node) :
  forall lo i j c c',
    chained lo cs -> (i < j)%nat ->
    nth_error cs i = Some c -> nth_error cs j = Some c' -> x1 c <= x0 c'.
Proof.
  induction cs as [|m l IH]; intros lo i j c c' H Hij Hi Hj; [now destruct i|].
  cbn [chained] in H. destruct H as (A & B & C).
  destruct j as [|j]; [lia|]. cbn [nth_error] in Hj.
  destruct i as [|i]; cbn [nth_error] in Hi.
  - injection Hi as <-.
    destruct (@chained_lower l (x1 m) c' C (nth_error_In _ _ Hj)) as [L _]. exact L.
  - apply (IH (x1 m) i j c c' C); [lia|exact Hi|exact Hj].
Qed.

End PartitionFacts.

(** ** The stages before the partition *)

Module StageFacts.
Import D3 Invariants TreeFacts PartitionFacts.
Local Open Scope Q_scope.

Lemma Forall_raw_preorder (P : RawNode -> Prop) (r : RawNode) :
  Forall P (raw_preorder r) <->
  P r /\ Forall (fun c => Forall P (raw_preorder c)) (raw_children r).
Proof.
  destruct r as [a b cs]. cbn [raw_preorder raw_children].
  rewrite Forall_cons_iff, Forall_flat_map. reflexivity.
Qed.

(** A stage that rebuilds each node from its rebuilt children, possibly
    reordered: a hereditary condition on the input gives one on the
    output as soon as it does so node by node. *)
Section Stage.
Variable f : Node -> Node.
Variables P R : Node -> Prop.
Hypothesis children_f :
  forall n, Permutation (children (f n)) (map f (children n)).
Hypothesis local : forall n, Forall P (preorder n) -> R (f n).

Lemma stage_all (n : Node) :
  Forall P (preorder n) -> Forall R (preorder (f n)).
Proof.
  induction n as [n IH] using node_induction. intros H.
  apply Forall_preorder. split; [now apply local|].
  eapply Permutation_Forall; [symmetry; apply children_f|].
  apply Forall_map. apply Forall_preorder in H. destruct H as [_ H].
  rewrite Forall_forall in *. intros c Hc. apply IH; auto.
Qed.
End Stage.

Lemma total_perm (l l' : list Node) :
  Permutation l l' -> total l == total l'.
Proof.
  induction 1; simpl; lra.
Qed.

Lemma total_map (f : Node -> Node) (l : list Node) :
  (forall c, value (f c) == value c) -> total (map f l) == total l.
Proof.
  intros H. induction l as [|c l IH]; simpl; [reflexivity|].
  rewrite H, IH. reflexivity.
Qed.

(** *** [hierarchy] *)
Lemma hierarchy_children d r :
  children (hierarchy_from d r) = map (hierarchy_from (S d)) (raw_children r).
Proof. destruct r; reflexivity. Qed.

Lemma hierarchy_depth d r : depth (hierarchy_from d r) = d.
Proof. destruct r; reflexivity. Qed.

Lemma hierarchy_data_root d r : data (hierarchy_from d r) = r.
Proof. destruct r; reflexivity. Qed.

Lemma hierarchy_preorder r :
  forall d, map data (preorder (hierarchy_from d r)) = raw_preorder r.
Proof.
  induction r as [r IH] using raw_induction. intros d.
  destruct r as [nm v cs]. cbn [hierarchy_from preorder children map raw_preorder raw_children] in *.
  f_equal. rewrite flat_map_concat_map, concat_map, map_map, map_map.
  rewrite flat_map_concat_map. f_equal.
  apply map_ext_in. intros c Hc. rewrite Forall_forall in IH. now apply IH.
Qed.

Lemma hierarchy_mirror r :
  forall d, Forall (fun m => map data (children m) = raw_children (data m))
                   (preorder (hierarchy_from d r)).
Proof.
  induction r as [r IH] using raw_induction. intros d.
  apply Forall_preorder. split.
  - rewrite hierarchy_children, hierarchy_data_root, map_map.
    erewrite map_ext; [apply map_id|]. intros c. apply hierarchy_data_root.
  - rewrite hierarchy_children. apply Forall_map.
    rewrite Forall_forall in *. intros c Hc. now apply IH.
Qed.

Lemma hierarchy_deep r :
  forall d, Forall deep (preorder (hierarchy_from d r)).
Proof.
  induction r as [r IH] using raw_induction. intros d.
  apply Forall_preorder. split.
  - unfold deep. rewrite hierarchy_children, hierarchy_depth.
    apply Forall_map. apply Forall_forall. intros c _. apply hierarchy_depth.
  - rewrite hierarchy_children. apply Forall_map.
    rewrite Forall_forall in *. intros c Hc. now apply IH.
Qed.

Lemma raw_levels_eq r :
  raw_levels r = S (list_max (map raw_levels (raw_children r))).
Proof. destruct r; reflexivity. Qed.

Lemma list_max_succ (hs : list nat) :
  hs <> [] -> S (list_max hs) = list_max (map S hs).
Proof.
  induction hs as [|a hs IH]; [congruence|]. intros _.
  destruct hs as [|b hs].
  - simpl. lia.
  - change (list_max (a :: b :: hs)) with (Nat.max a (list_max (b :: hs))).
    change (list_max (map S (a :: b :: hs)))
      with (Nat.max (S a) (list_max (map S (b :: hs)))).
    rewrite <- IH by congruence. lia.
Qed.

Lemma hierarchy_height r :
  forall d, S (height (hierarchy_from d r)) = raw_levels r.
Proof.
  induction r as [r IH] using raw_induction. intros d.
  rewrite raw_levels_eq. f_equal.
  destruct r as [nm v cs]. cbn [hierarchy_from height raw_children] in *.
  assert (E : map raw_levels cs = map S (map height (map (hierarchy_from (S d)) cs))).
  { rewrite !map_map. apply map_ext_in. intros x Hx.
    rewrite Forall_forall in IH. symmetry. now apply IH. }
  rewrite E. unfold computeHeight.
  destruct (map (hierarchy_from (S d)) cs) as [|c l]; [reflexivity|].
  apply list_max_succ. discriminate.
Qed.

(** *** [sum] *)
Lemma sum_children size n :
  children (sum size n) = map (sum size) (children n).
Proof. destruct n; reflexivity. Qed.

Lemma sum_depth size n : depth (sum size n) = depth n.
Proof. destruct n; reflexivity. Qed.

Lemma sum_height size n : height (sum size n) = height n.
Proof. destruct n; reflexivity. Qed.

Lemma sum_data size n : data (sum size n) = data n.
Proof. destruct n; reflexivity. Qed.

Lemma fold_values (cs : list Node) (own : Q) :
  fold_left (fun s c => s + value c) (rev cs) own == own + total cs.
Proof.
  rewrite <- fold_left_rev_right, rev_involutive.
  induction cs as [|c cs IH]; simpl; [lra|]. rewrite IH. lra.
Qed.

Lemma sum_value size n :
  value (sum size n)
  == num_or_zero (size (data n)) + total (children (sum size n)).
Proof.
  destruct n as [da de he va xa xb ya yb cs].
  cbn [sum value data children]. apply fold_values.
Qed.

Lemma sum_value_nonneg size n :
  Forall (own_nonneg size) (preorder n) -> 0 <= value (sum size n).
Proof.
  induction n as [n IH] using node_induction. intros H.
  apply Forall_preorder in H. destruct H as [Hn Hc].
  rewrite sum_value, sum_children. unfold own_nonneg in Hn.
  assert (0 <= total (map (sum size) (children n))); [|lra].
  apply total_nonneg, Forall_map.
  rewrite Forall_forall in *. intros c Hin. apply IH; auto.
Qed.

Lemma sum_nonneg size n :
  Forall (own_nonneg size) (preorder n) ->
  Forall nonneg (preorder (sum size n)).
Proof.
  apply stage_all.
  - intros m. now rewrite sum_children.
  - intros m H. split; [now apply sum_value_nonneg|].
    rewrite sum_value. apply Forall_preorder in H. destruct H as [H _].
    unfold own_nonneg in H. lra.
Qed.

Lemma sum_deep size n :
  Forall deep (preorder n) -> Forall deep (preorder (sum size n)).
Proof.
  apply stage_all.
  - intros m. now rewrite sum_children.
  - intros m H. apply Forall_preorder in H. destruct H as [H _].
    unfold deep in *. rewrite sum_children, sum_depth.
    apply Forall_map. eapply Forall_impl; [|exact H].
    intros c Hc. now rewrite sum_depth.
Qed.

(** *** [sort] *)
Lemma sort_value cmp n : value (sort cmp n) = value n.
Proof. destruct n; reflexivity. Qed.

Lemma sort_depth cmp n : depth (sort cmp n) = depth n.
Proof. destruct n; reflexivity. Qed.

Lemma sort_height cmp n : height (sort cmp n) = height n.
Proof. destruct n; reflexivity. Qed.

Lemma sort_total cmp n :
  total (children (sort cmp n)) == total (children n).
Proof.
  rewrite (total_perm (sort_children cmp n)).
  apply total_map. intros c. now rewrite sort_value.
Qed.

Lemma sort_nonneg cmp n :
  Forall nonneg (preorder n) -> Forall nonneg (preorder (sort cmp n)).
Proof.
  apply stage_all; [apply sort_children|].
  intros m H. apply Forall_preorder in H. destruct H as [[H1 H2] _].
  split; rewrite ?sort_total, sort_value; assumption.
Qed.

Lemma sort_deep cmp n :
  Forall deep (preorder n) -> Forall deep (preorder (sort cmp n)).
Proof.
  apply stage_all; [apply sort_children|].
  intros m H. apply Forall_preorder in H. destruct H as [H _].
  unfold deep in *. rewrite sort_depth.
  eapply Permutation_Forall; [symmetry; apply sort_children|].
  apply Forall_map. eapply Forall_impl; [|exact H].
  intros c Hc. now rewrite sort_depth.
Qed.

End StageFacts.

Module LayoutFacts.
Import Invariants TreeFacts PartitionFacts StageFacts.
Local Open Scope Q_scope.

Lemma layout_eq state root :
  Sunburst.layout state root = D3.partition (Sunburst.prepared state root).
Proof. reflexivity. Qed.

Lemma parseData_layoutData state root :
  Sunburst.data state = Some root ->
  Sunburst.layoutData (Sunburst._parseData state)
  = Some (Sunburst.number_from 0 (D3.descendants (Sunburst.layout state root))).
Proof. intros H. unfold Sunburst._parseData. now rewrite H. Qed.

Lemma number_from_nodes (l : list D3.Node) :
  forall i, map Sunburst.node (Sunburst.number_from i l) = l.
Proof. induction l as [|d l IH]; intros i; simpl; [|rewrite IH]; reflexivity. Qed.

Lemma number_from_ids (l : list D3.Node) :
  forall i, map Sunburst.id (Sunburst.number_from i l) = seq i (List.length l).
Proof. induction l as [|d l IH]; intros i; simpl; [|rewrite IH]; reflexivity. Qed.

Lemma number_from_In (l : list D3.Node) (i : nat) (d : Sunburst.LayoutDatum) :
  In d (Sunburst.number_from i l) -> In (Sunburst.node d) l.
Proof.
  intros H. rewrite <- (number_from_nodes l i). now apply in_map.
Qed.

(** Every element of [layoutData] is a node of the laid-out tree. *)
Lemma layoutData_In state root d :
  In d (Sunburst.number_from 0 (D3.descendants (Sunburst.layout state root))) ->
  In (Sunburst.node d) (D3.preorder (Sunburst.layout state root)).
Proof.
  intros H. apply number_from_In in H.
  eapply Permutation_in; [apply descendants_perm|exact H].
Qed.

Lemma prepared_deep state root : Forall deep (D3.preorder (Sunburst.prepared state root)).
Proof.
  unfold Sunburst.prepared.
  destruct (Sunburst.sort state); [apply sort_deep|]; apply sum_deep, hierarchy_deep.
Qed.

Lemma prepared_depth state root : D3.depth (Sunburst.prepared state root) = 0%nat.
Proof.
  unfold Sunburst.prepared.
  destruct (Sunburst.sort state); rewrite ?sort_depth, sum_depth; apply hierarchy_depth.
Qed.

Lemma prepared_height state root :
  S (D3.height (Sunburst.prepared state root)) = raw_levels root.
Proof.
  unfold Sunburst.prepared.
  destruct (Sunburst.sort state); rewrite ?sort_height, sum_height;
    apply hierarchy_height.
Qed.

Lemma prepared_value state root :
  D3.value (Sunburst.prepared state root) = Sunburst.rootValue state root.
Proof.
  unfold Sunburst.prepared, Sunburst.rootValue.
  destruct (Sunburst.sort state); rewrite ?sort_value; reflexivity.
Qed.

Lemma hierarchy_own_nonneg state root :
  Sunburst.sizes_nonneg state root ->
  Forall (own_nonneg (Sunburst.size state)) (D3.preorder (D3.hierarchy root)).
Proof.
  unfold Sunburst.sizes_nonneg, D3.hierarchy. intros H.
  rewrite Forall_forall in *. intros m Hm. apply H.
  rewrite <- (hierarchy_preorder root 0). now apply in_map.
Qed.

Lemma prepared_nonneg state root :
  Sunburst.sizes_nonneg state root -> Forall nonneg (D3.preorder (Sunburst.prepared state root)).
Proof.
  intros H. unfold Sunburst.prepared.
  destruct (Sunburst.sort state); [apply sort_nonneg|];
    now apply sum_nonneg, hierarchy_own_nonneg.
Qed.

(** *** The laid-out tree *)

Lemma layout_bounded state root :
  Sunburst.sizes_nonneg state root ->
  Forall (bounded 0 1) (D3.preorder (Sunburst.layout state root)).
Proof.
  intros H. rewrite layout_eq. unfold D3.partition.
  apply bounds_all. unfold within, D3.padding, D3.dx.
  repeat split; try lra. now apply prepared_nonneg.
Qed.

Lemma layout_shared state root :
  Sunburst.sizes_nonneg state root ->
  ~ Sunburst.rootValue state root == 0 ->
  Forall (shared (1 / Sunburst.rootValue state root))
         (D3.preorder (Sunburst.layout state root)).
Proof.
  intros H Hv. rewrite layout_eq. unfold D3.partition.
  apply shares_all. unfold share_in, D3.padding, D3.dx.
  repeat split; try lra; [|now apply prepared_nonneg].
  rewrite prepared_value. field. exact Hv.
Qed.

Lemma layout_banded state root :
  Forall (banded (D3.height (Sunburst.prepared state root)))
         (D3.preorder (Sunburst.layout state root)).
Proof.
  rewrite layout_eq. unfold D3.partition.
  apply bands_all. unfold band_in, D3.padding, D3.dy.
  rewrite prepared_depth. split; [|split].
  - symmetry. apply Qmult_0_l.
  - reflexivity.
  - apply prepared_deep.
Qed.

Lemma layout_deep state root :
  Forall deep (D3.preorder (Sunburst.layout state root)).
Proof. rewrite layout_eq. apply deep_all, prepared_deep. Qed.

Lemma layout_depth state root : D3.depth (Sunburst.layout state root) = 0%nat.
Proof.
  rewrite layout_eq. unfold D3.partition.
  rewrite positionNode_depth. apply prepared_depth.
Qed.

Lemma layout_dealt state root :
  Sunburst.sizes_nonneg state root ->
  Forall dealt (D3.preorder (Sunburst.layout state root)).
Proof.
  intros H. rewrite layout_eq. unfold D3.partition.
  apply dealt_all; [unfold D3.padding, D3.dx; lra|].
  now apply prepared_nonneg.
Qed.

Lemma layout_root state root :
  D3.x0 (Sunburst.layout state root) == 0 /\ D3.x1 (Sunburst.layout state root) == 1.
Proof.
  rewrite layout_eq. unfold D3.partition.
  apply positionNode_x. unfold D3.padding, D3.dx. lra.
Qed.

End LayoutFacts.

Module OrderFacts.
Import D3 Invariants TreeFacts PartitionFacts StageFacts LayoutFacts.
Local Open Scope Q_scope.

Lemma preorder_eq (n : Node) :
  preorder n = n :: flat_map preorder (children n).
Proof. destruct n; reflexivity. Qed.

Lemma level_depth (k : nat) :
  forall t m, Forall deep (preorder t) -> In m (level k t) ->
              depth m = (depth t + k)%nat.
Proof.
  induction k as [|k IH]; intros t m Hd Hin; simpl in Hin.
  - destruct Hin as [<-|[]]. lia.
  - apply in_flat_map in Hin. destruct Hin as (c & Hc & Hm).
    apply Forall_preorder in Hd. destruct Hd as [Hd Hcs]. unfold deep in Hd.
    rewrite Forall_forall in Hd, Hcs.
    rewrite (IH c m (Hcs c Hc) Hm), (Hd c Hc). lia.
Qed.

Lemma preorder_level (t : Node) :
  forall m, In m (preorder t) -> exists k, In m (level k t).
Proof.
  induction t as [t IH] using node_induction. intros m Hin.
  rewrite preorder_eq in Hin. destruct Hin as [<-|Hin].
  - exists 0%nat. now left.
  - apply in_flat_map in Hin. destruct Hin as (c & Hc & Hm).
    rewrite Forall_forall in IH. destruct (IH c Hc m Hm) as [k Hk].
    exists (S k). cbn [level]. apply in_flat_map. now exists c.
Qed.

(** Breadth-first order is level order. *)
Lemma each_levels_level_order (fuel : nat) :
  forall l, each_levels fuel l
            = concat (map (fun k => flat_map (level k) l) (seq 0 fuel)).
Proof.
  induction fuel as [|fuel IH]; intros l; [reflexivity|].
  cbn [each_levels seq map concat].
  assert (E0 : flat_map (level 0) l = l).
  { clear. induction l as [|t l IHl]; [reflexivity|].
    cbn [flat_map level app]. f_equal. exact IHl. }
  assert (E1 : map (fun k => flat_map (level k) l) (seq 1 fuel)
               = map (fun k => flat_map (level k) (flat_map children l)) (seq 0 fuel)).
  { rewrite <- seq_shift, map_map. apply map_ext. intros k.
    clear. induction l as [|t l IHl]; [reflexivity|].
    cbn [flat_map level]. rewrite flat_map_app. f_equal. exact IHl. }
  rewrite E0, E1, <- IH.
  destruct l as [|t l]; [|reflexivity].
  simpl. clear. destruct fuel; reflexivity.
Qed.

Lemma descendants_level_order (t : Node) :
  descendants t = concat (map (fun k => level k t) (seq 0 (levels t))).
Proof.
  unfold descendants. rewrite each_levels_level_order.
  f_equal. apply map_ext. intros k. simpl. apply app_nil_r.
Qed.

Lemma descendants_head (t : Node) :
  exists rest, descendants t = t :: rest.
Proof.
  unfold descendants. rewrite levels_eq. simpl. eauto.
Qed.

(** No stage adds or drops a node. *)
Lemma stage_size (f : Node -> Node) :
  (forall n, Permutation (children (f n)) (map f (children n))) ->
  forall n, List.length (preorder (f n)) = List.length (preorder n).
Proof.
  intros Hf. induction n as [n IH] using node_induction.
  rewrite !preorder_eq. cbn [List.length]. f_equal.
  rewrite (Permutation_length (Permutation_flat_map preorder (Hf n))).
  induction IH as [|c cs Hc Hcs IHcs]; simpl; [reflexivity|].
  rewrite !length_app, Hc, IHcs. reflexivity.
Qed.

Lemma layout_size state root :
  List.length (preorder (Sunburst.layout state root))
  = List.length (raw_preorder root).
Proof.
  rewrite layout_eq. unfold partition. rewrite positionNode_size.
  unfold Sunburst.prepared.
  assert (E : List.length (preorder (sum (Sunburst.size state) (hierarchy root)))
              = List.length (raw_preorder root)).
  { rewrite stage_size by (intros m; now rewrite sum_children).
    unfold hierarchy. rewrite <- (hierarchy_preorder root 0). now rewrite length_map. }
  destruct (Sunburst.sort state); [|exact E].
  rewrite stage_size by apply sort_children. exact E.
Qed.

End OrderFacts.

Module Layout.
Import Invariants TreeFacts PartitionFacts StageFacts LayoutFacts OrderFacts.
Local Open Scope Q_scope.

Lemma layout_default (w h : R) (d : option RawNode) (root : RawNode) :
  Sunburst.layout (Sunburst.init w h d) root
  = D3.partition (D3.sum raw_value (D3.hierarchy root)).
Proof. reflexivity. Qed.

Lemma parseData_default (w h : R) (root : RawNode) :
  Sunburst.layoutData (Sunburst._parseData (Sunburst.init w h (Some root)))
  = Some (Sunburst.number_from 0
            (D3.descendants (D3.partition (D3.sum raw_value (D3.hierarchy root))))).
Proof. reflexivity. Qed.

(** C1 (layout of [A{0} -> [B{10}, C{30}]]; the domain of [x0], [x1]).
    The partition runs with d3's default size 1 by 1, so a span is a share
    of the root's span and not a value: the scenario tree is laid out as
    B = [0, 1/4], C = [1/4, 1], A = [0, 1].  For every tree the root
    spans [0, 1], whatever its value; and when no size is negative, every
    node of [layoutData] has [0 <= x0 <= x1] and its children are dealt
    out cumulatively from its [x0]: the first child starts there, each
    next one where the one before it ends, and each child ends at its
    start plus its value times the node's factor
    [(x1 - x0) / value] (0 when the node's value is 0). *)
Theorem layout_spans_normalised :
  (forall w h, exists a b c,
      Sunburst.layoutData (Sunburst._parseData (Sunburst.init w h (Some Sample.abc)))
      = Some [a; b; c]
      /\ map Sunburst.raw_name_of [a; b; c] = ["A"; "B"; "C"]%string
      /\ D3.x0 (Sunburst.node b) == 0 /\ D3.x1 (Sunburst.node b) == 1 # 4
      /\ D3.x0 (Sunburst.node c) == 1 # 4 /\ D3.x1 (Sunburst.node c) == 1
      /\ D3.x0 (Sunburst.node a) == 0 /\ D3.x1 (Sunburst.node a) == 1)
  /\
  (forall state root,
      Sunburst.data state = Some root ->
      Sunburst.sizes_nonneg state root ->
      exists ld,
        Sunburst.layoutData (Sunburst._parseData state) = Some ld
        /\ D3.x0 (Sunburst.layout state root) == 0
        /\ D3.x1 (Sunburst.layout state root) == 1
        /\ forall d, In d ld ->
             0 <= D3.x0 (Sunburst.node d)
             /\ D3.x0 (Sunburst.node d) <= D3.x1 (Sunburst.node d)
             /\ chained (D3.x0 (Sunburst.node d)) (D3.children (Sunburst.node d))
             /\ Forall (fun c => D3.x1 c
                                 == D3.x0 c + D3.value c * factor (Sunburst.node d))
                       (D3.children (Sunburst.node d))).
Proof.
  split.
  - intros w h. rewrite parseData_default.
    eexists _, _, _. split; [vm_compute; reflexivity|].
    vm_compute. repeat split; intros; discriminate.
  - intros state root Hd Hs. eexists. split; [exact (@parseData_layoutData state root Hd)|].
    destruct (layout_root state root) as [R0 R1].
    split; [exact R0|]. split; [exact R1|].
    intros d Hin. apply layoutData_In in Hin.
    pose proof (@layout_bounded state root Hs) as Hb.
    rewrite Forall_forall in Hb. destruct (Hb _ Hin) as (B1 & B2 & _).
    pose proof (@layout_dealt state root Hs) as Hc.
    rewrite Forall_forall in Hc. destruct (Hc _ Hin) as [C S].
    repeat split; assumption.
Qed.

Lemma abc_sizes_nonneg (w h : R) :
  Sunburst.sizes_nonneg (Sunburst.init w h (Some Sample.abc)) Sample.abc.
Proof.
  unfold Sunburst.sizes_nonneg. simpl. repeat constructor; simpl; discriminate.
Defined.

Lemma abc_rootValue (w h : R) :
  ~ Sunburst.rootValue (Sunburst.init w h (Some Sample.abc)) Sample.abc == 0.
Proof. vm_compute. discriminate. Defined.

Lemma layout_spans_normalised_witness :
  exists ld,
    Sunburst.layoutData
      (Sunburst._parseData (Sunburst.init 800 600 (Some Sample.abc))) = Some ld
    /\ D3.x0 (Sunburst.layout (Sunburst.init 800 600 (Some Sample.abc)) Sample.abc) == 0
    /\ D3.x1 (Sunburst.layout (Sunburst.init 800 600 (Some Sample.abc)) Sample.abc) == 1
    /\ forall d, In d ld ->
         0 <= D3.x0 (Sunburst.node d)
         /\ D3.x0 (Sunburst.node d) <= D3.x1 (Sunburst.node d)
         /\ chained (D3.x0 (Sunburst.node d)) (D3.children (Sunburst.node d))
         /\ Forall (fun c => D3.x1 c
                             == D3.x0 c + D3.value c * factor (Sunburst.node d))
                   (D3.children (Sunburst.node d)).
Proof.
  apply (proj2 layout_spans_normalised
               (Sunburst.init 800 600 (Some Sample.abc)) Sample.abc).
  - reflexivity.
  - apply abc_sizes_nonneg.
Defined.

(** C1 with spans in value units fails on the scenario tree: [B.x1] is
    not 10, [C.x0] is not 10, [C.x1] and [A.x1] are not 40. *)
Lemma layout_spans_not_value_units :
  exists a b c,
    Sunburst.layoutData
      (Sunburst._parseData (Sunburst.init 800 600 (Some Sample.abc)))
    = Some [a; b; c]
    /\ map Sunburst.raw_name_of [a; b; c] = ["A"; "B"; "C"]%string
    /\ ~ D3.x1 (Sunburst.node b) == 10
    /\ ~ D3.x0 (Sunburst.node c) == 10
    /\ ~ D3.x1 (Sunburst.node c) == 40
    /\ ~ D3.x1 (Sunburst.node a) == 40.
Proof.
  rewrite parseData_default.
  eexists _, _, _. split; [vm_compute; reflexivity|].
  vm_compute. repeat split; intros; discriminate.
Qed.

(** C2 (children and their parent's interval).  When no size is
    negative, the children of every node of [layoutData] lie side by side
    in traversal order: the first starts at the node's [x0], each next one
    starts where the one before it ends, none runs backwards, so none
    starts before the node's [x0] and an earlier child ends before a later
    one starts.  Where the last child ends is not part of it: the children
    need not fill the node's interval. *)
Theorem children_follow_one_another :
  forall state root,
    Sunburst.data state = Some root ->
    Sunburst.sizes_nonneg state root ->
    exists ld,
      Sunburst.layoutData (Sunburst._parseData state) = Some ld
      /\ forall d, In d ld ->
           (forall c, hd_error (D3.children (Sunburst.node d)) = Some c ->
                      D3.x0 c == D3.x0 (Sunburst.node d))
           /\ (forall i c c',
                  nth_error (D3.children (Sunburst.node d)) i = Some c ->
                  nth_error (D3.children (Sunburst.node d)) (S i) = Some c' ->
                  D3.x1 c == D3.x0 c')
           /\ (forall c, In c (D3.children (Sunburst.node d)) ->
                         D3.x0 (Sunburst.node d) <= D3.x0 c /\ D3.x0 c <= D3.x1 c)
           /\ (forall i j c c',
                  (i < j)%nat ->
                  nth_error (D3.children (Sunburst.node d)) i = Some c ->
                  nth_error (D3.children (Sunburst.node d)) j = Some c' ->
                  D3.x1 c <= D3.x0 c').
Proof.
  intros state root Hd Hs.
  eexists. split; [exact (@parseData_layoutData state root Hd)|].
  intros d Hin. apply layoutData_In in Hin.
  pose proof (@layout_dealt state root Hs) as Hc.
  rewrite Forall_forall in Hc. destruct (Hc _ Hin) as [C _].
  split; [|split; [|split]].
  - intros c Hc0. exact (chained_head _ _ C Hc0).
  - intros i c c' Hi Hj. exact (@chained_next _ _ i c c' C Hi Hj).
  - intros c Hc0. exact (@chained_lower _ _ c C Hc0).
  - intros i j c c' Hij Hi Hj. exact (@chained_order _ _ i j c c' C Hij Hi Hj).
Qed.

Lemma children_follow_one_another_witness :
  exists ld,
    Sunburst.layoutData
      (Sunburst._parseData (Sunburst.init 800 600 (Some Sample.abc))) = Some ld
    /\ forall d, In d ld ->
         (forall c, hd_error (D3.children (Sunburst.node d)) = Some c ->
                    D3.x0 c == D3.x0 (Sunburst.node d))
         /\ (forall i c c',
                nth_error (D3.children (Sunburst.node d)) i = Some c ->
                nth_error (D3.children (Sunburst.node d)) (S i) = Some c' ->
                D3.x1 c == D3.x0 c')
         /\ (forall c, In c (D3.children (Sunburst.node d)) ->
                       D3.x0 (Sunburst.node d) <= D3.x0 c /\ D3.x0 c <= D3.x1 c)
         /\ (forall i j c c',
                (i < j)%nat ->
                nth_error (D3.children (Sunburst.node d)) i = Some c ->
                nth_error (D3.children (Sunburst.node d)) j = Some c' ->
                D3.x1 c <= D3.x0 c').
Proof.
  apply (@children_follow_one_another
           (Sunburst.init 800 600 (Some Sample.abc)) Sample.abc).
  - reflexivity.
  - apply abc_sizes_nonneg.
Defined.

(** C2 as the specification words it fails: in [A{10} -> [B{10}]] the
    root spans 1 and its only child 1/2, because [sum] counts the root's
    own size; the child does not fill its parent's interval. *)
Lemma heavy_parent_not_partitioned :
  exists a b,
    Sunburst.layoutData
      (Sunburst._parseData (Sunburst.init 800 600 (Some Sample.heavy_parent)))
    = Some [a; b]
    /\ D3.children (Sunburst.node a) = [Sunburst.node b]
    /\ D3.span (Sunburst.node a) == 1
    /\ D3.spans (D3.children (Sunburst.node a)) == 1 # 2
    /\ ~ D3.partitioned (Sunburst.node a).
Proof.
  rewrite parseData_default.
  eexists _, _. split; [vm_compute; reflexivity|].
  split; [vm_compute; reflexivity|].
  split; [vm_compute; reflexivity|].
  split; [vm_compute; reflexivity|].
  intros [_ H]. vm_compute in H. discriminate H.
Qed.

(** C3 (ids of [layoutData]).  After [_parseData] with data present,
    [layoutData] carries the ids 0 .. N-1, N the number of raw nodes, each
    once, in the order of [descendants]: level by level from the root,
    left to right within a level (breadth-first), the root first with id
    0.  The list holds exactly the nodes of the laid-out tree. *)
Theorem ids_follow_level_order :
  forall state root,
    Sunburst.data state = Some root ->
    exists ld,
      Sunburst.layoutData (Sunburst._parseData state) = Some ld
      /\ map Sunburst.id ld = seq 0 (List.length (raw_preorder root))
      /\ NoDup (map Sunburst.id ld)
      /\ map Sunburst.node ld
         = concat (map (fun k => D3.level k (Sunburst.layout state root))
                       (seq 0 (D3.levels (Sunburst.layout state root))))
      /\ Permutation (map Sunburst.node ld)
                     (D3.preorder (Sunburst.layout state root))
      /\ exists rest, ld = Sunburst.mkDatum 0 (Sunburst.layout state root) :: rest.
Proof.
  intros state root Hd.
  eexists. split; [exact (@parseData_layoutData state root Hd)|].
  rewrite number_from_ids, number_from_nodes.
  assert (El : List.length (D3.descendants (Sunburst.layout state root))
               = List.length (raw_preorder root)).
  { rewrite (Permutation_length (descendants_perm _)). apply layout_size. }
  rewrite El. repeat split.
  - apply seq_NoDup.
  - apply descendants_level_order.
  - apply descendants_perm.
  - destruct (descendants_head (Sunburst.layout state root)) as [rest E].
    rewrite E. simpl. eauto.
Qed.

Lemma ids_follow_level_order_witness :
  exists ld,
    Sunburst.layoutData
      (Sunburst._parseData (Sunburst.init 800 600 (Some Sample.nested))) = Some ld
    /\ map Sunburst.id ld = seq 0 (List.length (raw_preorder Sample.nested))
    /\ NoDup (map Sunburst.id ld)
    /\ map Sunburst.node ld
       = concat (map (fun k => D3.level k
                        (Sunburst.layout (Sunburst.init 800 600 (Some Sample.nested))
                                         Sample.nested))
                     (seq 0 (D3.levels
                        (Sunburst.layout (Sunburst.init 800 600 (Some Sample.nested))
                                         Sample.nested))))
    /\ Permutation (map Sunburst.node ld)
                   (D3.preorder
                      (Sunburst.layout (Sunburst.init 800 600 (Some Sample.nested))
                                       Sample.nested))
    /\ exists rest,
        ld = Sunburst.mkDatum 0
               (Sunburst.layout (Sunburst.init 800 600 (Some Sample.nested))
                                Sample.nested) :: rest.
Proof.
  apply (@ids_follow_level_order
           (Sunburst.init 800 600 (Some Sample.nested)) Sample.nested).
  reflexivity.
Defined.

(** C3 with pre-order ids fails: in [A -> [B -> [D, E], C]] node [C]
    gets id 2 and [D] id 3, while pre-order visits A, B, D, E, C. *)
Lemma ids_not_in_preorder :
  exists ld,
    Sunburst.layoutData
      (Sunburst._parseData (Sunburst.init 800 600 (Some Sample.nested))) = Some ld
    /\ map (fun d => (Sunburst.raw_name_of d, Sunburst.id d)) ld
       = [("A", 0); ("B", 1); ("C", 2); ("D", 3); ("E", 4)]%string%nat
    /\ map (fun n => raw_name (D3.data n))
           (D3.preorder (Sunburst.layout (Sunburst.init 800 600 (Some Sample.nested))
                                         Sample.nested))
       = ["A"; "B"; "D"; "E"; "C"]%string
    /\ map Sunburst.node ld
       <> D3.preorder (Sunburst.layout (Sunburst.init 800 600 (Some Sample.nested))
                                       Sample.nested).
Proof.
  rewrite parseData_default, layout_default.
  eexists. split; [reflexivity|].
  split; [vm_compute; reflexivity|].
  split; [vm_compute; reflexivity|].
  intros E.
  apply (f_equal (map (fun n => raw_name (D3.data n)))) in E.
  vm_compute in E. discriminate E.
Qed.

(** C4 (depth bands).  Every node of [layoutData] sits at the level of
    the tree that its [depth] field says, and its band is that level's
    share of the unit interval: [y0 = depth / levels] and
    [y1 = (depth + 1) / levels], where [levels] is the number of levels of
    the tree (the root's height plus one). *)
Theorem depth_bands :
  forall state root,
    Sunburst.data state = Some root ->
    exists ld,
      Sunburst.layoutData (Sunburst._parseData state) = Some ld
      /\ forall d, In d ld ->
           In (Sunburst.node d)
              (D3.level (D3.depth (Sunburst.node d)) (Sunburst.layout state root))
           /\ D3.y0 (Sunburst.node d)
              == D3.of_nat (D3.depth (Sunburst.node d)) / D3.of_nat (raw_levels root)
           /\ D3.y1 (Sunburst.node d)
              == D3.of_nat (D3.depth (Sunburst.node d) + 1)
                 / D3.of_nat (raw_levels root).
Proof.
  intros state root Hd.
  eexists. split; [exact (@parseData_layoutData state root Hd)|].
  intros d Hin. apply layoutData_In in Hin.
  pose proof (layout_banded state root) as Hb.
  rewrite Forall_forall in Hb. destruct (Hb _ Hin) as [B0 B1].
  rewrite <- (prepared_height state root).
  split; [|split].
  - destruct (@preorder_level _ _ Hin) as [k Hk].
    pose proof (@level_depth k _ _ (layout_deep state root) Hk) as E.
    rewrite layout_depth in E. simpl in E. now rewrite E.
  - exact B0.
  - exact B1.
Qed.

Lemma depth_bands_witness :
  exists ld,
    Sunburst.layoutData
      (Sunburst._parseData (Sunburst.init 800 600 (Some Sample.abc))) = Some ld
    /\ forall d, In d ld ->
         In (Sunburst.node d)
            (D3.level (D3.depth (Sunburst.node d))
                      (Sunburst.layout (Sunburst.init 800 600 (Some Sample.abc))
                                       Sample.abc))
         /\ D3.y0 (Sunburst.node d)
            == D3.of_nat (D3.depth (Sunburst.node d)) / D3.of_nat (raw_levels Sample.abc)
         /\ D3.y1 (Sunburst.node d)
            == D3.of_nat (D3.depth (Sunburst.node d) + 1)
               / D3.of_nat (raw_levels Sample.abc).
Proof.
  apply (@depth_bands (Sunburst.init 800 600 (Some Sample.abc)) Sample.abc).
  reflexivity.
Defined.

(** C4 with unit bands fails on the scenario tree, which has two levels:
    the root's band is 1/2 deep and [B], at depth 1, has [y0 = 1/2]. *)
Lemma depth_bands_not_unit :
  exists a b c,
    Sunburst.layoutData
      (Sunburst._parseData (Sunburst.init 800 600 (Some Sample.abc)))
    = Some [a; b; c]
    /\ D3.depth (Sunburst.node b) = 1%nat
    /\ ~ D3.y0 (Sunburst.node b) == 1
    /\ ~ D3.y1 (Sunburst.node a) - D3.y0 (Sunburst.node a) == 1.
Proof.
  rewrite parseData_default.
  eexists _, _, _. split; [vm_compute; reflexivity|].
  vm_compute. repeat split; intros; discriminate.
Qed.

End Layout.

Module ScaleFacts.
Import Scale.
Local Open Scope R_scope.

Lemma interpolateNumber_0 (a b : R) : interpolateNumber a b 0 = a.
Proof. unfold interpolateNumber. ring. Qed.

Lemma interpolateNumber_1 (a b : R) : interpolateNumber a b 1 = b.
Proof. unfold interpolateNumber. ring. Qed.

Lemma interpolate_0 (a b : R * R) : interpolate a b 0 = a.
Proof.
  unfold interpolate. rewrite !interpolateNumber_0. now destruct a.
Qed.

Lemma interpolate_1 (a b : R * R) : interpolate a b 1 = b.
Proof.
  unfold interpolate. rewrite !interpolateNumber_1. now destruct b.
Qed.

Lemma raise_nonneg (x : R) : 0 <= x -> raise x = sqrt x.
Proof.
  intros H. unfold raise. destruct (Rlt_dec x 0); [lra|reflexivity].
Qed.

Lemma raise_lt (a b : R) : 0 <= a -> a < b -> raise a < raise b.
Proof.
  intros Ha Hab. rewrite !raise_nonneg by lra. apply sqrt_lt_1; lra.
Qed.

(** A [scaleSqrt] maps the start of a proper domain to the start of its
    range, and the end to the end. *)
Lemma sqrt_scale_min (d0 d1 r0 r1 : R) :
  d0 < d1 -> sqrt_scale (mk (d0, d1) (r0, r1)) d0 = r0.
Proof.
  intros H. unfold sqrt_scale, apply. cbn [domain range].
  destruct (Rlt_dec d1 d0); [lra|].
  unfold deinterpolate. destruct (Req_dec_T (raise d1 - raise d0) 0).
  - apply interpolateNumber_0.
  - replace ((raise d0 - raise d0) / (raise d1 - raise d0)) with 0 by (field; lra).
    apply interpolateNumber_0.
Qed.

Lemma sqrt_scale_max (d0 d1 r0 r1 : R) :
  0 <= d0 -> d0 < d1 -> sqrt_scale (mk (d0, d1) (r0, r1)) d1 = r1.
Proof.
  intros H0 H. unfold sqrt_scale, apply. cbn [domain range].
  destruct (Rlt_dec d1 d0); [lra|].
  pose proof (raise_lt H0 H) as Hr.
  unfold deinterpolate. destruct (Req_dec_T (raise d1 - raise d0) 0); [lra|].
  replace ((raise d1 - raise d0) / (raise d1 - raise d0)) with 1 by (field; lra).
  apply interpolateNumber_1.
Qed.

(** A clamped linear scale at the two ends of a proper domain. *)
Lemma linear_clamped_min (d0 d1 r0 r1 : R) :
  d0 < d1 -> linear_clamped (mk (d0, d1) (r0, r1)) d0 = r0.
Proof.
  intros H. unfold linear_clamped, apply. cbn [domain range].
  destruct (Rlt_dec d1 d0); [lra|].
  unfold deinterpolateClamp. destruct (Rle_dec d0 d0); [|lra].
  apply interpolateNumber_0.
Qed.

Lemma linear_clamped_max (d0 d1 r0 r1 : R) :
  d0 < d1 -> linear_clamped (mk (d0, d1) (r0, r1)) d1 = r1.
Proof.
  intros H. unfold linear_clamped, apply. cbn [domain range].
  destruct (Rlt_dec d1 d0); [lra|].
  unfold deinterpolateClamp. destruct (Rle_dec d1 d0); [lra|].
  destruct (Rle_dec d1 d1); [|lra].
  apply interpolateNumber_1.
Qed.

Lemma PI_gt_3 : 3 < PI.
Proof. pose proof PI2_3_2. unfold PI2 in *. lra. Qed.

(** *** The square-root scale is monotone *)

Lemma interpolateNumber_mono (a b t u : R) :
  a <= b -> t <= u -> interpolateNumber a b t <= interpolateNumber a b u.
Proof. intros H1 H2. unfold interpolateNumber. nra. Qed.

Lemma raise_lt_all (x y : R) : x < y -> raise x < raise y.
Proof.
  intros H. unfold raise.
  destruct (Rlt_dec x 0) as [Hx|Hx], (Rlt_dec y 0) as [Hy|Hy].
  - apply Ropp_lt_contravar. apply sqrt_lt_1_alt. lra.
  - assert (0 < sqrt (- x)) by (apply sqrt_lt_R0; lra).
    pose proof (sqrt_pos y). lra.
  - lra.
  - apply sqrt_lt_1_alt. lra.
Qed.

Lemma raise_le (x y : R) : x <= y -> raise x <= raise y.
Proof.
  intros [H| ->]; [apply Rlt_le, raise_lt_all, H|lra].
Qed.

Lemma sqrt_scale_eq (d0 d1 r0 r1 x : R) :
  d0 < d1 ->
  sqrt_scale (mk (d0, d1) (r0, r1)) x
  = interpolateNumber r0 r1 ((raise x - raise d0) / (raise d1 - raise d0)).
Proof.
  intros H. unfold sqrt_scale, apply. cbn [domain range].
  destruct (Rlt_dec d1 d0); [lra|].
  pose proof (raise_lt_all H).
  unfold deinterpolate. destruct (Req_dec_T (raise d1 - raise d0) 0); [lra|].
  reflexivity.
Qed.

Lemma sqrt_scale_mono (d0 d1 r0 r1 x y : R) :
  d0 < d1 -> r0 <= r1 -> x <= y ->
  sqrt_scale (mk (d0, d1) (r0, r1)) x <= sqrt_scale (mk (d0, d1) (r0, r1)) y.
Proof.
  intros H Hr Hxy. rewrite !sqrt_scale_eq by exact H.
  apply interpolateNumber_mono; [exact Hr|].
  pose proof (raise_lt_all H). pose proof (raise_le Hxy).
  apply Rmult_le_compat_r; [|lra].
  apply Rlt_le, Rinv_0_lt_compat. lra.
Qed.

Lemma sqrt_scale_start (d0 d1 r0 r1 : R) :
  d0 < d1 -> sqrt_scale (mk (d0, d1) (r0, r1)) d0 = r0.
Proof. apply sqrt_scale_min. Qed.

Lemma sqrt_scale_end (d0 d1 r0 r1 : R) :
  d0 < d1 -> sqrt_scale (mk (d0, d1) (r0, r1)) d1 = r1.
Proof.
  intros H. rewrite sqrt_scale_eq by exact H. pose proof (raise_lt_all H).
  replace ((raise d1 - raise d0) / (raise d1 - raise d0)) with 1 by (field; lra).
  apply interpolateNumber_1.
Qed.

Lemma sqrt_quarter : sqrt (/ 4) = (/ 2)%R.
Proof. apply sqrt_lem_1; lra. Qed.

End ScaleFacts.

Module Render.
Import ScaleFacts.
Local Open Scope Q_scope.

(** *** The visibility filter *)

Lemma js_gt_div (w s c : Q) :
  0 <= s ->
  Sunburst.js_gt (Sunburst.js_div w s) c = true <-> c * s < w.
Proof.
  intros Hs. unfold Sunburst.js_div.
  destruct (Qeq_bool s 0) eqn:E.
  - apply Qeq_bool_iff in E.
    destruct (Qlt_le_dec 0 w) as [Hw|Hw]; simpl.
    + split; [intros _; rewrite E; lra|reflexivity].
    + destruct (Qlt_le_dec w 0); simpl;
        (split; [discriminate|intros H; rewrite E in H; lra]).
  - apply Qeq_bool_neq in E. assert (Hpos : 0 < s) by lra.
    assert (Hq : w / s * s == w) by (field; exact E).
    simpl. destruct (Qlt_le_dec c (w / s)) as [H|H].
    + split; [intros _|reflexivity].
      apply (Qmult_lt_r _ _ s Hpos) in H. lra.
    + split; [discriminate|]. intros Hc. exfalso.
      apply (Qmult_le_r _ _ s Hpos) in H. lra.
Qed.

Lemma visible_iff (m : Q) (f : Sunburst.Focus) (d : Sunburst.LayoutDatum) :
  Sunburst.fx0 f <= Sunburst.fx1 f ->
  Sunburst.visible m f d = true <->
  Sunburst.overlaps f d
  /\ m / 360 * (Sunburst.fx1 f - Sunburst.fx0 f)
     < D3.x1 (Sunburst.node d) - D3.x0 (Sunburst.node d).
Proof.
  intros Hf. unfold Sunburst.visible, Sunburst.overlaps.
  rewrite !andb_true_iff, !Qle_bool_iff, js_gt_div by lra. tauto.
Qed.

(** C5 (the two extremes of [minSliceAngle]).  For a focus window that
    does not run backwards: with [minSliceAngle] 0 a node passes the
    filter exactly when it overlaps the window and its span is wider than
    nothing (a node of width 0 never passes).  With [minSliceAngle] 100 a
    node passes only if it overlaps the window; a node that takes up at
    most a quarter of the window (90 degrees of the circle) does not
    pass, and an overlapping node that takes up at least a third of a
    window of positive width (120 degrees) passes, whether it is the
    focused node or not. *)
Theorem min_slice_angle_extremes :
  forall state d,
    Sunburst.fx0 (Sunburst.focusD state) <= Sunburst.fx1 (Sunburst.focusD state) ->
    (Sunburst.minSliceAngle state == 0 ->
     (Sunburst.visible (Sunburst.minSliceAngle state) (Sunburst.focusD state) d = true
      <-> Sunburst.overlaps (Sunburst.focusD state) d
          /\ D3.x0 (Sunburst.node d) < D3.x1 (Sunburst.node d)))
    /\ (Sunburst.minSliceAngle state == 100 ->
        (Sunburst.visible (Sunburst.minSliceAngle state) (Sunburst.focusD state) d = true
         -> Sunburst.overlaps (Sunburst.focusD state) d)
        /\ (4 * (D3.x1 (Sunburst.node d) - D3.x0 (Sunburst.node d))
            <= Sunburst.fx1 (Sunburst.focusD state) - Sunburst.fx0 (Sunburst.focusD state)
            -> Sunburst.visible (Sunburst.minSliceAngle state) (Sunburst.focusD state) d
               = false)
        /\ (Sunburst.overlaps (Sunburst.focusD state) d ->
            Sunburst.fx0 (Sunburst.focusD state) < Sunburst.fx1 (Sunburst.focusD state) ->
            Sunburst.fx1 (Sunburst.focusD state) - Sunburst.fx0 (Sunburst.focusD state)
            <= 3 * (D3.x1 (Sunburst.node d) - D3.x0 (Sunburst.node d)) ->
            Sunburst.visible (Sunburst.minSliceAngle state) (Sunburst.focusD state) d
            = true)).
Proof.
  intros state d Hf. split; intros Hm.
  - rewrite (@visible_iff _ _ d Hf), Hm.
    split; intros [H1 H2]; (split; [exact H1|]); unfold Qdiv in *; lra.
  - pose proof (@visible_iff (Sunburst.minSliceAngle state)
                             (Sunburst.focusD state) d Hf) as V.
    split; [|split].
    + intros H. apply V in H. apply H.
    + intros H.
      destruct (Sunburst.visible (Sunburst.minSliceAngle state)
                                 (Sunburst.focusD state) d) eqn:E; [|reflexivity].
      destruct (proj1 V eq_refl) as [_ H2]. rewrite Hm in H2.
      setoid_replace (100 / 360) with (5 # 18) in H2 by reflexivity. lra.
    + intros Ho Hw H. apply V. split; [exact Ho|]. rewrite Hm.
      setoid_replace (100 / 360) with (5 # 18) by reflexivity. lra.
Qed.

Lemma min_slice_angle_extremes_witness :
  (Sunburst.visible
     (Sunburst.minSliceAngle
        (Sunburst.set_minSliceAngle 0 (Sunburst.loaded 800 600 Sample.abc)))
     (Sunburst.focusD (Sunburst.set_minSliceAngle 0 (Sunburst.loaded 800 600 Sample.abc)))
     (Sunburst.root_datum Sample.abc) = true
   <-> Sunburst.overlaps
         (Sunburst.focusD
            (Sunburst.set_minSliceAngle 0 (Sunburst.loaded 800 600 Sample.abc)))
         (Sunburst.root_datum Sample.abc)
       /\ D3.x0 (Sunburst.node (Sunburst.root_datum Sample.abc))
          < D3.x1 (Sunburst.node (Sunburst.root_datum Sample.abc)))
  /\ Sunburst.visible
       (Sunburst.minSliceAngle
          (Sunburst.set_minSliceAngle 100 (Sunburst.loaded 800 600 Sample.abc)))
       (Sunburst.focusD
          (Sunburst.set_minSliceAngle 100 (Sunburst.loaded 800 600 Sample.abc)))
       Sample.abc_C = true
  /\ Sunburst.visible
       (Sunburst.minSliceAngle
          (Sunburst.set_minSliceAngle 100 (Sunburst.loaded 800 600 Sample.abc)))
       (Sunburst.focusD
          (Sunburst.set_minSliceAngle 100 (Sunburst.loaded 800 600 Sample.abc)))
       Sample.abc_B = false.
Proof.
  split; [|split].
  - apply (proj1 (@min_slice_angle_extremes
                    (Sunburst.set_minSliceAngle 0 (Sunburst.loaded 800 600 Sample.abc))
                    (Sunburst.root_datum Sample.abc)
                    ltac:(vm_compute; discriminate))).
    vm_compute. reflexivity.
  - apply (proj2 (proj2 (proj2 (@min_slice_angle_extremes
                    (Sunburst.set_minSliceAngle 100 (Sunburst.loaded 800 600 Sample.abc))
                    Sample.abc_C
                    ltac:(vm_compute; discriminate))
                    ltac:(vm_compute; reflexivity)))).
    + unfold Sunburst.overlaps. vm_compute. split; discriminate.
    + vm_compute. reflexivity.
    + vm_compute. discriminate.
  - apply (proj1 (proj2 (proj2 (@min_slice_angle_extremes
                    (Sunburst.set_minSliceAngle 100 (Sunburst.loaded 800 600 Sample.abc))
                    Sample.abc_B
                    ltac:(vm_compute; discriminate))
                    ltac:(vm_compute; reflexivity)))).
    vm_compute. discriminate.
Defined.

(** C5 fails at both extremes: at 0, [B{0}] of [A -> [B{0}, C{30}]]
    overlaps the window and is filtered out; at 100, with the root of
    [A{0} -> [B{10}, C{30}]] focused, [C] is not the focused node and
    passes the filter, being 3/4 of the window wide. *)
Lemma min_slice_angle_counterexample :
  (exists a b c,
      Sunburst.layoutData (Sunburst.set_minSliceAngle 0 (Sunburst.loaded 800 600 Sample.weightless))
      = Some [a; b; c]
      /\ Sunburst.minSliceAngle
           (Sunburst.set_minSliceAngle 0 (Sunburst.loaded 800 600 Sample.weightless)) = 0
      /\ Sunburst.overlaps (Sunburst.focusD
                     (Sunburst.set_minSliceAngle 0 (Sunburst.loaded 800 600 Sample.weightless))) b
      /\ Sunburst.visible 0
           (Sunburst.focusD
              (Sunburst.set_minSliceAngle 0 (Sunburst.loaded 800 600 Sample.weightless))) b
         = false)
  /\ (exists a b c,
         Sunburst.layoutData (Sunburst.loaded 800 600 Sample.abc) = Some [a; b; c]
         /\ Sunburst.id c <> Sunburst.id a
         /\ Sunburst.visible 100
              (Sunburst.focusD
                 (Sunburst.set_minSliceAngle 100
                    (Sunburst.set_focusOnNode (Some (Sunburst.target_of a))
                       (Sunburst.loaded 800 600 Sample.abc)))) c
            = true).
Proof.
  split.
  - eexists _, _, _. split; [vm_compute; reflexivity|].
    split; [reflexivity|]. split; [|vm_compute; reflexivity].
    unfold Sunburst.overlaps. vm_compute. split; discriminate.
  - eexists _, _, _. split; [vm_compute; reflexivity|].
    split; [vm_compute; discriminate|]. vm_compute. reflexivity.
Qed.

(** *** What [update] and a frame of the zoom write *)

Lemma update_radius_range (state : Sunburst.State) :
  Scale.range (Sunburst.radiusScale (Sunburst.update state))
  = (Rmin (Sunburst.width state) (Sunburst.height state) / 2 * 0.1,
     Rmin (Sunburst.width state) (Sunburst.height state) / 2)%R.
Proof.
  unfold Sunburst.update. cbn [Sunburst.layoutData Sunburst.set_radiusScale].
  destruct (Sunburst.layoutData state); reflexivity.
Qed.

Lemma update_radius_domain (state : Sunburst.State) :
  Scale.domain (Sunburst.radiusScale (Sunburst.update state))
  = Scale.domain (Sunburst.radiusScale state).
Proof.
  unfold Sunburst.update. cbn [Sunburst.layoutData Sunburst.set_radiusScale].
  destruct (Sunburst.layoutData state); reflexivity.
Qed.

Lemma update_angleScale (state : Sunburst.State) :
  Sunburst.angleScale (Sunburst.update state) = Sunburst.angleScale state.
Proof.
  unfold Sunburst.update. cbn [Sunburst.layoutData Sunburst.set_radiusScale].
  destruct (Sunburst.layoutData state); reflexivity.
Qed.

Lemma update_zoom (state : Sunburst.State) (ld : list Sunburst.LayoutDatum) :
  Sunburst.layoutData state = Some ld ->
  Sunburst.zoom (Sunburst.update state)
  = Some (Sunburst.mkZoom
            (Scale.interpolate (Scale.domain (Sunburst.angleScale state))
               (Q2R (Sunburst.fx0 (Sunburst.focusD state)),
                Q2R (Sunburst.fx1 (Sunburst.focusD state))))
            (Scale.interpolate (Scale.domain (Sunburst.radiusScale state))
               (Q2R (Sunburst.fy0 (Sunburst.focusD state)), 1%R))).
Proof.
  intros H. unfold Sunburst.update. cbn [Sunburst.layoutData Sunburst.set_radiusScale].
  rewrite H. reflexivity.
Qed.

Lemma update_slices (state : Sunburst.State) (ld : list Sunburst.LayoutDatum) :
  Sunburst.layoutData state = Some ld ->
  Sunburst.slices (Sunburst.update state)
  = Sunburst.reconcile (Sunburst.slices state)
      (filter (Sunburst.visible (Sunburst.minSliceAngle state) (Sunburst.focusD state)) ld).
Proof.
  intros H. unfold Sunburst.update. cbn [Sunburst.layoutData Sunburst.set_radiusScale].
  rewrite H. reflexivity.
Qed.

Lemma frame_scales (t : R) (state : Sunburst.State) (z : Sunburst.Zoom) :
  Sunburst.zoom state = Some z ->
  Sunburst.angleScale (Sunburst.frame t state)
  = Scale.set_domain (Sunburst.angleScale state) (Sunburst.xd z t)
  /\ Sunburst.radiusScale (Sunburst.frame t state)
     = Scale.set_domain (Sunburst.radiusScale state) (Sunburst.yd z t).
Proof.
  intros H. unfold Sunburst.frame. rewrite H. split; reflexivity.
Qed.

Lemma zoom_domains (t : R) (state : Sunburst.State) (ld : list Sunburst.LayoutDatum) :
  Sunburst.layoutData state = Some ld ->
  Scale.domain (Sunburst.angleScale (Sunburst.frame t (Sunburst.update state)))
  = Scale.interpolate (Scale.domain (Sunburst.angleScale state))
      (Q2R (Sunburst.fx0 (Sunburst.focusD state)),
       Q2R (Sunburst.fx1 (Sunburst.focusD state))) t
  /\ Scale.domain (Sunburst.radiusScale (Sunburst.frame t (Sunburst.update state)))
     = Scale.interpolate (Scale.domain (Sunburst.radiusScale state))
         (Q2R (Sunburst.fy0 (Sunburst.focusD state)), 1%R) t.
Proof.
  intros H.
  destruct (frame_scales t (Sunburst.update state) (update_zoom state H)) as [Ea Er].
  rewrite Ea, Er. split; reflexivity.
Qed.

(** C6 (zoom targets).  When a layout exists, [update] installs a tween
    whose frame at eased time [t] sets the angular domain to the
    interpolation from the current domain to [[focus.x0, focus.x1]] and
    the radial domain to the interpolation from the current one to
    [[focus.y0, 1]]: nothing has moved at [t = 0], the targets are reached
    at [t = 1].  The focus is the layout node linked to [focusOnNode];
    when there is none it is the literal [{x0: 0, x1: 1, y0: 0, y1: 1}]. *)
Theorem zoom_targets_focus :
  forall state ld,
    Sunburst.layoutData state = Some ld ->
    (forall t,
        Scale.domain (Sunburst.angleScale (Sunburst.frame t (Sunburst.update state)))
        = Scale.interpolate (Scale.domain (Sunburst.angleScale state))
            (Q2R (Sunburst.fx0 (Sunburst.focusD state)),
             Q2R (Sunburst.fx1 (Sunburst.focusD state))) t
        /\ Scale.domain (Sunburst.radiusScale (Sunburst.frame t (Sunburst.update state)))
           = Scale.interpolate (Scale.domain (Sunburst.radiusScale state))
               (Q2R (Sunburst.fy0 (Sunburst.focusD state)), 1%R) t)
    /\ Scale.domain (Sunburst.angleScale (Sunburst.frame 0 (Sunburst.update state)))
       = Scale.domain (Sunburst.angleScale state)
    /\ Scale.domain (Sunburst.radiusScale (Sunburst.frame 0 (Sunburst.update state)))
       = Scale.domain (Sunburst.radiusScale state)
    /\ Scale.domain (Sunburst.angleScale (Sunburst.frame 1 (Sunburst.update state)))
       = (Q2R (Sunburst.fx0 (Sunburst.focusD state)),
          Q2R (Sunburst.fx1 (Sunburst.focusD state)))
    /\ Scale.domain (Sunburst.radiusScale (Sunburst.frame 1 (Sunburst.update state)))
       = (Q2R (Sunburst.fy0 (Sunburst.focusD state)), 1%R)
    /\ (Sunburst.unresolved state -> Sunburst.focusD state = Sunburst.whole_tree)
    /\ (forall t d, Sunburst.focusOnNode state = Some t ->
                    Sunburst.__dataNode t = Some d ->
                    Sunburst.focusD state = Sunburst.box_of d).
Proof.
  intros state ld H.
  pose proof (fun t => zoom_domains t state H) as Hz.
  split; [exact Hz|].
  destruct (Hz 0%R) as [A0 R0]. destruct (Hz 1%R) as [A1 R1].
  rewrite A0, R0, A1, R1, !interpolate_0, !interpolate_1.
  repeat split.
  - intros [E|(t & E & Et)]; unfold Sunburst.focusD; rewrite E; [|rewrite Et]; reflexivity.
  - intros t d E Et. unfold Sunburst.focusD. rewrite E, Et. reflexivity.
Qed.

Lemma zoom_targets_focus_witness :
  Scale.domain
    (Sunburst.angleScale
       (Sunburst.frame 1
          (Sunburst.update
             (Sunburst.with_focusOnNode (Sunburst.loaded 800 600 Sample.abc)
                (Some (Sunburst.target_of Sample.abc_C))))))
  = (Q2R (D3.x0 (Sunburst.node Sample.abc_C)), Q2R (D3.x1 (Sunburst.node Sample.abc_C)))
  /\ Scale.domain
       (Sunburst.radiusScale
          (Sunburst.frame 1
             (Sunburst.update
                (Sunburst.with_focusOnNode (Sunburst.loaded 800 600 Sample.abc)
                   (Some (Sunburst.target_of Sample.abc_C))))))
     = (Q2R (D3.y0 (Sunburst.node Sample.abc_C)), 1%R).
Proof.
  destruct (@zoom_targets_focus
              (Sunburst.with_focusOnNode (Sunburst.loaded 800 600 Sample.abc)
                 (Some (Sunburst.target_of Sample.abc_C)))
              (Sunburst.number_from 0
                 (D3.descendants
                    (D3.partition (D3.sum raw_value (D3.hierarchy Sample.abc)))))
              eq_refl)
    as (_ & _ & _ & A & B & _).
  split; [exact A | exact B].
Defined.

(** C6 with a whole-tree window ending at the total value fails: for
    [A{0} -> [B{10}, C{30}]] without focus the window ends at 1, the total
    is 40. *)
Lemma whole_tree_window_is_unit :
  Sunburst.focusOnNode (Sunburst.loaded 800 600 Sample.abc) = None
  /\ Sunburst.focusD (Sunburst.loaded 800 600 Sample.abc) = Sunburst.mkFocus 0 1 0 1
  /\ Sunburst.rootValue (Sunburst.loaded 800 600 Sample.abc) Sample.abc == 40
  /\ ~ Sunburst.fx1 (Sunburst.focusD (Sunburst.loaded 800 600 Sample.abc))
       == Sunburst.rootValue (Sunburst.loaded 800 600 Sample.abc) Sample.abc.
Proof.
  split; [reflexivity|]. split; [reflexivity|].
  split; vm_compute; [reflexivity|discriminate].
Qed.

(** C8 (entering slices).  A visible datum that has no slice yet gets one
    created at opacity 0 with its click, mouseover and mouseout handlers;
    by the end of the same [update] its opacity style is 1 and no opacity
    transition is scheduled on it (only its arc is tweened): the slice is
    shown at once, it is not faded in. *)
Theorem entering_slice_shown_at_once :
  forall state ld d,
    Sunburst.layoutData state = Some ld ->
    In d (filter (Sunburst.visible (Sunburst.minSliceAngle state)
                                   (Sunburst.focusD state)) ld) ->
    Sunburst.bound (Sunburst.id d) (Sunburst.slices state) = false ->
    In (Sunburst.entered_or_updated (Sunburst.entering d))
       (Sunburst.slices (Sunburst.update state))
    /\ Sunburst.opacity (Sunburst.entering d) = 0
    /\ Sunburst.on_click (Sunburst.entering d) = true
    /\ Sunburst.on_mouseover (Sunburst.entering d) = true
    /\ Sunburst.on_mouseout (Sunburst.entering d) = true
    /\ Sunburst.opacity (Sunburst.entered_or_updated (Sunburst.entering d)) = 1
    /\ Sunburst.fade (Sunburst.entered_or_updated (Sunburst.entering d)) = None
    /\ Sunburst.arc_tween (Sunburst.entered_or_updated (Sunburst.entering d)) = true.
Proof.
  intros state ld d H Hin Hb. split; [|repeat split].
  rewrite (update_slices state H). unfold Sunburst.reconcile.
  apply in_or_app. right. apply in_map, in_map.
  apply filter_In. split; [exact Hin|]. now rewrite Hb.
Qed.

Lemma entering_slice_shown_at_once_witness :
  In (Sunburst.entered_or_updated (Sunburst.entering (Sunburst.root_datum Sample.abc)))
     (Sunburst.slices
        (Sunburst.update (Sunburst._parseData (Sunburst.init 800 600 (Some Sample.abc)))))
  /\ Sunburst.opacity (Sunburst.entered_or_updated
                         (Sunburst.entering (Sunburst.root_datum Sample.abc))) = 1
  /\ Sunburst.fade (Sunburst.entered_or_updated
                      (Sunburst.entering (Sunburst.root_datum Sample.abc))) = None.
Proof.
  destruct (@entering_slice_shown_at_once
              (Sunburst._parseData (Sunburst.init 800 600 (Some Sample.abc)))
              (Sunburst.number_from 0
                 (D3.descendants
                    (D3.partition (D3.sum raw_value (D3.hierarchy Sample.abc)))))
              (Sunburst.root_datum Sample.abc) eq_refl)
    as (A & _ & _ & _ & _ & B & C & _).
  - vm_compute. left. reflexivity.
  - reflexivity.
  - repeat split; assumption.
Defined.

(** C9 (absent data).  With the data property absent [_parseData] leaves
    the state as it is; if no layout exists either, [update] leaves
    [layoutData] absent and touches neither the slices nor the zoom, so
    nothing is drawn. *)
Theorem absent_data_keeps_state :
  forall state,
    Sunburst.data state = None ->
    Sunburst._parseData state = state
    /\ (Sunburst.layoutData state = None ->
        Sunburst.layoutData (Sunburst.update (Sunburst._parseData state)) = None
        /\ Sunburst.slices (Sunburst.update (Sunburst._parseData state))
           = Sunburst.slices state
        /\ Sunburst.zoom (Sunburst.update (Sunburst._parseData state))
           = Sunburst.zoom state).
Proof.
  intros state H.
  assert (E : Sunburst._parseData state = state).
  { unfold Sunburst._parseData. now rewrite H. }
  rewrite E. split; [reflexivity|]. intros Hl.
  unfold Sunburst.update. cbn [Sunburst.layoutData Sunburst.set_radiusScale].
  rewrite Hl. cbn [Sunburst.layoutData Sunburst.slices Sunburst.zoom].
  repeat split; assumption.
Qed.

Lemma absent_data_keeps_state_witness :
  Sunburst._parseData (Sunburst.init 800 600 None) = Sunburst.init 800 600 None
  /\ Sunburst.slices (Sunburst.update (Sunburst._parseData (Sunburst.init 800 600 None)))
     = [].
Proof.
  destruct (@absent_data_keeps_state (Sunburst.init 800 600 None) eq_refl) as [A B].
  split; [exact A|]. destruct (B eq_refl) as (_ & C & _). exact C.
Defined.

(** C9 in every state where data is absent fails: after the data was set
    and then cleared the old layout is still there and its three slices
    are still drawn. *)
Lemma cleared_data_still_drawn :
  Sunburst.data (Sunburst.set_data None (Sunburst.loaded 800 600 Sample.abc)) = None
  /\ Sunburst.layoutData (Sunburst.set_data None (Sunburst.loaded 800 600 Sample.abc))
     = Sunburst.layoutData (Sunburst.loaded 800 600 Sample.abc)
  /\ Sunburst.layoutData (Sunburst.set_data None (Sunburst.loaded 800 600 Sample.abc)) <> None
  /\ List.length (Sunburst.slices (Sunburst.set_data None (Sunburst.loaded 800 600 Sample.abc)))
     = 3%nat.
Proof.
  split; [reflexivity|]. split; [reflexivity|].
  split; [discriminate|]. vm_compute. reflexivity.
Qed.

(** *** Scales after a render *)

Lemma radiusScale_update (state : Sunburst.State) :
  Sunburst.radiusScale (Sunburst.update state)
  = Scale.mk (Scale.domain (Sunburst.radiusScale state))
             (Sunburst.maxRadius state * 0.1, Sunburst.maxRadius state)%R.
Proof.
  unfold Sunburst.update. cbn [Sunburst.layoutData Sunburst.set_radiusScale].
  destruct (Sunburst.layoutData state); reflexivity.
Qed.

Lemma radiusScale_frame_update (t : R) (state : Sunburst.State)
      (ld : list Sunburst.LayoutDatum) :
  Sunburst.layoutData state = Some ld ->
  Sunburst.radiusScale (Sunburst.frame t (Sunburst.update state))
  = Scale.mk (Scale.interpolate (Scale.domain (Sunburst.radiusScale state))
                (Q2R (Sunburst.fy0 (Sunburst.focusD state)), 1%R) t)
             (Sunburst.maxRadius state * 0.1, Sunburst.maxRadius state)%R.
Proof.
  intros H.
  destruct (frame_scales t (Sunburst.update state) (update_zoom state H)) as [_ Er].
  rewrite Er, radiusScale_update. reflexivity.
Qed.

Lemma angleScale_frame_update (t : R) (state : Sunburst.State)
      (ld : list Sunburst.LayoutDatum) :
  Sunburst.layoutData state = Some ld ->
  Sunburst.angleScale (Sunburst.frame t (Sunburst.update state))
  = Scale.mk (Scale.interpolate (Scale.domain (Sunburst.angleScale state))
                (Q2R (Sunburst.fx0 (Sunburst.focusD state)),
                 Q2R (Sunburst.fx1 (Sunburst.focusD state))) t)
             (Scale.range (Sunburst.angleScale state)).
Proof.
  intros H.
  destruct (frame_scales t (Sunburst.update state) (update_zoom state H)) as [Ea _].
  rewrite Ea, update_angleScale. reflexivity.
Qed.

(** What the setters and a frame leave alone. *)
Lemma frame_layoutData (t : R) (state : Sunburst.State) :
  Sunburst.layoutData (Sunburst.frame t state) = Sunburst.layoutData state.
Proof. unfold Sunburst.frame. destruct (Sunburst.zoom state); reflexivity. Qed.

Lemma frame_nameOf (t : R) (state : Sunburst.State) (d : Sunburst.LayoutDatum) :
  Sunburst.nameOf (Sunburst.frame t state) d = Sunburst.nameOf state d.
Proof. unfold Sunburst.frame. destruct (Sunburst.zoom state); reflexivity. Qed.

Lemma frame_maxRadius (t : R) (state : Sunburst.State) :
  Sunburst.maxRadius (Sunburst.frame t state) = Sunburst.maxRadius state.
Proof. unfold Sunburst.frame. destruct (Sunburst.zoom state); reflexivity. Qed.

Lemma update_layoutData (state : Sunburst.State) :
  Sunburst.layoutData (Sunburst.update state) = Sunburst.layoutData state.
Proof.
  unfold Sunburst.update. cbn [Sunburst.layoutData Sunburst.set_radiusScale].
  destruct (Sunburst.layoutData state) eqn:E; [exact E|exact E].
Qed.

Lemma update_maxRadius (state : Sunburst.State) :
  Sunburst.maxRadius (Sunburst.update state) = Sunburst.maxRadius state.
Proof.
  unfold Sunburst.update. cbn [Sunburst.layoutData Sunburst.set_radiusScale].
  destruct (Sunburst.layoutData state); reflexivity.
Qed.

Lemma update_nameOf (state : Sunburst.State) (d : Sunburst.LayoutDatum) :
  Sunburst.nameOf (Sunburst.update state) d = Sunburst.nameOf state d.
Proof.
  unfold Sunburst.update. cbn [Sunburst.layoutData Sunburst.set_radiusScale].
  destruct (Sunburst.layoutData state); reflexivity.
Qed.

Lemma loaded_layoutData (w h : R) (root : RawNode) :
  Sunburst.layoutData (Sunburst.loaded w h root)
  = Some (Sunburst.number_from 0
            (D3.descendants (D3.partition (D3.sum raw_value (D3.hierarchy root))))).
Proof. unfold Sunburst.loaded, Sunburst.set_data. rewrite update_layoutData. reflexivity. Qed.

Lemma loaded_maxRadius (w h : R) (root : RawNode) :
  Sunburst.maxRadius (Sunburst.loaded w h root) = (Rmin w h / 2)%R.
Proof. unfold Sunburst.loaded, Sunburst.set_data. rewrite update_maxRadius. reflexivity. Qed.

Lemma loaded_nameOf (w h : R) (root : RawNode) (d : Sunburst.LayoutDatum) :
  Sunburst.nameOf (Sunburst.loaded w h root) d = raw_name (D3.data (Sunburst.node d)).
Proof. unfold Sunburst.loaded, Sunburst.set_data. rewrite update_nameOf. reflexivity. Qed.

Lemma focusD_target (state : Sunburst.State) (d : Sunburst.LayoutDatum) :
  Sunburst.focusD (Sunburst.with_focusOnNode state (Some (Sunburst.target_of d)))
  = Sunburst.box_of d.
Proof. reflexivity. Qed.

Lemma Q2R_zero : Q2R 0 = 0%R.
Proof. unfold Q2R. simpl. lra. Qed.

Lemma Q2R_one : Q2R 1 = 1%R.
Proof. unfold Q2R. simpl. lra. Qed.

Lemma INR_CHAR_PX : INR Sunburst.CHAR_PX = 6%R.
Proof. unfold Sunburst.CHAR_PX. simpl. lra. Qed.


(** The single wedge of [Sample.long_label] once the first zoom has
    completed: a full circle between 10% and 100% of the radius. *)
Lemma long_label_perimeter (w h : R) :
  Sunburst.perimeter (Sunburst.frame 1 (Sunburst.loaded w h Sample.long_label))
                     (Sunburst.root_datum Sample.long_label)
  = (Rmax 0 ((Rmin w h / 2 * 0.1 + Rmin w h / 2) / 2) * (2 * PI - 0))%R.
Proof.
  unfold Sunburst.perimeter, Sunburst.meanRadius, Sunburst.deltaAngle, Sunburst.loaded,
    Sunburst.set_data.
  assert (H : Sunburst.layoutData
                (Sunburst._parseData
                   (Sunburst.with_data (Sunburst.init w h None) (Some Sample.long_label)))
              = Some (Sunburst.number_from 0
                        (D3.descendants
                           (D3.partition
                              (D3.sum raw_value (D3.hierarchy Sample.long_label))))))
    by reflexivity.
  rewrite (radiusScale_frame_update 1 _ H), (angleScale_frame_update 1 _ H).
  clear H. rewrite !interpolate_1.
  change (Sunburst.focusD
            (Sunburst._parseData
               (Sunburst.with_data (Sunburst.init w h None) (Some Sample.long_label))))
    with (Sunburst.mkFocus 0 1 0 1).
  cbn [Sunburst.fx0 Sunburst.fx1 Sunburst.fy0].
  change (D3.x0 (Sunburst.node (Sunburst.root_datum Sample.long_label))) with 0%Q.
  change (D3.x1 (Sunburst.node (Sunburst.root_datum Sample.long_label))) with 1%Q.
  change (D3.y0 (Sunburst.node (Sunburst.root_datum Sample.long_label))) with 0%Q.
  change (D3.y1 (Sunburst.node (Sunburst.root_datum Sample.long_label))) with 1%Q.
  rewrite Q2R_zero, Q2R_one.
  change (Scale.range
            (Sunburst.angleScale
               (Sunburst._parseData
                  (Sunburst.with_data (Sunburst.init w h None) (Some Sample.long_label)))))
    with (0, 2 * PI)%R.
  change (Sunburst.maxRadius
            (Sunburst._parseData
               (Sunburst.with_data (Sunburst.init w h None) (Some Sample.long_label))))
    with (Rmin w h / 2)%R.
  rewrite sqrt_scale_min, sqrt_scale_max, linear_clamped_min, linear_clamped_max by lra.
  reflexivity.
Qed.

Lemma update_minSliceAngle (state : Sunburst.State) :
  Sunburst.minSliceAngle (Sunburst.update state) = Sunburst.minSliceAngle state.
Proof.
  unfold Sunburst.update. cbn [Sunburst.layoutData Sunburst.set_radiusScale].
  destruct (Sunburst.layoutData state); reflexivity.
Qed.

Lemma frame_minSliceAngle (t : R) (state : Sunburst.State) :
  Sunburst.minSliceAngle (Sunburst.frame t state) = Sunburst.minSliceAngle state.
Proof. unfold Sunburst.frame. destruct (Sunburst.zoom state); reflexivity. Qed.

Lemma loaded_minSliceAngle (w h : R) (root : RawNode) :
  Sunburst.minSliceAngle (Sunburst.loaded w h root) = 2 # 10.
Proof.
  unfold Sunburst.loaded, Sunburst.set_data. rewrite update_minSliceAngle.
  reflexivity.
Qed.

Lemma hole_nonneg (state : Sunburst.State) :
  (0 <= Sunburst.width state)%R -> (0 <= Sunburst.height state)%R ->
  (0 <= Sunburst.maxRadius state * 0.1 <= Sunburst.maxRadius state)%R.
Proof.
  intros Hw Hh. unfold Sunburst.maxRadius, Rmin.
  destruct (Rle_dec (Sunburst.width state) (Sunburst.height state)); lra.
Qed.

(** C10 (the central hole).  Every [update] sets the range of the radius
    scale to [[0.1 * maxRadius, maxRadius]], [maxRadius] being half the
    smaller of width and height.  In a chart of positive width and height
    a wedge whose [y0] is the start of a proper radial domain has inner
    radius [0.1 * maxRadius], which is positive; so has, once a zoom has
    reached its target, every wedge whose [y0] is the focus's.  A wedge
    whose [y0] lies at or beyond the start of the domain keeps the hole
    free: its inner radius is at least [0.1 * maxRadius].  The hole
    itself is not kept free: once a zoom has reached its target, a wedge
    whose band ends at or before the focus's [y0] is drawn inside it, with
    an outer radius of at most [0.1 * maxRadius]. *)
Theorem radius_range_keeps_hole :
  forall state,
    Scale.range (Sunburst.radiusScale (Sunburst.update state))
    = (Sunburst.maxRadius state * 0.1, Sunburst.maxRadius state)%R
    /\ ((0 < Sunburst.width state)%R -> (0 < Sunburst.height state)%R ->
        forall d,
          (fst (Scale.domain (Sunburst.radiusScale state))
           < snd (Scale.domain (Sunburst.radiusScale state)))%R ->
          Q2R (D3.y0 (Sunburst.node d))
          = fst (Scale.domain (Sunburst.radiusScale state)) ->
          Sunburst.innerRadius (Sunburst.update state) d = (Sunburst.maxRadius state * 0.1)%R
          /\ (0 < Sunburst.innerRadius (Sunburst.update state) d)%R)
    /\ ((0 < Sunburst.width state)%R -> (0 < Sunburst.height state)%R ->
        forall ld d,
          Sunburst.layoutData state = Some ld ->
          Sunburst.fy0 (Sunburst.focusD state) < 1 ->
          D3.y0 (Sunburst.node d) == Sunburst.fy0 (Sunburst.focusD state) ->
          Sunburst.innerRadius (Sunburst.frame 1 (Sunburst.update state)) d
          = (Sunburst.maxRadius state * 0.1)%R
          /\ (0 < Sunburst.innerRadius (Sunburst.frame 1 (Sunburst.update state)) d)%R)
    /\ ((0 <= Sunburst.width state)%R -> (0 <= Sunburst.height state)%R ->
        forall d,
          (fst (Scale.domain (Sunburst.radiusScale state))
           < snd (Scale.domain (Sunburst.radiusScale state)))%R ->
          (fst (Scale.domain (Sunburst.radiusScale state))
           <= Q2R (D3.y0 (Sunburst.node d)))%R ->
          (Sunburst.maxRadius state * 0.1
           <= Sunburst.innerRadius (Sunburst.update state) d)%R)
    /\ ((0 <= Sunburst.width state)%R -> (0 <= Sunburst.height state)%R ->
        forall ld d,
          Sunburst.layoutData state = Some ld ->
          Sunburst.fy0 (Sunburst.focusD state) < 1 ->
          (Sunburst.fy0 (Sunburst.focusD state) <= D3.y0 (Sunburst.node d) ->
           (Sunburst.maxRadius state * 0.1
            <= Sunburst.innerRadius (Sunburst.frame 1 (Sunburst.update state)) d)%R)
          /\ (D3.y1 (Sunburst.node d) <= Sunburst.fy0 (Sunburst.focusD state) ->
              (Sunburst.outerRadius (Sunburst.frame 1 (Sunburst.update state)) d
               <= Sunburst.maxRadius state * 0.1)%R)).
Proof.
  intros state. split; [apply update_radius_range|].
  assert (Hpos : (0 < Sunburst.width state)%R -> (0 < Sunburst.height state)%R ->
                 (0 < Sunburst.maxRadius state * 0.1)%R).
  { intros Hw Hh. unfold Sunburst.maxRadius.
    assert (0 < Rmin (Sunburst.width state) (Sunburst.height state))%R
      by (apply Rmin_glb_lt; assumption).
    lra. }
  split; [|split; [|split]]; intros Hw Hh.
  - intros d Hdom Hy. unfold Sunburst.innerRadius.
    rewrite radiusScale_update, Hy.
    destruct (Scale.domain (Sunburst.radiusScale state)) as [d0 d1].
    cbn [fst snd] in *. rewrite sqrt_scale_min by exact Hdom.
    specialize (Hpos Hw Hh). rewrite Rmax_right by lra. split; [reflexivity|exact Hpos].
  - intros ld d Hl Hf Hy. unfold Sunburst.innerRadius.
    rewrite (radiusScale_frame_update 1 state Hl), interpolate_1.
    rewrite (Qeq_eqR _ _ Hy).
    apply Qlt_Rlt in Hf. rewrite Q2R_one in Hf.
    rewrite sqrt_scale_min by exact Hf.
    specialize (Hpos Hw Hh). rewrite Rmax_right by lra. split; [reflexivity|exact Hpos].
  - intros d Hdom Hy. unfold Sunburst.innerRadius.
    rewrite radiusScale_update.
    destruct (Scale.domain (Sunburst.radiusScale state)) as [d0 d1].
    cbn [fst snd] in *.
    destruct (hole_nonneg state Hw Hh) as [H0 H1].
    pose proof (@sqrt_scale_mono d0 d1 _ _ _ _ Hdom H1 Hy) as S.
    rewrite sqrt_scale_start in S by exact Hdom.
    eapply Rle_trans; [exact S|apply Rmax_r].
  - intros ld d Hl Hf. unfold Sunburst.innerRadius, Sunburst.outerRadius.
    rewrite (radiusScale_frame_update 1 state Hl), interpolate_1. cbn [fst snd].
    apply Qlt_Rlt in Hf. rewrite Q2R_one in Hf.
    destruct (hole_nonneg state Hw Hh) as [H0 H1].
    split; intros Hy; apply Qle_Rle in Hy.
    + pose proof (@sqrt_scale_mono _ _ _ _ _ _ Hf H1 Hy) as S.
      rewrite sqrt_scale_start in S by exact Hf.
      eapply Rle_trans; [exact S|apply Rmax_r].
    + pose proof (@sqrt_scale_mono _ _ _ _ _ _ Hf H1 Hy) as S.
      rewrite sqrt_scale_start in S by exact Hf.
      apply Rmax_lub; lra.
Qed.

Lemma sqrt_sixteenth : sqrt (/ 16) = (/ 4)%R.
Proof. apply sqrt_lem_1; lra. Qed.

Lemma frame_fields (t : R) (state : Sunburst.State) :
  Sunburst.width (Sunburst.frame t state) = Sunburst.width state
  /\ Sunburst.height (Sunburst.frame t state) = Sunburst.height state
  /\ Sunburst.focusOnNode (Sunburst.frame t state) = Sunburst.focusOnNode state.
Proof.
  unfold Sunburst.frame. destruct (Sunburst.zoom state); repeat split.
Qed.

Lemma update_fields (state : Sunburst.State) :
  Sunburst.width (Sunburst.update state) = Sunburst.width state
  /\ Sunburst.height (Sunburst.update state) = Sunburst.height state
  /\ Sunburst.focusOnNode (Sunburst.update state) = Sunburst.focusOnNode state.
Proof.
  unfold Sunburst.update. cbn [Sunburst.layoutData Sunburst.set_radiusScale].
  destruct (Sunburst.layoutData state); repeat split.
Qed.

(** The radius scale after a finished zoom to [B] of [Sample.chain]
    followed by three quarters of the zoom back to the root. *)
Lemma zooming_out_radiusScale :
  Sunburst.radiusScale Sample.zooming_out
  = Scale.mk (/ 16, 1)%R (300 * 0.1, 300)%R.
Proof.
  unfold Sample.zooming_out, Sunburst.set_focusOnNode.
  pose proof (loaded_layoutData 600 600 Sample.chain) as Hl.
  pose proof (loaded_maxRadius 600 600 Sample.chain) as Hm.
  revert Hl Hm. generalize (Sunburst.loaded 600 600 Sample.chain). intros s1 Hl Hm.
  assert (Hl1 : Sunburst.layoutData
                  (Sunburst.with_focusOnNode s1 (Some (Sunburst.target_of Sample.chain_B)))
                = Sunburst.layoutData s1) by reflexivity.
  rewrite Hl in Hl1.
  pose proof (radiusScale_frame_update 1 _ Hl1) as Hr2.
  pose proof (frame_layoutData 1
                (Sunburst.update
                   (Sunburst.with_focusOnNode s1
                      (Some (Sunburst.target_of Sample.chain_B))))) as Hl2.
  pose proof (frame_maxRadius 1
                (Sunburst.update
                   (Sunburst.with_focusOnNode s1
                      (Some (Sunburst.target_of Sample.chain_B))))) as Hm2.
  rewrite update_layoutData, Hl1 in Hl2. rewrite update_maxRadius in Hm2.
  rewrite interpolate_1, focusD_target in Hr2.
  change (Sunburst.maxRadius
            (Sunburst.with_focusOnNode s1 (Some (Sunburst.target_of Sample.chain_B))))
    with (Sunburst.maxRadius s1) in Hr2, Hm2.
  rewrite Hm in Hr2, Hm2.
  revert Hr2 Hl2 Hm2.
  generalize (Sunburst.frame 1
                (Sunburst.update
                   (Sunburst.with_focusOnNode s1
                      (Some (Sunburst.target_of Sample.chain_B))))).
  intros s2 Hr2 Hl2 Hm2.
  assert (Hl3 : Sunburst.layoutData
                  (Sunburst.with_focusOnNode s2
                     (Some (Sunburst.target_of (Sunburst.root_datum Sample.chain))))
                = Sunburst.layoutData s2) by reflexivity.
  rewrite Hl2 in Hl3.
  rewrite (radiusScale_frame_update (3 / 4) _ Hl3), focusD_target.
  change (Sunburst.radiusScale
            (Sunburst.with_focusOnNode s2
               (Some (Sunburst.target_of (Sunburst.root_datum Sample.chain)))))
    with (Sunburst.radiusScale s2).
  change (Sunburst.maxRadius
            (Sunburst.with_focusOnNode s2
               (Some (Sunburst.target_of (Sunburst.root_datum Sample.chain)))))
    with (Sunburst.maxRadius s2).
  rewrite Hr2, Hm2. cbn [Scale.domain].
  change (Sunburst.fy0 (Sunburst.box_of Sample.chain_B)) with (1 # 4)%Q.
  change (Sunburst.fy0 (Sunburst.box_of (Sunburst.root_datum Sample.chain))) with 0%Q.
  rewrite Q2R_zero.
  assert (Eq : Q2R (1 # 4) = (/ 4)%R) by (unfold Q2R; simpl; lra).
  rewrite Eq. unfold Scale.interpolate, Scale.interpolateNumber. cbn [fst snd].
  rewrite Rmin_left by lra.
  f_equal; f_equal; lra.
Qed.

Lemma focus_fields (state : Sunburst.State) (v : option Sunburst.FocusTarget) :
  Sunburst.width (Sunburst.with_focusOnNode state v) = Sunburst.width state
  /\ Sunburst.height (Sunburst.with_focusOnNode state v) = Sunburst.height state.
Proof. split; reflexivity. Qed.

Lemma loaded_fields (w h : R) (root : RawNode) :
  Sunburst.width (Sunburst.loaded w h root) = w
  /\ Sunburst.height (Sunburst.loaded w h root) = h.
Proof.
  unfold Sunburst.loaded, Sunburst.set_data.
  rewrite (proj1 (update_fields _)), (proj1 (proj2 (update_fields _))).
  split; reflexivity.
Qed.

Lemma zooming_out_fields :
  Sunburst.width Sample.zooming_out = 600%R
  /\ Sunburst.height Sample.zooming_out = 600%R
  /\ Sunburst.focusOnNode Sample.zooming_out
     = Some (Sunburst.target_of (Sunburst.root_datum Sample.chain)).
Proof.
  unfold Sample.zooming_out, Sunburst.set_focusOnNode.
  destruct (loaded_fields 600 600 Sample.chain) as [Hw Hh].
  revert Hw Hh. generalize (Sunburst.loaded 600 600 Sample.chain). intros s1 Hw Hh.
  repeat split.
  - now rewrite (proj1 (frame_fields _ _)), (proj1 (update_fields _)),
      (proj1 (focus_fields _ _)), (proj1 (frame_fields _ _)),
      (proj1 (update_fields _)), (proj1 (focus_fields _ _)).
  - now rewrite (proj1 (proj2 (frame_fields _ _))), (proj1 (proj2 (update_fields _))),
      (proj2 (focus_fields _ _)), (proj1 (proj2 (frame_fields _ _))),
      (proj1 (proj2 (update_fields _))), (proj2 (focus_fields _ _)).
  - now rewrite (proj2 (proj2 (frame_fields _ _))), (proj2 (proj2 (update_fields _))).
Qed.

Lemma radius_range_keeps_hole_witness :
  (Sunburst.innerRadius
     (Sunburst.update (Sunburst._parseData (Sunburst.init 800 600 (Some Sample.abc))))
     (Sunburst.root_datum Sample.abc)
   = (Sunburst.maxRadius (Sunburst._parseData (Sunburst.init 800 600 (Some Sample.abc)))
      * 0.1)%R
   /\ (0 < Sunburst.innerRadius
             (Sunburst.update
                (Sunburst._parseData (Sunburst.init 800 600 (Some Sample.abc))))
             (Sunburst.root_datum Sample.abc))%R)
  /\ (Sunburst.innerRadius
        (Sunburst.frame 1
           (Sunburst.update
              (Sunburst._parseData (Sunburst.init 800 600 (Some Sample.abc)))))
        (Sunburst.root_datum Sample.abc)
      = (Sunburst.maxRadius
           (Sunburst._parseData (Sunburst.init 800 600 (Some Sample.abc))) * 0.1)%R
      /\ (0 < Sunburst.innerRadius
                (Sunburst.frame 1
                   (Sunburst.update
                      (Sunburst._parseData (Sunburst.init 800 600 (Some Sample.abc)))))
                (Sunburst.root_datum Sample.abc))%R)
  /\ (Sunburst.maxRadius (Sunburst._parseData (Sunburst.init 800 600 (Some Sample.abc)))
      * 0.1
      <= Sunburst.innerRadius
           (Sunburst.update (Sunburst._parseData (Sunburst.init 800 600 (Some Sample.abc))))
           Sample.abc_C)%R
  /\ (Sunburst.outerRadius
        (Sunburst.frame 1
           (Sunburst.update
              (Sunburst.with_focusOnNode (Sunburst.loaded 600 600 Sample.chain)
                 (Some (Sunburst.target_of Sample.chain_B)))))
        (Sunburst.root_datum Sample.chain)
      <= Sunburst.maxRadius
           (Sunburst.with_focusOnNode (Sunburst.loaded 600 600 Sample.chain)
              (Some (Sunburst.target_of Sample.chain_B))) * 0.1)%R.
Proof.
  split; [|split; [|split]].
  - apply (proj1 (proj2 (@radius_range_keeps_hole
                           (Sunburst._parseData
                              (Sunburst.init 800 600 (Some Sample.abc)))))
                 ltac:(simpl; lra) ltac:(simpl; lra)
                 (Sunburst.root_datum Sample.abc)).
    + simpl. lra.
    + change (D3.y0 (Sunburst.node (Sunburst.root_datum Sample.abc))) with 0%Q.
      apply Q2R_zero.
  - apply (proj1 (proj2 (proj2 (@radius_range_keeps_hole
                           (Sunburst._parseData
                              (Sunburst.init 800 600 (Some Sample.abc))))))
                 ltac:(simpl; lra) ltac:(simpl; lra)
                 (Sunburst.number_from 0
                    (D3.descendants
                       (D3.partition (D3.sum raw_value (D3.hierarchy Sample.abc)))))
                 (Sunburst.root_datum Sample.abc) eq_refl).
    + change (Sunburst.fy0 _) with 0%Q. reflexivity.
    + change (Sunburst.fy0 _) with 0%Q. reflexivity.
  - apply (proj1 (proj2 (proj2 (proj2 (@radius_range_keeps_hole
                           (Sunburst._parseData
                              (Sunburst.init 800 600 (Some Sample.abc)))))))
                 ltac:(simpl; lra) ltac:(simpl; lra) Sample.abc_C).
    + simpl. lra.
    + simpl. rewrite <- Q2R_zero. apply Qle_Rle. vm_compute. discriminate.
  - pose proof (loaded_layoutData 600 600 Sample.chain) as Hl.
    destruct (loaded_fields 600 600 Sample.chain) as [Ew Eh].
    revert Hl Ew Eh. generalize (Sunburst.loaded 600 600 Sample.chain).
    intros s1 Hl Ew Eh.
    assert (Hw : (0 <= Sunburst.width
                        (Sunburst.with_focusOnNode s1
                           (Some (Sunburst.target_of Sample.chain_B))))%R).
    { rewrite (proj1 (focus_fields _ _)). rewrite Ew. lra. }
    assert (Hh : (0 <= Sunburst.height
                        (Sunburst.with_focusOnNode s1
                           (Some (Sunburst.target_of Sample.chain_B))))%R).
    { rewrite (proj2 (focus_fields _ _)). rewrite Eh. lra. }
    assert (Hf : Sunburst.fy0
                   (Sunburst.focusD
                      (Sunburst.with_focusOnNode s1
                         (Some (Sunburst.target_of Sample.chain_B)))) < 1).
    { rewrite focusD_target. vm_compute. reflexivity. }
    apply (proj2 (proj2 (proj2 (proj2 (proj2 (@radius_range_keeps_hole
                   (Sunburst.with_focusOnNode s1
                      (Some (Sunburst.target_of Sample.chain_B)))))))
                 Hw Hh _ (Sunburst.root_datum Sample.chain) Hl Hf)).
    rewrite focusD_target. vm_compute. discriminate.
Defined.

(** C10, as the specification words it, fails.  Three quarters of the
    way through a zoom from [B] back to the root of [Sample.chain], in a
    600 by 600 chart, the inner edge of the focused root is drawn at
    radius 0.  And the hole is not kept: when the zoom to [B] has reached
    its target, the root still passes the filter and is drawn from radius
    0 to radius 30, a tenth of the maximum radius 300. *)
Lemma focused_inner_edge_at_zero :
  (Sunburst.focusOnNode Sample.zooming_out
   = Some (Sunburst.target_of (Sunburst.root_datum Sample.chain))
   /\ (0 < Sunburst.width Sample.zooming_out)%R
   /\ (0 < Sunburst.height Sample.zooming_out)%R
   /\ Sunburst.innerRadius Sample.zooming_out (Sunburst.root_datum Sample.chain) = 0%R)
  /\ (Sunburst.focusOnNode Sample.zoomed_in = Some (Sunburst.target_of Sample.chain_B)
      /\ Sunburst.visible (Sunburst.minSliceAngle Sample.zoomed_in)
                          (Sunburst.focusD Sample.zoomed_in)
                          (Sunburst.root_datum Sample.chain) = true
      /\ Sunburst.maxRadius Sample.zoomed_in = 300%R
      /\ Sunburst.innerRadius Sample.zoomed_in (Sunburst.root_datum Sample.chain) = 0%R
      /\ Sunburst.outerRadius Sample.zoomed_in (Sunburst.root_datum Sample.chain) = 30%R).
Proof.
  split.
  - destruct zooming_out_fields as (Hw & Hh & Hf).
    rewrite Hw, Hh. split; [exact Hf|]. split; [lra|]. split; [lra|].
    unfold Sunburst.innerRadius. rewrite zooming_out_radiusScale.
    change (D3.y0 (Sunburst.node (Sunburst.root_datum Sample.chain))) with 0%Q.
    rewrite Q2R_zero.
    unfold Scale.sqrt_scale, Scale.apply. cbn [Scale.domain Scale.range].
    destruct (Rlt_dec 1 (/ 16)); [lra|].
    unfold Scale.deinterpolate.
    rewrite !raise_nonneg by lra. rewrite sqrt_0, sqrt_1, sqrt_sixteenth.
    destruct (Req_dec_T (1 - / 4) 0); [lra|].
    unfold Scale.interpolateNumber. apply Rmax_left.
    replace ((0 - / 4) / (1 - / 4))%R with (- / 3)%R by (field; lra). lra.
  - unfold Sample.zoomed_in, Sunburst.set_focusOnNode.
    pose proof (loaded_layoutData 600 600 Sample.chain) as Hl.
    pose proof (loaded_maxRadius 600 600 Sample.chain) as Hm.
    pose proof (loaded_minSliceAngle 600 600 Sample.chain) as Ha.
    revert Hl Hm Ha. generalize (Sunburst.loaded 600 600 Sample.chain).
    intros s1 Hl Hm Ha.
    assert (Hl1 : Sunburst.layoutData
                    (Sunburst.with_focusOnNode s1
                       (Some (Sunburst.target_of Sample.chain_B)))
                  = Sunburst.layoutData s1) by reflexivity.
    rewrite Hl in Hl1.
    assert (Hf : Sunburst.focusOnNode
                   (Sunburst.frame 1
                      (Sunburst.update
                         (Sunburst.with_focusOnNode s1
                            (Some (Sunburst.target_of Sample.chain_B)))))
                 = Some (Sunburst.target_of Sample.chain_B)).
    { now rewrite (proj2 (proj2 (frame_fields _ _))),
        (proj2 (proj2 (update_fields _))). }
    assert (Er : Sunburst.radiusScale
                   (Sunburst.frame 1
                      (Sunburst.update
                         (Sunburst.with_focusOnNode s1
                            (Some (Sunburst.target_of Sample.chain_B)))))
                 = Scale.mk (/ 4, 1)%R (300 * 0.1, 300)%R).
    { rewrite (radiusScale_frame_update 1 _ Hl1), interpolate_1, focusD_target.
      change (Sunburst.maxRadius
                (Sunburst.with_focusOnNode s1
                   (Some (Sunburst.target_of Sample.chain_B))))
        with (Sunburst.maxRadius s1).
      rewrite Hm. change (Sunburst.fy0 (Sunburst.box_of Sample.chain_B)) with (1 # 4)%Q.
      assert (Eq : Q2R (1 # 4) = (/ 4)%R) by (unfold Q2R; simpl; lra).
      rewrite Eq, Rmin_left by lra. f_equal. f_equal; lra. }
    split; [exact Hf|]. split; [|split; [|split]].
    + unfold Sunburst.focusD. rewrite Hf. cbn [Sunburst.__dataNode Sunburst.target_of].
      rewrite frame_minSliceAngle, update_minSliceAngle.
      change (Sunburst.minSliceAngle
                (Sunburst.with_focusOnNode s1
                   (Some (Sunburst.target_of Sample.chain_B))))
        with (Sunburst.minSliceAngle s1).
      rewrite Ha. vm_compute. reflexivity.
    + rewrite frame_maxRadius, update_maxRadius.
      change (Sunburst.maxRadius
                (Sunburst.with_focusOnNode s1
                   (Some (Sunburst.target_of Sample.chain_B))))
        with (Sunburst.maxRadius s1).
      rewrite Hm, Rmin_left by lra. lra.
    + unfold Sunburst.innerRadius. rewrite Er.
      change (D3.y0 (Sunburst.node (Sunburst.root_datum Sample.chain))) with 0%Q.
      rewrite Q2R_zero, sqrt_scale_eq by lra.
      rewrite !raise_nonneg by lra. rewrite sqrt_0, sqrt_1, sqrt_quarter.
      unfold Scale.interpolateNumber. apply Rmax_left.
      replace ((0 - / 2) / (1 - / 2))%R with (- 1)%R by (field; lra). lra.
    + unfold Sunburst.outerRadius. rewrite Er.
      change (D3.y1 (Sunburst.node (Sunburst.root_datum Sample.chain))) with (1 # 4)%Q.
      assert (Eq : Q2R (1 # 4) = (/ 4)%R) by (unfold Q2R; simpl; lra).
      rewrite Eq, sqrt_scale_min by lra. rewrite Rmax_right by lra. lra.
Qed.

End Render.

(* ------------------------------------------------------------------ *)
(** ** What the layout keeps of the data: totals, raw nodes, order *)

Module Structure.
Import D3 Invariants Shape TreeFacts PartitionFacts StageFacts LayoutFacts.
Local Open Scope Q_scope.

(** *** The raw nodes behind a tree *)

Section StageData.
Variable f : Node -> Node.
Hypothesis children_f :
  forall n, Permutation (children (f n)) (map f (children n)).
Hypothesis data_f : forall n, data (f n) = data n.

Lemma stage_data (n : Node) :
  Permutation (map data (preorder (f n))) (map data (preorder n)).
Proof.
  induction n as [n IH] using node_induction.
  rewrite (OrderFacts.preorder_eq (f n)), (OrderFacts.preorder_eq n).
  cbn [map]. rewrite data_f. constructor.
  rewrite (Permutation_flat_map preorder (children_f n)).
  induction IH as [|c cs Hc Hcs IHcs]; cbn [map flat_map]; [reflexivity|].
  rewrite !map_app. now apply Permutation_app.
Qed.
End StageData.

Lemma sort_data cmp n : data (sort cmp n) = data n.
Proof. now destruct n. Qed.

Lemma positionNode_height n a b c d node :
  height (positionNode n a b c d node) = height node.
Proof. now rewrite positionNode_eq. Qed.

Lemma positionNode_raw n node :
  forall a b c d,
    map data (preorder (positionNode n a b c d node)) = map data (preorder node).
Proof.
  induction node as [node IH] using node_induction. intros a b c d.
  rewrite positionNode_eq.
  destruct node as [da de he va xa xb ya yb cs].
  cbn [preorder children data depth height value map] in *. f_equal.
  generalize (child_y0 n (mkNode da de he va xa xb ya yb cs)) as u.
  generalize (child_y1 n (mkNode da de he va xa xb ya yb cs)) as v.
  generalize (dice_k a c (mkNode da de he va xa xb ya yb cs)) as k.
  intros k v u. generalize a as x. clear a.
  induction IH as [|m l Hm Hl IHl]; intros x; cbn [spread map flat_map]; [reflexivity|].
  rewrite !map_app, Hm, IHl. reflexivity.
Qed.

Lemma prepared_raw state root :
  Permutation (map data (preorder (Sunburst.prepared state root)))
              (raw_preorder root).
Proof.
  assert (E : Permutation
                (map data (preorder (sum (Sunburst.size state) (hierarchy root))))
                (raw_preorder root)).
  { rewrite stage_data.
    - unfold hierarchy. now rewrite hierarchy_preorder.
    - intros m. now rewrite sum_children.
    - intros m. apply sum_data. }
  unfold Sunburst.prepared. destruct (Sunburst.sort state); [|exact E].
  rewrite stage_data; [exact E|apply sort_children|apply sort_data].
Qed.

Lemma layout_raw state root :
  Permutation (map data (preorder (Sunburst.layout state root)))
              (raw_preorder root).
Proof.
  rewrite layout_eq. unfold partition. rewrite positionNode_raw.
  apply prepared_raw.
Qed.

(** *** Totals *)

Lemma subtree_sizes_eq size n :
  Sunburst.subtree_sizes size n = own_sum size (map data (preorder n)).
Proof.
  unfold Sunburst.subtree_sizes, own_sum.
  induction (preorder n) as [|m l IH]; cbn [map fold_right]; [reflexivity|].
  now rewrite IH.
Qed.

Lemma own_sum_app size l l' :
  own_sum size (l ++ l') == own_sum size l + own_sum size l'.
Proof.
  unfold own_sum. induction l as [|r l IH]; cbn [app fold_right].
  - lra.
  - rewrite IH. lra.
Qed.

Lemma own_sum_perm size l l' :
  Permutation l l' -> own_sum size l == own_sum size l'.
Proof.
  unfold own_sum.
  induction 1 as [|x l l' _ IH|x y l|l l' l'' _ IH1 _ IH2]; cbn [fold_right].
  - reflexivity.
  - rewrite IH. reflexivity.
  - lra.
  - now rewrite IH1.
Qed.

Lemma subtree_sizes_children size n :
  Sunburst.subtree_sizes size n
  == num_or_zero (size (data n))
     + fold_right (fun c acc => Sunburst.subtree_sizes size c + acc) 0 (children n).
Proof.
  rewrite subtree_sizes_eq, OrderFacts.preorder_eq. cbn [map own_sum fold_right].
  fold (own_sum size (map data (flat_map preorder (children n)))).
  apply Qplus_comp; [reflexivity|].
  induction (children n) as [|c cs IH]; cbn [flat_map map fold_right].
  - reflexivity.
  - rewrite map_app, own_sum_app, IH, subtree_sizes_eq. reflexivity.
Qed.

Lemma sum_summed size n : summed size (sum size n).
Proof.
  induction n as [n IH] using node_induction. unfold summed.
  rewrite sum_value, subtree_sizes_children, sum_data, sum_children.
  apply Qplus_comp; [reflexivity|].
  induction IH as [|c cs Hc Hcs IHcs]; cbn [map total fold_right]; [reflexivity|].
  fold (total (map (sum size) cs)). unfold summed in Hc.
  rewrite IHcs, Hc. reflexivity.
Qed.

Lemma sum_all_summed size n : Forall (summed size) (preorder (sum size n)).
Proof.
  apply (@stage_all (sum size) (fun _ => True) (summed size)).
  - intros m. now rewrite sum_children.
  - intros m _. apply sum_summed.
  - apply Forall_forall. trivial.
Qed.

Lemma sort_all_summed size cmp n :
  Forall (summed size) (preorder n) ->
  Forall (summed size) (preorder (sort cmp n)).
Proof.
  apply (@stage_all (sort cmp) (summed size) (summed size)).
  - apply sort_children.
  - intros m H. apply Forall_preorder in H. destruct H as [H _].
    unfold summed in *. rewrite sort_value, H, !subtree_sizes_eq.
    apply own_sum_perm. symmetry.
    apply stage_data; [apply sort_children|apply sort_data].
Qed.

Lemma prepared_summed state root :
  Forall (summed (Sunburst.size state)) (preorder (Sunburst.prepared state root)).
Proof.
  unfold Sunburst.prepared. destruct (Sunburst.sort state).
  - apply sort_all_summed, sum_all_summed.
  - apply sum_all_summed.
Qed.

Lemma layout_summed state root :
  Forall (summed (Sunburst.size state)) (preorder (Sunburst.layout state root)).
Proof.
  rewrite layout_eq. unfold partition.
  apply (@pass_all _ (fun _ _ _ _ m => Forall (summed (Sunburst.size state)) (preorder m))
                   (summed (Sunburst.size state))).
  - intros a b c d node H. apply Forall_preorder in H. destruct H as [H _].
    unfold summed in *.
    rewrite positionNode_value, H, !subtree_sizes_eq, positionNode_raw. reflexivity.
  - intros a b c d node H. now apply hereditary_children.
  - apply prepared_summed.
Qed.

(** *** Order of the siblings *)

(** A consistent comparator never says both that [a] comes after [b]
    and that [b] comes after [a]. *)
Lemma consistent_total (A : Type) (cmp : A -> A -> Q) :
  consistent cmp -> forall a b, 0 < cmp a b -> cmp b a <= 0.
Proof.
  intros (R & _ & _ & _ & T) a b H.
  destruct (Qlt_le_dec 0 (cmp b a)) as [L|L]; [|exact L].
  pose proof (T a b a H L) as H1. pose proof (R a) as H2. lra.
Qed.

Section Sorting.
Variable A : Type.
Variable cmp : A -> A -> Q.
Hypothesis cmp_total : forall a b, 0 < cmp a b -> cmp b a <= 0.

Lemma insert_HdRel (b a : A) (l : list A) :
  le_by cmp b a -> HdRel (le_by cmp) b l -> HdRel (le_by cmp) b (insert cmp a l).
Proof.
  intros Hba Hl. destruct l as [|c l]; cbn [insert]; [now constructor|].
  destruct (Qlt_le_dec 0 (cmp a c)); constructor; [|exact Hba].
  now inversion Hl.
Qed.

Lemma insert_sorted (a : A) (l : list A) :
  Sorted (le_by cmp) l -> Sorted (le_by cmp) (insert cmp a l).
Proof.
  induction 1 as [|b l Hl IH Hb]; cbn [insert].
  - repeat constructor.
  - destruct (Qlt_le_dec 0 (cmp a b)) as [Hab|Hab].
    + constructor; [exact IH|]. apply insert_HdRel; [|exact Hb].
      now apply cmp_total.
    + constructor; [now constructor|]. now constructor.
Qed.

Lemma array_sort_sorted (l : list A) : Sorted (le_by cmp) (array_sort cmp l).
Proof.
  induction l as [|a l IH]; cbn [array_sort fold_right]; [constructor|].
  now apply insert_sorted.
Qed.
End Sorting.

Lemma Sorted_map (A B : Type) (g : A -> B) (R : B -> B -> Prop) (l : list A) :
  Sorted (fun a b => R (g a) (g b)) l <-> Sorted R (map g l).
Proof.
  induction l as [|a l IH]; cbn [map]; [split; constructor|].
  split; intros H; inversion H as [|? ? Hs Hh]; subst; constructor;
    try (now apply IH);
    destruct l; cbn [map] in *; constructor; now inversion Hh.
Qed.

Lemma sort_fields cmp n : Sunburst.fields (sort cmp n) = Sunburst.fields n.
Proof. now destruct n. Qed.

Lemma positionNode_fields n a b c d node :
  Sunburst.fields (positionNode n a b c d node) = Sunburst.fields node.
Proof. now rewrite positionNode_eq. Qed.

Section BySort.
Variable c : RawNode * nat * nat * Q -> RawNode * nat * nat * Q -> Q.
Hypothesis c_total : forall u v, 0 < c u v -> c v u <= 0.

Lemma ordered_fields (l l' : list Node) :
  map Sunburst.fields l = map Sunburst.fields l' ->
  Sorted (Sunburst.in_order (Sunburst.by_fields c)) l ->
  Sorted (Sunburst.in_order (Sunburst.by_fields c)) l'.
Proof.
  intros E H.
  apply (Sorted_map Sunburst.fields (fun u v => c u v <= 0)).
  rewrite <- E.
  now apply (Sorted_map Sunburst.fields (fun u v => c u v <= 0)).
Qed.

Lemma sort_ordered (n : Node) : ordered c (sort (Sunburst.by_fields c) n).
Proof.
  unfold ordered. destruct n as [da de he va xa xb ya yb cs].
  cbn [sort children].
  set (keyed := map (fun m => (m, sort (Sunburst.by_fields c) m)) cs).
  set (keycmp := fun p q : Node * Node => Sunburst.by_fields c (fst p) (fst q)).
  assert (Hs : Sorted (fun p q => keycmp p q <= 0) (array_sort keycmp keyed)).
  { apply array_sort_sorted. intros p q. unfold keycmp, Sunburst.by_fields.
    apply c_total. }
  assert (Hf : Forall (fun p => Sunburst.fields (snd p) = Sunburst.fields (fst p))
                      (array_sort keycmp keyed)).
  { eapply Permutation_Forall; [symmetry; apply array_sort_perm|].
    unfold keyed. apply Forall_map, Forall_forall. intros m _. apply sort_fields. }
  apply (Sorted_map Sunburst.fields (fun u v => c u v <= 0)).
  rewrite map_map.
  apply (Sorted_map (fun p : Node * Node => Sunburst.fields (fst p))
                    (fun u v => c u v <= 0)) in Hs.
  erewrite map_ext_Forall; [exact Hs|exact Hf].
Qed.

Lemma sort_all_ordered (n : Node) :
  Forall (ordered c) (preorder (sort (Sunburst.by_fields c) n)).
Proof.
  apply (@stage_all (sort (Sunburst.by_fields c)) (fun _ => True) (ordered c)).
  - apply sort_children.
  - intros m _. apply sort_ordered.
  - apply Forall_forall. trivial.
Qed.

Lemma spread_fields n u v k (cs : list Node) :
  forall x,
    map Sunburst.fields
        (map (fun p : Q * Q * Node => positionNode n (fst (fst p)) u (snd (fst p)) v (snd p))
             (spread k x cs))
    = map Sunburst.fields cs.
Proof.
  induction cs as [|m cs IH]; intros x; cbn [spread map]; [reflexivity|].
  now rewrite IH, positionNode_fields.
Qed.

Lemma partition_ordered n a b c' d node :
  Forall (ordered c) (preorder node) ->
  Forall (ordered c) (preorder (positionNode n a b c' d node)).
Proof.
  apply (@pass_all n (fun _ _ _ _ m => Forall (ordered c) (preorder m)) (ordered c)).
  - clear a b c' d node. intros a b c' d node H.
    apply Forall_preorder in H. destruct H as [H _].
    unfold ordered in *. rewrite positionNode_eq. cbn [children].
    eapply ordered_fields; [|exact H]. symmetry. apply spread_fields.
  - clear a b c' d node. intros a b c' d node H. now apply hereditary_children.
Qed.

Lemma layout_ordered state root :
  Sunburst.sort state = Some (Sunburst.by_fields c) ->
  Forall (ordered c) (preorder (Sunburst.layout state root)).
Proof.
  intros E. rewrite layout_eq. unfold partition. apply partition_ordered.
  unfold Sunburst.prepared. rewrite E. apply sort_all_ordered.
Qed.
End BySort.

(** Without a comparator the children keep the order of the data. *)
Lemma hierarchy_child_data d r :
  map data (children (hierarchy_from d r)) = raw_children r.
Proof.
  destruct r as [nm v cs]. cbn [hierarchy_from children raw_children].
  rewrite map_map. erewrite map_ext; [apply map_id|].
  intros m. apply hierarchy_data_root.
Qed.

Lemma hierarchy_all_mirrors r : forall d, Forall mirrors (preorder (hierarchy_from d r)).
Proof.
  induction r as [r IH] using raw_induction. intros d.
  apply Forall_preorder. split.
  - unfold mirrors. now rewrite hierarchy_child_data, hierarchy_data_root.
  - rewrite hierarchy_children. apply Forall_map.
    rewrite Forall_forall in *. intros m Hm. now apply IH.
Qed.

Lemma sum_all_mirrors size n :
  Forall mirrors (preorder n) -> Forall mirrors (preorder (sum size n)).
Proof.
  apply (@stage_all (sum size) mirrors mirrors).
  - intros m. now rewrite sum_children.
  - intros m H. apply Forall_preorder in H. destruct H as [H _].
    unfold mirrors in *. rewrite sum_children, sum_data, map_map.
    erewrite map_ext; [exact H|]. intros x. apply sum_data.
Qed.

Lemma spread_data n u v k (cs : list Node) :
  forall x,
    map data
        (map (fun p : Q * Q * Node => positionNode n (fst (fst p)) u (snd (fst p)) v (snd p))
             (spread k x cs))
    = map data cs.
Proof.
  induction cs as [|m cs IH]; intros x; cbn [spread map]; [reflexivity|].
  now rewrite IH, positionNode_data.
Qed.

Lemma partition_mirrors n a b c d node :
  Forall mirrors (preorder node) ->
  Forall mirrors (preorder (positionNode n a b c d node)).
Proof.
  apply (@pass_all n (fun _ _ _ _ m => Forall mirrors (preorder m)) mirrors).
  - clear. intros a b c d node H.
    apply Forall_preorder in H. destruct H as [H _].
    unfold mirrors in *. rewrite positionNode_eq. cbn [children data].
    now rewrite spread_data.
  - clear. intros a b c d node H. now apply hereditary_children.
Qed.

Lemma layout_mirrors state root :
  Sunburst.sort state = None ->
  Forall mirrors (preorder (Sunburst.layout state root)).
Proof.
  intros E. rewrite layout_eq. unfold partition. apply partition_mirrors.
  unfold Sunburst.prepared. rewrite E. apply sum_all_mirrors.
  apply hierarchy_all_mirrors.
Qed.

(** *** Nesting *)

Lemma bounded_ext (lo hi lo' hi' : Q) (m : Node) :
  lo == lo' -> hi == hi' -> bounded lo hi m -> bounded lo' hi' m.
Proof. unfold bounded. intros E1 E2 (H1 & H2 & H3). repeat split; lra. Qed.

Lemma partition_encloses n a b c d node :
  a <= c -> Forall nonneg (preorder node) ->
  Forall encloses (preorder (positionNode n a b c d node)).
Proof.
  intros Hac Hn.
  apply (@pass_all n (fun a _ c _ m => a <= c /\ Forall nonneg (preorder m)) encloses);
    [| |now split]; clear a b c d node Hac Hn.
  - intros a b c d node [Hac Hn]. unfold encloses.
    destruct (positionNode_x n b d node Hac) as [E0 E1].
    assert (Hw : within a c a b c d node) by (unfold within; repeat split; auto; lra).
    pose proof (bounds_all n Hw) as Hb.
    rewrite Forall_forall in *. intros m Hm.
    eapply bounded_ext; [| |exact (Hb m Hm)]; symmetry; assumption.
  - intros a b c d node [Hac Hn].
    assert (Hw : within a c a b c d node) by (unfold within; repeat split; auto; lra).
    pose proof (within_down n Hw) as Hd.
    rewrite Forall_forall in *. intros p Hp.
    destruct (Hd p Hp) as (_ & H2 & _ & H4). now split.
Qed.

Lemma layout_encloses state root :
  Sunburst.sizes_nonneg state root ->
  Forall encloses (preorder (Sunburst.layout state root)).
Proof.
  intros H. rewrite layout_eq. unfold partition.
  apply partition_encloses; [unfold padding, dx; lra|].
  now apply prepared_nonneg.
Qed.

(** *** The statements *)

(** X1.  The value of every datum is the total of the sizes of the raw
    nodes under it, its own included: [sum] adds a node's own size to its
    children's values, and neither [sort] nor the partition touches
    [value]. *)
Theorem value_is_subtree_total :
  forall state root,
    Sunburst.data state = Some root ->
    exists ld,
      Sunburst.layoutData (Sunburst._parseData state) = Some ld
      /\ (forall d, In d ld ->
            value (Sunburst.node d)
            == Sunburst.subtree_sizes (Sunburst.size state) (Sunburst.node d))
      /\ value (Sunburst.layout state root)
         == own_sum (Sunburst.size state) (raw_preorder root).
Proof.
  intros state root Hd.
  eexists. split; [exact (@parseData_layoutData state root Hd)|].
  pose proof (layout_summed state root) as Hs. split.
  - intros d Hin. apply layoutData_In in Hin.
    rewrite Forall_forall in Hs. exact (Hs _ Hin).
  - apply Forall_preorder in Hs. destruct Hs as [Hs _]. unfold summed in Hs.
    rewrite Hs, subtree_sizes_eq. apply own_sum_perm, layout_raw.
Qed.

Lemma value_is_subtree_total_witness :
  exists ld,
    Sunburst.layoutData
      (Sunburst._parseData (Sunburst.init 800 600 (Some Sample.nested))) = Some ld
    /\ (forall d, In d ld ->
          value (Sunburst.node d)
          == Sunburst.subtree_sizes raw_value (Sunburst.node d))
    /\ value (Sunburst.layout (Sunburst.init 800 600 (Some Sample.nested)) Sample.nested)
       == own_sum raw_value (raw_preorder Sample.nested).
Proof.
  apply (@value_is_subtree_total
           (Sunburst.init 800 600 (Some Sample.nested)) Sample.nested).
  reflexivity.
Defined.

(** X2.  [layoutData] holds one datum for every raw node of the data
    and nothing else: the raw nodes behind the data are the raw nodes of
    the tree, each as often as it occurs there. *)
Theorem one_datum_per_raw_node :
  forall state root,
    Sunburst.data state = Some root ->
    exists ld,
      Sunburst.layoutData (Sunburst._parseData state) = Some ld
      /\ Permutation (map (fun d => data (Sunburst.node d)) ld) (raw_preorder root)
      /\ List.length ld = List.length (raw_preorder root).
Proof.
  intros state root Hd.
  eexists. split; [exact (@parseData_layoutData state root Hd)|].
  assert (P : Permutation
                (map (fun d => data (Sunburst.node d))
                     (Sunburst.number_from 0 (descendants (Sunburst.layout state root))))
                (raw_preorder root)).
  { rewrite <- (map_map Sunburst.node data), number_from_nodes.
    rewrite descendants_perm. apply layout_raw. }
  split; [exact P|].
  rewrite <- (Permutation_length P). now rewrite length_map.
Qed.

Lemma one_datum_per_raw_node_witness :
  exists ld,
    Sunburst.layoutData
      (Sunburst._parseData (Sunburst.init 800 600 (Some Sample.nested))) = Some ld
    /\ Permutation (map (fun d => data (Sunburst.node d)) ld)
                   (raw_preorder Sample.nested)
    /\ List.length ld = List.length (raw_preorder Sample.nested).
Proof.
  apply (@one_datum_per_raw_node
           (Sunburst.init 800 600 (Some Sample.nested)) Sample.nested).
  reflexivity.
Defined.

(** X3.  With a [sort] comparator that reads the fields of the nodes it
    is given and is consistent (it answers 0 for a node against itself and
    its three answers are each transitive, 0 also symmetric), the children
    of every datum are in the comparator's order: no child comes after its
    right neighbour. *)
Theorem siblings_sorted :
  forall state root c,
    Sunburst.data state = Some root ->
    Sunburst.sort state = Some (Sunburst.by_fields c) ->
    consistent c ->
    exists ld,
      Sunburst.layoutData (Sunburst._parseData state) = Some ld
      /\ forall d, In d ld ->
           Sorted (Sunburst.in_order (Sunburst.by_fields c))
                  (children (Sunburst.node d)).
Proof.
  intros state root c Hd Hs Hc.
  eexists. split; [exact (@parseData_layoutData state root Hd)|].
  intros d Hin. apply layoutData_In in Hin.
  pose proof (@layout_ordered c (consistent_total Hc) state root Hs) as Ho.
  rewrite Forall_forall in Ho. exact (Ho _ Hin).
Qed.

Lemma siblings_sorted_witness :
  exists ld,
    Sunburst.layoutData (Sunburst._parseData Sample.abc_sorted) = Some ld
    /\ forall d, In d ld ->
         Sorted (Sunburst.in_order (Sunburst.by_fields Sample.largest_first))
                (children (Sunburst.node d)).
Proof.
  apply (@siblings_sorted Sample.abc_sorted Sample.abc Sample.largest_first).
  - reflexivity.
  - reflexivity.
  - unfold consistent, Sample.largest_first. repeat split; intros; lra.
Defined.

(** X4.  Without a [sort] comparator the children of every datum stand
    for the children of its raw node, in the order of the data. *)
Theorem siblings_keep_data_order :
  forall state root,
    Sunburst.data state = Some root ->
    Sunburst.sort state = None ->
    exists ld,
      Sunburst.layoutData (Sunburst._parseData state) = Some ld
      /\ forall d, In d ld ->
           map data (children (Sunburst.node d))
           = raw_children (data (Sunburst.node d)).
Proof.
  intros state root Hd Hs.
  eexists. split; [exact (@parseData_layoutData state root Hd)|].
  intros d Hin. apply layoutData_In in Hin.
  pose proof (@layout_mirrors state root Hs) as Hm.
  rewrite Forall_forall in Hm. exact (Hm _ Hin).
Qed.

Lemma siblings_keep_data_order_witness :
  exists ld,
    Sunburst.layoutData
      (Sunburst._parseData (Sunburst.init 800 600 (Some Sample.nested))) = Some ld
    /\ forall d, In d ld ->
         map data (children (Sunburst.node d))
         = raw_children (data (Sunburst.node d)).
Proof.
  apply (@siblings_keep_data_order
           (Sunburst.init 800 600 (Some Sample.nested)) Sample.nested);
    reflexivity.
Defined.

(** X5.  When no size is negative, the span of every datum starts at
    or after the start of each datum it descends from, and ends at or
    after its own start.  Nothing is said of where it ends against the
    end of its ancestors: the ends are running sums of shares. *)
Theorem descendants_start_after_ancestor :
  forall state root,
    Sunburst.data state = Some root ->
    Sunburst.sizes_nonneg state root ->
    exists ld,
      Sunburst.layoutData (Sunburst._parseData state) = Some ld
      /\ forall d e, In d ld ->
           In (Sunburst.node e) (preorder (Sunburst.node d)) ->
           x0 (Sunburst.node d) <= x0 (Sunburst.node e)
           /\ x0 (Sunburst.node e) <= x1 (Sunburst.node e).
Proof.
  intros state root Hd Hs.
  eexists. split; [exact (@parseData_layoutData state root Hd)|].
  intros d e Hin He. apply layoutData_In in Hin.
  pose proof (@layout_encloses state root Hs) as Hn.
  rewrite Forall_forall in Hn. specialize (Hn _ Hin). unfold encloses in Hn.
  rewrite Forall_forall in Hn. destruct (Hn _ He) as (H1 & H2 & _).
  now split.
Qed.

Lemma descendants_start_after_ancestor_witness :
  exists ld,
    Sunburst.layoutData
      (Sunburst._parseData (Sunburst.init 800 600 (Some Sample.abc))) = Some ld
    /\ forall d e, In d ld ->
         In (Sunburst.node e) (preorder (Sunburst.node d)) ->
         x0 (Sunburst.node d) <= x0 (Sunburst.node e)
         /\ x0 (Sunburst.node e) <= x1 (Sunburst.node e).
Proof.
  apply (@descendants_start_after_ancestor
           (Sunburst.init 800 600 (Some Sample.abc)) Sample.abc).
  - reflexivity.
  - apply Layout.abc_sizes_nonneg.
Defined.

End Structure.

(* ------------------------------------------------------------------ *)
(** ** The data join of [update] *)

Module Join.
Import Sunburst.
Local Open Scope Q_scope.

Lemma has_key_In (k : nat) (l : list LayoutDatum) :
  has_key k l = true <-> exists d, In d l /\ id d = k.
Proof.
  unfold has_key. rewrite existsb_exists.
  split; intros (d & H1 & H2); exists d; split; auto; now apply Nat.eqb_eq.
Qed.

Lemma bound_In (k : nat) (l : list Slice) :
  bound k l = true <-> In k (map key l).
Proof.
  unfold bound. rewrite existsb_exists, in_map_iff.
  split; intros (s & H1 & H2); exists s.
  - split; [now apply Nat.eqb_eq|exact H1].
  - split; [exact H2|now apply Nat.eqb_eq].
Qed.

Lemma rebind_id (l : list LayoutDatum) (s : Slice) :
  id (rebind l s) = key s.
Proof.
  unfold rebind, key.
  destruct (find _ l) as [d|] eqn:E; [|reflexivity].
  apply find_some in E. now apply Nat.eqb_eq.
Qed.

Lemma rebind_In (l : list LayoutDatum) (s : Slice) :
  has_key (key s) l = true -> In (rebind l s) l.
Proof.
  intros H. unfold rebind.
  destruct (find _ l) as [d|] eqn:E; [now apply find_some in E|].
  apply has_key_In in H. destruct H as (d & H1 & H2).
  apply (find_none _ _ E) in H1. apply Nat.eqb_neq in H1. now elim H1.
Qed.

Lemma same_key (A : Type) (f : A -> nat) (l : list A) (a b : A) :
  NoDup (map f l) -> In a l -> In b l -> f a = f b -> a = b.
Proof.
  induction l as [|x l IH]; cbn [map]; intros N Ha Hb E; [easy|].
  inversion N as [|? ? Hx Hl]; subst.
  destruct Ha as [->|Ha], Hb as [->|Hb]; auto.
  - elim Hx. rewrite E. now apply in_map.
  - elim Hx. rewrite <- E. now apply in_map.
Qed.

Lemma reconcile_eq (old : list Slice) (l : list LayoutDatum) :
  reconcile old l
  = map (kept_slice l) old
    ++ map (fun d => entered_or_updated (entering d)) (unbound old l).
Proof. unfold reconcile, unbound. now rewrite map_map. Qed.

Lemma kept_slice_key (l : list LayoutDatum) (s : Slice) :
  key (kept_slice l s) = key s.
Proof.
  unfold kept_slice. destruct (has_key _ l); [|reflexivity].
  unfold key at 1. cbn [entered_or_updated datum]. apply rebind_id.
Qed.

Lemma reconcile_keys (old : list Slice) (l : list LayoutDatum) :
  map key (reconcile old l) = map key old ++ map id (unbound old l).
Proof.
  rewrite reconcile_eq, map_app, !map_map. f_equal.
  apply map_ext. intros s. apply kept_slice_key.
Qed.

Lemma NoDup_map_filter (A : Type) (f : A -> nat) (p : A -> bool) (l : list A) :
  NoDup (map f l) -> NoDup (map f (filter p l)).
Proof.
  induction l as [|a l IH]; cbn [map filter]; intros N; [constructor|].
  inversion N as [|? ? Ha Hl]; subst.
  destruct (p a); cbn [map]; [|now apply IH].
  constructor; [|now apply IH].
  intros H. apply Ha. rewrite in_map_iff in *.
  destruct H as (x & E & Hx). exists x. split; [exact E|].
  now apply filter_In in Hx.
Qed.

Lemma reconcile_NoDup (old : list Slice) (l : list LayoutDatum) :
  NoDup (map key old) -> NoDup (map id l) -> NoDup (map key (reconcile old l)).
Proof.
  intros N1 N2. rewrite reconcile_keys.
  apply NoDup_app; [exact N1|now apply NoDup_map_filter|].
  intros k Hk Hk'. apply bound_In in Hk.
  apply in_map_iff in Hk'. destruct Hk' as (d & <- & Hd).
  apply filter_In in Hd. destruct Hd as [_ Hd]. now rewrite Hk in Hd.
Qed.

Lemma shown_NoDup (state : State) (ld : list LayoutDatum) :
  NoDup (map id ld) -> NoDup (map id (shown state ld)).
Proof. apply NoDup_map_filter. Qed.

Lemma update_shown (state : State) (ld : list LayoutDatum) :
  layoutData state = Some ld ->
  slices (update state) = reconcile (slices state) (shown state ld).
Proof. apply Render.update_slices. Qed.

Lemma update_idle (state : State) :
  layoutData state = None ->
  slices (update state) = slices state /\ zoom (update state) = zoom state.
Proof.
  intros H. destruct state. cbn in H. subst. unfold update. cbn. now split.
Qed.

Lemma shown_datum_has_slice (state : State) (ld : list LayoutDatum) (d : LayoutDatum) :
  layoutData state = Some ld ->
  NoDup (map id ld) ->
  In d (shown state ld) ->
  exists s,
    In s (slices (update state))
    /\ datum s = d /\ opacity s = 1 /\ arc_tween s = true.
Proof.
  intros Hl N1 Hd. rewrite (@update_shown state ld Hl), reconcile_eq.
  pose proof (@shown_NoDup state ld N1) as N3.
  destruct (bound (id d) (slices state)) eqn:B.
  - apply bound_In, in_map_iff in B. destruct B as (s & Hk & Hs).
    assert (K : has_key (key s) (shown state ld) = true).
    { apply has_key_In. exists d. now split. }
    exists (kept_slice (shown state ld) s). split.
    + apply in_or_app. left. now apply in_map.
    + unfold kept_slice. unfold key in K. rewrite K.
      cbn [entered_or_updated datum opacity arc_tween].
      repeat split.
      apply (same_key id (shown state ld)); auto.
      * now apply rebind_In.
      * now rewrite rebind_id.
  - exists (entered_or_updated (entering d)). split.
    + apply in_or_app. right.
      apply (in_map (fun d => entered_or_updated (entering d))). unfold unbound.
      apply filter_In. split; [exact Hd|now rewrite B].
    + now cbn.
Qed.

(** The same for a datum none of whose slices is leaving: its slice is
    not leaving either. *)
Lemma shown_datum_stays (state : State) (ld : list LayoutDatum) (d : LayoutDatum) :
  layoutData state = Some ld ->
  NoDup (map id ld) ->
  In d (shown state ld) ->
  (forall s0, In s0 (slices state) -> key s0 = id d ->
              removed s0 = false /\ fade s0 = None) ->
  exists s,
    In s (slices (update state))
    /\ datum s = d /\ opacity s = 1 /\ removed s = false /\ fade s = None.
Proof.
  intros Hl N1 Hd Hf. rewrite (@update_shown state ld Hl), reconcile_eq.
  pose proof (@shown_NoDup state ld N1) as N3.
  destruct (bound (id d) (slices state)) eqn:B.
  - apply bound_In, in_map_iff in B. destruct B as (s & Hk & Hs).
    assert (K : has_key (key s) (shown state ld) = true).
    { apply has_key_In. exists d. now split. }
    destruct (Hf s Hs Hk) as [F1 F2].
    exists (kept_slice (shown state ld) s). split.
    + apply in_or_app. left. now apply in_map.
    + unfold kept_slice. unfold key in K. rewrite K.
      cbn [entered_or_updated datum opacity removed fade].
      repeat split; auto.
      apply (same_key id (shown state ld)); auto.
      * now apply rebind_In.
      * now rewrite rebind_id.
  - exists (entered_or_updated (entering d)). split.
    + apply in_or_app. right.
      apply (in_map (fun d => entered_or_updated (entering d))). unfold unbound.
      apply filter_In. split; [exact Hd|now rewrite B].
    + now cbn.
Qed.

(** X6.  After [update] there is one slice for every datum that passes
    the filter, bound to that datum, at full opacity and with its arc
    re-drawn by the transition; and no two slices of the document share a
    key, provided none did before. *)
Theorem one_slice_per_shown_datum :
  forall state ld,
    layoutData state = Some ld ->
    NoDup (map id ld) ->
    NoDup (map key (slices state)) ->
    NoDup (map key (slices (update state)))
    /\ forall d, In d (shown state ld) ->
         exists s,
           In s (slices (update state))
           /\ datum s = d /\ opacity s = 1 /\ arc_tween s = true.
Proof.
  intros state ld Hl N1 N2. split.
  - rewrite (@update_shown state ld Hl).
    apply reconcile_NoDup; [exact N2|]. now apply shown_NoDup.
  - intros d Hd. now apply (@shown_datum_has_slice state ld d).
Qed.

Lemma one_slice_per_shown_datum_witness :
  NoDup (map key (slices (update (_parseData (init 800 600 (Some Sample.abc))))))
  /\ forall d,
       In d (shown (_parseData (init 800 600 (Some Sample.abc)))
                   (number_from 0 (D3.descendants
                      (layout (init 800 600 (Some Sample.abc)) Sample.abc)))) ->
       exists s,
         In s (slices (update (_parseData (init 800 600 (Some Sample.abc)))))
         /\ datum s = d /\ opacity s = 1 /\ arc_tween s = true.
Proof.
  apply (@one_slice_per_shown_datum
           (_parseData (init 800 600 (Some Sample.abc)))
           (number_from 0 (D3.descendants
              (layout (init 800 600 (Some Sample.abc)) Sample.abc)))).
  - apply LayoutFacts.parseData_layoutData. reflexivity.
  - rewrite LayoutFacts.number_from_ids. apply seq_NoDup.
  - constructor.
Defined.

(** X7.  After [update] every slice of the document is of one of two
    kinds: its key passes the filter, and then it is at full opacity and
    bound to a datum that passes the filter; or its key does not, and
    then it is fading to opacity 0 and marked for removal. *)
Theorem slices_are_shown_or_leaving :
  forall state ld,
    layoutData state = Some ld ->
    Forall (fun s =>
              (has_key (key s) (shown state ld) = true
               /\ opacity s = 1 /\ In (datum s) (shown state ld))
              \/ (has_key (key s) (shown state ld) = false
                  /\ fade s = Some 0 /\ removed s = true))
           (slices (update state)).
Proof.
  intros state ld Hl. apply Forall_forall. intros s Hs.
  rewrite (@update_shown state ld Hl), reconcile_eq in Hs.
  apply in_app_or in Hs. destruct Hs as [Hs|Hs]; apply in_map_iff in Hs.
  - destruct Hs as (s0 & <- & _). rewrite kept_slice_key.
    unfold kept_slice, key.
    destruct (has_key (id (datum s0)) (shown state ld)) eqn:K.
    + left. cbn [entered_or_updated datum opacity]. repeat split.
      now apply rebind_In.
    + right. now cbn.
  - destruct Hs as (d & <- & Hd). left.
    unfold unbound in Hd. apply filter_In in Hd. destruct Hd as [Hd _].
    cbn [entered_or_updated entering datum opacity key]. repeat split; [|exact Hd].
    apply has_key_In. now exists d.
Qed.

Lemma slices_are_shown_or_leaving_witness :
  Forall (fun s =>
            (has_key (key s)
               (shown (loaded 800 600 Sample.abc) (Sample.data_of Sample.abc)) = true
             /\ opacity s = 1
             /\ In (datum s)
                   (shown (loaded 800 600 Sample.abc) (Sample.data_of Sample.abc)))
            \/ (has_key (key s)
                  (shown (loaded 800 600 Sample.abc) (Sample.data_of Sample.abc)) = false
                /\ fade s = Some 0 /\ removed s = true))
         (slices (update (loaded 800 600 Sample.abc))).
Proof.
  apply (@slices_are_shown_or_leaving
           (loaded 800 600 Sample.abc) (Sample.data_of Sample.abc)).
  apply Render.loaded_layoutData.
Defined.

(** X8.  [update] takes no slice out of the document and takes back no
    removal: every slice is still there afterwards under its key, with
    its event handlers, and a slice that was marked for removal is still
    marked, also when its key passes the filter again. *)
Theorem removal_is_never_taken_back :
  forall state ld,
    layoutData state = Some ld ->
    Forall (fun s =>
              exists s',
                In s' (slices (update state))
                /\ key s' = key s
                /\ on_click s' = on_click s
                /\ on_mouseover s' = on_mouseover s
                /\ on_mouseout s' = on_mouseout s
                /\ (removed s = true -> removed s' = true)
                /\ (fade s = Some 0 -> fade s' = Some 0))
           (slices state).
Proof.
  intros state ld Hl. apply Forall_forall. intros s Hs.
  rewrite (@update_shown state ld Hl), reconcile_eq.
  exists (kept_slice (shown state ld) s). split.
  - apply in_or_app. left. now apply in_map.
  - split; [apply kept_slice_key|]. unfold kept_slice.
    destruct (has_key _ _); cbn; repeat split; auto.
Qed.

Lemma removal_is_never_taken_back_witness :
  Forall (fun s =>
            exists s',
              In s' (slices (update (loaded 800 600 Sample.abc)))
              /\ key s' = key s
              /\ on_click s' = on_click s
              /\ on_mouseover s' = on_mouseover s
              /\ on_mouseout s' = on_mouseout s
              /\ (removed s = true -> removed s' = true)
              /\ (fade s = Some 0 -> fade s' = Some 0))
         (slices (loaded 800 600 Sample.abc)).
Proof.
  apply (@removal_is_never_taken_back
           (loaded 800 600 Sample.abc) (Sample.data_of Sample.abc)).
  apply Render.loaded_layoutData.
Defined.

End Join.

(* ------------------------------------------------------------------ *)
(** ** What holds throughout the life of the component *)

Module Lifecycle.
Import Sunburst.
Local Open Scope R_scope.

Lemma init_steady (w h : R) : steady (init w h None).
Proof.
  unfold steady, init. cbn. repeat split; try discriminate; constructor.
Qed.

Lemma kept_slice_handled (l : list LayoutDatum) (s : Slice) :
  handled s -> handled (kept_slice l s).
Proof. unfold handled, kept_slice. destruct (has_key _ l); now cbn. Qed.

Lemma update_steady (state : State) : steady state -> steady (update state).
Proof.
  intros (A & B & C & D & E & F & G). unfold steady.
  rewrite Render.update_angleScale, Render.update_radius_domain,
          Render.update_layoutData.
  split; [exact A|]. split; [exact B|].
  destruct (layoutData state) as [ld|] eqn:L.
  - rewrite (@Join.update_shown state ld L), (@Render.update_zoom state ld L).
    split; [|split; [|split; [|split]]].
    + intros z t Hz. injection Hz as <-. cbn [yd Scale.interpolate snd].
      rewrite B. unfold Scale.interpolateNumber. ring.
    + apply Join.reconcile_NoDup; [exact D|]. apply Join.shown_NoDup. now apply E.
    + exact E.
    + rewrite Join.reconcile_eq. apply Forall_app. split.
      * apply Forall_map. rewrite Forall_forall in *. intros s Hs.
        now apply kept_slice_handled, F.
      * apply Forall_map, Forall_forall. intros d _. now cbn.
    + discriminate.
  - destruct (Join.update_idle state L) as [-> ->]. auto 10.
Qed.

Lemma parseData_steady (state : State) : steady state -> steady (_parseData state).
Proof.
  intros (A & B & C & D & E & F & G). unfold _parseData.
  destruct (data state) as [root|]; [|unfold steady; auto 10].
  unfold steady, set_layoutData.
  cbn [angleScale radiusScale zoom slices layoutData].
  repeat split; auto; try discriminate.
  intros ld Hld. injection Hld as <-.
  rewrite LayoutFacts.number_from_ids. apply seq_NoDup.
Qed.

Lemma frame_steady (t : R) (state : State) : steady state -> steady (frame t state).
Proof.
  intros (A & B & C & D & E & F & G). unfold frame.
  destruct (zoom state) as [z|] eqn:Z; [|unfold steady; rewrite Z; auto 10].
  unfold steady, set_angleScale, set_radiusScale, Scale.set_domain.
  cbn [angleScale radiusScale zoom slices layoutData Scale.range Scale.domain].
  rewrite Z. repeat split; auto.
Qed.

Lemma relabel_key (state : State) (s : Slice) : key (relabel state s) = key s.
Proof. unfold relabel. now destruct (display_tween s). Qed.

Lemma relabel_handled (state : State) (s : Slice) :
  handled s -> handled (relabel state s).
Proof. unfold relabel. now destruct (display_tween s). Qed.

Lemma slices_steady (state : State) (sl : list Slice) :
  steady state ->
  NoDup (map key sl) -> Forall handled sl -> (slices state = [] -> sl = []) ->
  steady (set_slices state sl).
Proof.
  intros (A & B & C & D & E & F & G) N H Z. unfold steady, set_slices.
  cbn [angleScale radiusScale zoom slices layoutData].
  repeat split; auto.
Qed.

Lemma tick_steady (t : R) (state : State) : steady state -> steady (tick t state).
Proof.
  intros H. apply (frame_steady t) in H. unfold tick.
  destruct H as (A & B & C & D & E & F & G).
  apply slices_steady; [unfold steady; auto 10| | |].
  - rewrite map_map. erewrite map_ext; [exact D|].
    intros s. apply relabel_key.
  - apply Forall_map. eapply Forall_impl; [|exact F].
    intros s. apply relabel_handled.
  - intros Z. now rewrite Z.
Qed.

Lemma settle_steady (state : State) : steady state -> steady (settle state).
Proof.
  intros H. unfold settle. pose proof H as (A & B & C & D & E & F & G).
  apply slices_steady; [exact H| | |].
  - now apply Join.NoDup_map_filter.
  - rewrite Forall_forall in *. intros s Hs. apply F.
    now apply filter_In in Hs.
  - intros Z. now rewrite Z.
Qed.

Lemma frame_angle_range (t : R) (state : State) :
  Scale.range (angleScale (frame t state)) = Scale.range (angleScale state).
Proof. unfold frame. now destruct (zoom state). Qed.

Lemma parseData_angleScale (state : State) :
  angleScale (_parseData state) = angleScale state.
Proof. unfold _parseData. now destruct (data state). Qed.

(** No step changes the range of the angle scale. *)
Lemma reachable_angle_range : forall state,
  Reachable state -> Scale.range (angleScale state) = (0, 2 * PI).
Proof.
  fix IH 2. intros state H.
  destruct H as [w h|v s H|v s H|v s H|v s H|t s H
                |v s H|v s H|v s H|v s H|s H|t s H|s H].
  - reflexivity.
  - unfold set_data. rewrite Render.update_angleScale, parseData_angleScale.
    exact (IH s H).
  - unfold set_focusOnNode. rewrite Render.update_angleScale. exact (IH s H).
  - unfold set_minSliceAngle. rewrite Render.update_angleScale. exact (IH s H).
  - unfold set_showLabels. rewrite Render.update_angleScale. exact (IH s H).
  - rewrite frame_angle_range. exact (IH s H).
  - rewrite parseData_angleScale. exact (IH s H).
  - exact (IH s H).
  - exact (IH s H).
  - exact (IH s H).
  - rewrite Render.update_angleScale. exact (IH s H).
  - unfold tick, set_slices. cbn [angleScale]. rewrite frame_angle_range.
    exact (IH s H).
  - exact (IH s H).
Qed.

(** *** The statement *)

(** X9.  In every state the component goes through, from [init] by
    setting [data], [focusOnNode], [minSliceAngle] or [showLabels]
    (rendered at once or stored and rendered later), by frames and ticks
    of the transition and by the removal of exited slices: the angle
    scale ranges over the full circle, the radial domain ends at 1, no two
    slices share a key, every slice has its three event handlers, the ids
    of [layoutData] are distinct, and nothing is drawn as long as there is
    no [layoutData]. *)
Theorem reachable_states_are_steady :
  forall state, Reachable state -> steady state.
Proof.
  fix IH 2. intros state H.
  destruct H as [w h|v s H|v s H|v s H|v s H|t s H
                |v s H|v s H|v s H|v s H|s H|t s H|s H].
  - apply init_steady.
  - unfold set_data. apply update_steady, parseData_steady. exact (IH s H).
  - unfold set_focusOnNode. apply update_steady. exact (IH s H).
  - unfold set_minSliceAngle. apply update_steady. exact (IH s H).
  - unfold set_showLabels. apply update_steady. exact (IH s H).
  - apply frame_steady. exact (IH s H).
  - apply parseData_steady. exact (IH s H).
  - exact (IH s H).
  - exact (IH s H).
  - exact (IH s H).
  - apply update_steady. exact (IH s H).
  - apply tick_steady. exact (IH s H).
  - apply settle_steady. exact (IH s H).
Qed.

Lemma reachable_states_are_steady_witness :
  steady (loaded 800 600 Sample.abc).
Proof.
  apply (@reachable_states_are_steady (loaded 800 600 Sample.abc)).
  unfold loaded. apply reach_data, reach_init.
Defined.

End Lifecycle.

(** * The labels of the document *)

Module Labels.
Import Sunburst.
Local Open Scope R_scope.












(** *** The statement *)




End Labels.

(* ------------------------------------------------------------------ *)
(** ** Angles and radii of the wedges *)

Module Geometry.
Import Scale Sunburst ScaleFacts.
Local Open Scope R_scope.

(** *** The clamped linear scale *)

Lemma ratio_unit (a b x : R) : a < x -> x < b -> 0 < (x - a) / (b - a) < 1.
Proof.
  intros H1 H2. assert (Hd : 0 < b - a) by lra. split.
  - apply Rdiv_lt_0_compat; lra.
  - apply (Rmult_lt_reg_r (b - a)); [exact Hd|].
    unfold Rdiv. rewrite Rmult_assoc, Rinv_l by lra. lra.
Qed.

Lemma deinterpolateClamp_unit (a b x : R) :
  a <= b -> 0 <= deinterpolateClamp (fun x => x) a b x <= 1.
Proof.
  intros H. unfold deinterpolateClamp, deinterpolate.
  destruct (Rle_dec x a); [lra|]. destruct (Rle_dec b x); [lra|].
  destruct (Req_dec_T (b - a) 0); [lra|].
  pose proof (@ratio_unit a b x). lra.
Qed.

Lemma interpolateNumber_between (a b t : R) :
  0 <= t <= 1 -> Rmin a b <= interpolateNumber a b t <= Rmax a b.
Proof.
  intros H. unfold interpolateNumber, Rmin, Rmax.
  destruct (Rle_dec a b); split; nra.
Qed.

Lemma linear_clamped_between (s : Scale.t) (x : R) :
  Rmin (fst (range s)) (snd (range s))
  <= linear_clamped s x
  <= Rmax (fst (range s)) (snd (range s)).
Proof.
  unfold linear_clamped, apply.
  destruct (domain s) as [d0 d1]. destruct (range s) as [r0 r1]. cbn [fst snd].
  destruct (Rlt_dec d1 d0).
  - rewrite Rmin_comm, Rmax_comm. apply interpolateNumber_between.
    apply deinterpolateClamp_unit. lra.
  - apply interpolateNumber_between. apply deinterpolateClamp_unit. lra.
Qed.

Lemma deinterpolateClamp_mono (a b x y : R) :
  a <= b -> x <= y ->
  deinterpolateClamp (fun x => x) a b x <= deinterpolateClamp (fun x => x) a b y.
Proof.
  intros H Hxy.
  pose proof (@deinterpolateClamp_unit a b x H) as Ux.
  pose proof (@deinterpolateClamp_unit a b y H) as Uy.
  unfold deinterpolateClamp, deinterpolate in *.
  destruct (Rle_dec x a); [destruct (Rle_dec y a); lra|].
  destruct (Rle_dec y a); [lra|].
  destruct (Rle_dec b x); [destruct (Rle_dec b y); lra|].
  destruct (Rle_dec b y); [lra|].
  destruct (Req_dec_T (b - a) 0); [lra|].
  apply Rmult_le_compat_r; [|lra].
  apply Rlt_le, Rinv_0_lt_compat. lra.
Qed.

Lemma linear_clamped_mono (s : Scale.t) (x y : R) :
  fst (domain s) <= snd (domain s) ->
  fst (range s) <= snd (range s) ->
  x <= y -> linear_clamped s x <= linear_clamped s y.
Proof.
  unfold linear_clamped, apply.
  destruct (domain s) as [d0 d1]. destruct (range s) as [r0 r1]. cbn [fst snd].
  intros Hd Hr Hxy. destruct (Rlt_dec d1 d0); [lra|].
  apply interpolateNumber_mono; [exact Hr|].
  now apply deinterpolateClamp_mono.
Qed.

Lemma linear_clamped_below (d0 d1 r0 r1 x : R) :
  d0 < d1 -> x <= d0 -> linear_clamped (mk (d0, d1) (r0, r1)) x = r0.
Proof.
  intros H Hx. unfold linear_clamped, apply. cbn [domain range].
  destruct (Rlt_dec d1 d0); [lra|].
  unfold deinterpolateClamp. destruct (Rle_dec x d0); [|lra].
  apply interpolateNumber_0.
Qed.

Lemma linear_clamped_above (d0 d1 r0 r1 x : R) :
  d0 < d1 -> d1 <= x -> linear_clamped (mk (d0, d1) (r0, r1)) x = r1.
Proof.
  intros H Hx. unfold linear_clamped, apply. cbn [domain range].
  destruct (Rlt_dec d1 d0); [lra|].
  unfold deinterpolateClamp. destruct (Rle_dec x d0); [lra|].
  destruct (Rle_dec d1 x); [|lra].
  apply interpolateNumber_1.
Qed.

Lemma linear_clamped_inside (d0 d1 r0 r1 x : R) :
  d0 < d1 -> d0 <= x <= d1 ->
  linear_clamped (mk (d0, d1) (r0, r1)) x
  = r0 + (r1 - r0) * ((x - d0) / (d1 - d0)).
Proof.
  intros H Hx. unfold linear_clamped, apply. cbn [domain range].
  destruct (Rlt_dec d1 d0); [lra|].
  unfold deinterpolateClamp, deinterpolate, interpolateNumber.
  destruct (Rle_dec x d0).
  - replace x with d0 by lra. field. lra.
  - destruct (Rle_dec d1 x).
    + replace x with d1 by lra. field. lra.
    + destruct (Req_dec_T (d1 - d0) 0); [lra|]. field. lra.
Qed.

Lemma maxRadius_nonneg (state : State) :
  0 <= width state -> 0 <= height state ->
  0 <= maxRadius state
  /\ maxRadius state <= width state / 2
  /\ maxRadius state <= height state / 2.
Proof.
  intros Hw Hh. unfold maxRadius, Rmin.
  destruct (Rle_dec (width state) (height state)); lra.
Qed.

(** *** The statements *)

(** X10.  In every state the component goes through, the start and the
    end angle of any wedge lie on the circle, between 0 and [2 * PI], so
    no wedge sweeps more than one turn; and while the angular domain is
    in order a wedge with [x0 <= x1] ends no earlier than it starts. *)
Theorem angles_stay_on_the_circle :
  forall state d,
    Reachable state ->
    0 <= startAngle state d <= 2 * PI
    /\ 0 <= endAngle state d <= 2 * PI
    /\ - (2 * PI) <= deltaAngle state d <= 2 * PI
    /\ (fst (domain (angleScale state)) <= snd (domain (angleScale state)) ->
        (D3.x0 (node d) <= D3.x1 (node d))%Q ->
        startAngle state d <= endAngle state d).
Proof.
  intros state d H.
  pose proof (Lifecycle.reachable_angle_range H) as A.
  pose proof PI_gt_3 as Hpi.
  pose proof (linear_clamped_between (angleScale state) (Q2R (D3.x0 (node d)))) as H0.
  pose proof (linear_clamped_between (angleScale state) (Q2R (D3.x1 (node d)))) as H1.
  rewrite A in H0, H1. cbn [fst snd] in H0, H1.
  rewrite Rmin_left, Rmax_right in H0, H1 by lra.
  unfold startAngle, endAngle, deltaAngle.
  repeat split; try lra.
  intros Hd Hx. apply linear_clamped_mono; [exact Hd|rewrite A; cbn; lra|].
  now apply Qle_Rle.
Qed.

Lemma angles_stay_on_the_circle_witness :
  0 <= startAngle (loaded 800 600 Sample.abc) Sample.abc_C <= 2 * PI
  /\ 0 <= endAngle (loaded 800 600 Sample.abc) Sample.abc_C <= 2 * PI
  /\ - (2 * PI) <= deltaAngle (loaded 800 600 Sample.abc) Sample.abc_C <= 2 * PI
  /\ (fst (domain (angleScale (loaded 800 600 Sample.abc)))
      <= snd (domain (angleScale (loaded 800 600 Sample.abc))) ->
      (D3.x0 (node Sample.abc_C) <= D3.x1 (node Sample.abc_C))%Q ->
      startAngle (loaded 800 600 Sample.abc) Sample.abc_C
      <= endAngle (loaded 800 600 Sample.abc) Sample.abc_C).
Proof.
  apply (@angles_stay_on_the_circle (loaded 800 600 Sample.abc) Sample.abc_C).
  unfold loaded. apply reach_data, reach_init.
Defined.

(** X11.  After [update], on a canvas of non-negative width and height
    and with the radial domain in order, a wedge whose band lies at or
    below the end of the domain is drawn inside the canvas: its inner
    radius is not negative and not larger than its outer radius, which
    is at most [maxRadius], and the disc of that radius around the origin
    lies inside the [viewBox] of the svg. *)
Theorem radii_fit_the_canvas :
  forall state d,
    0 <= width state -> 0 <= height state ->
    fst (domain (radiusScale state)) < snd (domain (radiusScale state)) ->
    (D3.y0 (node d) <= D3.y1 (node d))%Q ->
    Q2R (D3.y1 (node d)) <= snd (domain (radiusScale state)) ->
    0 <= innerRadius (update state) d
    /\ innerRadius (update state) d <= outerRadius (update state) d
    /\ outerRadius (update state) d <= maxRadius state
    /\ fst (fst (fst (viewBox state))) <= - maxRadius state
    /\ maxRadius state
       <= fst (fst (fst (viewBox state))) + snd (fst (viewBox state))
    /\ snd (fst (fst (viewBox state))) <= - maxRadius state
    /\ maxRadius state
       <= snd (fst (fst (viewBox state))) + snd (viewBox state).
Proof.
  intros state d Hw Hh Hd Hy Hy1.
  destruct (maxRadius_nonneg state Hw Hh) as (M0 & M1 & M2).
  unfold viewBox. cbn [fst snd].
  unfold innerRadius, outerRadius. rewrite Render.radiusScale_update.
  destruct (domain (radiusScale state)) as [d0 d1]. cbn [fst snd] in *.
  assert (Hr : maxRadius state * 0.1 <= maxRadius state) by lra.
  pose proof (@sqrt_scale_mono d0 d1 _ _ _ _ Hd Hr (Qle_Rle _ _ Hy)) as S1.
  pose proof (@sqrt_scale_mono d0 d1 _ _ _ _ Hd Hr Hy1) as S2.
  rewrite sqrt_scale_end in S2 by exact Hd.
  repeat split; try lra.
  - apply Rmax_l.
  - apply Rle_max_compat_l. exact S1.
  - apply Rmax_lub; assumption.
Qed.

Lemma radii_fit_the_canvas_witness :
  0 <= innerRadius (update (init 800 600 None)) Sample.abc_C
  /\ innerRadius (update (init 800 600 None)) Sample.abc_C
     <= outerRadius (update (init 800 600 None)) Sample.abc_C
  /\ outerRadius (update (init 800 600 None)) Sample.abc_C
     <= maxRadius (init 800 600 None)
  /\ fst (fst (fst (viewBox (init 800 600 None)))) <= - maxRadius (init 800 600 None)
  /\ maxRadius (init 800 600 None)
     <= fst (fst (fst (viewBox (init 800 600 None))))
        + snd (fst (viewBox (init 800 600 None)))
  /\ snd (fst (fst (viewBox (init 800 600 None)))) <= - maxRadius (init 800 600 None)
  /\ maxRadius (init 800 600 None)
     <= snd (fst (fst (viewBox (init 800 600 None))))
        + snd (viewBox (init 800 600 None)).
Proof.
  apply (@radii_fit_the_canvas (init 800 600 None) Sample.abc_C).
  - unfold init. cbn [width]. lra.
  - unfold init. cbn [height]. lra.
  - unfold init. cbn [radiusScale domain fst snd]. lra.
  - vm_compute. discriminate.
  - unfold init. cbn [radiusScale domain snd]. rewrite <- Render.Q2R_one.
    apply Qle_Rle. vm_compute. discriminate.
Defined.

(** *** A completed zoom *)

Lemma zoomed_angleScale (state : State) (ld : list LayoutDatum) (d : LayoutDatum) :
  layoutData state = Some ld ->
  angleScale (frame 1 (click_slice d state))
  = mk (Q2R (D3.x0 (node d)), Q2R (D3.x1 (node d))) (range (angleScale state)).
Proof.
  intros H. unfold click_slice, set_focusOnNode.
  rewrite (@Render.angleScale_frame_update 1
             (with_focusOnNode state (Some (target_of d))) ld H).
  rewrite interpolate_1. reflexivity.
Qed.

Lemma zoomed_radiusScale (state : State) (ld : list LayoutDatum) (d : LayoutDatum) :
  layoutData state = Some ld ->
  radiusScale (frame 1 (click_slice d state))
  = mk (Q2R (D3.y0 (node d)), 1) (maxRadius state * 0.1, maxRadius state).
Proof.
  intros H. unfold click_slice, set_focusOnNode.
  rewrite (@Render.radiusScale_frame_update 1
             (with_focusOnNode state (Some (target_of d))) ld H).
  rewrite interpolate_1. reflexivity.
Qed.

(** X12.  When the zoom to a clicked wedge of positive width has run to
    its end, that wedge fills the circle: it starts at angle 0 and ends at
    [2 * PI].  Wedges that lie before its span are flattened onto angle
    0, wedges after it onto [2 * PI], and a wedge inside its span sweeps
    its share of the span times [2 * PI] (for wedges with [x0 <= x1]). *)
Theorem focused_wedge_fills_circle :
  forall state ld d,
    Reachable state ->
    layoutData state = Some ld ->
    (D3.x0 (node d) < D3.x1 (node d))%Q ->
    startAngle (frame 1 (click_slice d state)) d = 0
    /\ endAngle (frame 1 (click_slice d state)) d = 2 * PI
    /\ forall e,
         (D3.x0 (node e) <= D3.x1 (node e))%Q ->
         ((D3.x1 (node e) <= D3.x0 (node d))%Q ->
          startAngle (frame 1 (click_slice d state)) e = 0
          /\ endAngle (frame 1 (click_slice d state)) e = 0)
         /\ ((D3.x1 (node d) <= D3.x0 (node e))%Q ->
             startAngle (frame 1 (click_slice d state)) e = 2 * PI
             /\ endAngle (frame 1 (click_slice d state)) e = 2 * PI)
         /\ ((D3.x0 (node d) <= D3.x0 (node e))%Q ->
             (D3.x1 (node e) <= D3.x1 (node d))%Q ->
             deltaAngle (frame 1 (click_slice d state)) e
             = 2 * PI * ((Q2R (D3.x1 (node e)) - Q2R (D3.x0 (node e)))
                         / (Q2R (D3.x1 (node d)) - Q2R (D3.x0 (node d))))).
Proof.
  intros state ld d Hr Hl Hx.
  pose proof (Lifecycle.reachable_angle_range Hr) as A.
  unfold startAngle, endAngle, deltaAngle.
  rewrite (@zoomed_angleScale state ld d Hl), A.
  apply Qlt_Rlt in Hx.
  split; [now apply linear_clamped_min|].
  split; [now apply linear_clamped_max|].
  intros e He. apply Qle_Rle in He. split; [|split].
  - intros H. apply Qle_Rle in H. split; apply linear_clamped_below; lra.
  - intros H. apply Qle_Rle in H. split; apply linear_clamped_above; lra.
  - intros H1 H3. apply Qle_Rle in H1, H3.
    rewrite !linear_clamped_inside by lra. field. lra.
Qed.

Lemma focused_wedge_fills_circle_witness :
  startAngle (frame 1 (click_slice Sample.abc_C (loaded 800 600 Sample.abc)))
             Sample.abc_C = 0
  /\ endAngle (frame 1 (click_slice Sample.abc_C (loaded 800 600 Sample.abc)))
              Sample.abc_C = 2 * PI
  /\ forall e,
       (D3.x0 (node e) <= D3.x1 (node e))%Q ->
       ((D3.x1 (node e) <= D3.x0 (node Sample.abc_C))%Q ->
        startAngle (frame 1 (click_slice Sample.abc_C (loaded 800 600 Sample.abc))) e = 0
        /\ endAngle (frame 1 (click_slice Sample.abc_C (loaded 800 600 Sample.abc))) e = 0)
       /\ ((D3.x1 (node Sample.abc_C) <= D3.x0 (node e))%Q ->
           startAngle (frame 1 (click_slice Sample.abc_C (loaded 800 600 Sample.abc))) e
           = 2 * PI
           /\ endAngle (frame 1 (click_slice Sample.abc_C (loaded 800 600 Sample.abc))) e
              = 2 * PI)
       /\ ((D3.x0 (node Sample.abc_C) <= D3.x0 (node e))%Q ->
           (D3.x1 (node e) <= D3.x1 (node Sample.abc_C))%Q ->
           deltaAngle (frame 1 (click_slice Sample.abc_C (loaded 800 600 Sample.abc))) e
           = 2 * PI * ((Q2R (D3.x1 (node e)) - Q2R (D3.x0 (node e)))
                       / (Q2R (D3.x1 (node Sample.abc_C))
                          - Q2R (D3.x0 (node Sample.abc_C))))).
Proof.
  apply (@focused_wedge_fills_circle
           (loaded 800 600 Sample.abc) (Sample.data_of Sample.abc) Sample.abc_C).
  - unfold loaded. apply reach_data, reach_init.
  - apply Render.loaded_layoutData.
  - vm_compute. reflexivity.
Defined.

(** X13.  When the zoom to a clicked wedge above the outermost band has
    run to its end, on a canvas of non-negative width and height: the
    wedges of the bands inside the clicked one are folded into the centre
    hole (outer radius at most a tenth of [maxRadius]), the outermost band
    ends at [maxRadius], and every wedge from the clicked band outwards is
    drawn between the hole and [maxRadius]. *)
Theorem zoomed_bands_between_hole_and_rim :
  forall state ld d e,
    0 <= width state -> 0 <= height state ->
    layoutData state = Some ld ->
    (D3.y0 (node d) < 1)%Q ->
    ((D3.y1 (node e) <= D3.y0 (node d))%Q ->
     outerRadius (frame 1 (click_slice d state)) e <= maxRadius state * 0.1)
    /\ ((D3.y1 (node e) == 1)%Q ->
        outerRadius (frame 1 (click_slice d state)) e = maxRadius state)
    /\ ((D3.y0 (node d) <= D3.y0 (node e))%Q ->
        (D3.y0 (node e) <= D3.y1 (node e))%Q ->
        (D3.y1 (node e) <= 1)%Q ->
        maxRadius state * 0.1 <= innerRadius (frame 1 (click_slice d state)) e
        /\ innerRadius (frame 1 (click_slice d state)) e
           <= outerRadius (frame 1 (click_slice d state)) e
        /\ outerRadius (frame 1 (click_slice d state)) e <= maxRadius state).
Proof.
  intros state ld d e Hw Hh Hl Hy.
  destruct (maxRadius_nonneg state Hw Hh) as (M0 & _).
  unfold innerRadius, outerRadius.
  rewrite (@zoomed_radiusScale state ld d Hl).
  apply Qlt_Rlt in Hy. rewrite Render.Q2R_one in Hy.
  assert (Hr : maxRadius state * 0.1 <= maxRadius state) by lra.
  split; [|split].
  - intros H. apply Qle_Rle in H.
    pose proof (@sqrt_scale_mono _ _ _ _ _ _ Hy Hr H) as S.
    rewrite sqrt_scale_start in S by exact Hy.
    apply Rmax_lub; lra.
  - intros H. apply Qeq_eqR in H. rewrite Render.Q2R_one in H. rewrite H.
    rewrite sqrt_scale_end by exact Hy. apply Rmax_right. lra.
  - intros H1 H2 H3. apply Qle_Rle in H1, H2, H3. rewrite Render.Q2R_one in H3.
    pose proof (@sqrt_scale_mono _ _ _ _ _ _ Hy Hr H1) as S1.
    pose proof (@sqrt_scale_mono _ _ _ _ _ _ Hy Hr H2) as S2.
    pose proof (@sqrt_scale_mono _ _ _ _ _ _ Hy Hr H3) as S3.
    rewrite sqrt_scale_start in S1 by exact Hy.
    rewrite sqrt_scale_end in S3 by exact Hy.
    split; [|split].
    + eapply Rle_trans; [exact S1|apply Rmax_r].
    + apply Rle_max_compat_l. exact S2.
    + apply Rmax_lub; lra.
Qed.

Lemma zoomed_bands_between_hole_and_rim_witness :
  ((D3.y1 (node (Sunburst.root_datum Sample.chain)) <= D3.y0 (node Sample.chain_B))%Q ->
   outerRadius (frame 1 (click_slice Sample.chain_B (loaded 600 600 Sample.chain)))
               (Sunburst.root_datum Sample.chain)
   <= maxRadius (loaded 600 600 Sample.chain) * 0.1)
  /\ ((D3.y1 (node (Sunburst.root_datum Sample.chain)) == 1)%Q ->
      outerRadius (frame 1 (click_slice Sample.chain_B (loaded 600 600 Sample.chain)))
                  (Sunburst.root_datum Sample.chain)
      = maxRadius (loaded 600 600 Sample.chain))
  /\ ((D3.y0 (node Sample.chain_B) <= D3.y0 (node (Sunburst.root_datum Sample.chain)))%Q ->
      (D3.y0 (node (Sunburst.root_datum Sample.chain))
       <= D3.y1 (node (Sunburst.root_datum Sample.chain)))%Q ->
      (D3.y1 (node (Sunburst.root_datum Sample.chain)) <= 1)%Q ->
      maxRadius (loaded 600 600 Sample.chain) * 0.1
      <= innerRadius (frame 1 (click_slice Sample.chain_B (loaded 600 600 Sample.chain)))
                     (Sunburst.root_datum Sample.chain)
      /\ innerRadius (frame 1 (click_slice Sample.chain_B (loaded 600 600 Sample.chain)))
                     (Sunburst.root_datum Sample.chain)
         <= outerRadius (frame 1 (click_slice Sample.chain_B (loaded 600 600 Sample.chain)))
                        (Sunburst.root_datum Sample.chain)
      /\ outerRadius (frame 1 (click_slice Sample.chain_B (loaded 600 600 Sample.chain)))
                     (Sunburst.root_datum Sample.chain)
         <= maxRadius (loaded 600 600 Sample.chain)).
Proof.
  apply (@zoomed_bands_between_hole_and_rim
           (loaded 600 600 Sample.chain) (Sample.data_of Sample.chain)
           Sample.chain_B (Sunburst.root_datum Sample.chain)).
  - destruct (Render.loaded_fields 600 600 Sample.chain) as (-> & _). lra.
  - destruct (Render.loaded_fields 600 600 Sample.chain) as (_ & ->). lra.
  - apply Render.loaded_layoutData.
  - vm_compute. reflexivity.
Defined.

End Geometry.

(* ------------------------------------------------------------------ *)
(** ** The label guide *)

Module Guide.
Import Scale Sunburst.
Local Open Scope R_scope.

Lemma middleArcLine_eq (state : State) (d : LayoutDatum) :
  middleArcLine state d
  = if Req_dec_T (meanRadius state d) 0 then no_path
    else if Req_dec_T (deltaAngle state d) 0 then no_path
    else if invertDirection ((startAngle state d + endAngle state d) / 2 - PI / 2)
         then arc_path (meanRadius state d)
                       (endAngle state d - PI / 2) (startAngle state d - PI / 2) true
         else arc_path (meanRadius state d)
                       (startAngle state d - PI / 2) (endAngle state d - PI / 2) false.
Proof.
  unfold middleArcLine, meanRadius, deltaAngle, startAngle, endAngle.
  set (a0 := linear_clamped (angleScale state) (Q2R (D3.x0 (node d)))).
  set (a1 := linear_clamped (angleScale state) (Q2R (D3.x1 (node d)))).
  replace (a1 - PI / 2 - (a0 - PI / 2)) with (a1 - a0) by lra.
  replace ((a1 - PI / 2 + (a0 - PI / 2)) / 2) with ((a0 + a1) / 2 - PI / 2) by lra.
  reflexivity.
Qed.

Lemma invertDirection_iff (x : R) : invertDirection x = true <-> 0 < x < PI.
Proof.
  unfold invertDirection.
  destruct (Rlt_dec 0 x); [destruct (Rlt_dec x PI)|]; split;
    intros H; try discriminate; try reflexivity; lra.
Qed.

Lemma meanRadius_nonneg (state : State) (d : LayoutDatum) : 0 <= meanRadius state d.
Proof. unfold meanRadius. apply Rmax_l. Qed.

Lemma long_label_fits :
  textFits (frame 1 (loaded 800 600 Sample.long_label))
           (root_datum Sample.long_label) = true.
Proof.
  unfold textFits.
  generalize (Render.long_label_perimeter 800 600).
  generalize (Render.frame_nameOf 1 (loaded 800 600 Sample.long_label)
                                  (root_datum Sample.long_label)).
  rewrite Render.loaded_nameOf.
  generalize (frame 1 (loaded 800 600 Sample.long_label)).
  intros st En Ep. rewrite En, Ep.
  destruct (Rlt_dec _ _) as [H|H]; [reflexivity|]. exfalso. apply H.
  change (String.length
            (raw_name (D3.data (node (root_datum Sample.long_label)))))
    with 50%nat.
  rewrite Render.INR_CHAR_PX, INR_IZR_INZ. change (Z.of_nat 50) with 50%Z.
  rewrite Rmin_right by lra. rewrite Rmax_right by lra.
  pose proof ScaleFacts.PI_gt_3. lra.
Qed.

(** *** The statements *)

(** X14.  A label that [textFits] accepts has a guide to run along, and
    the guide is longer than the label: [middleArcLine] returns an arc,
    and the length of that arc, which is the perimeter [textFits]
    measures, exceeds the label's length at 6 pixels per character. *)
Theorem fitting_label_has_guide :
  forall state d,
    textFits state d = true ->
    middleArcLine state d <> no_path
    /\ guide_length (middleArcLine state d) = perimeter state d
    /\ INR (String.length (nameOf state d)) * INR CHAR_PX
       < guide_length (middleArcLine state d).
Proof.
  intros state d H. unfold textFits in H.
  destruct (Rlt_dec _ _) as [Hlt|]; [clear H|discriminate].
  assert (H0 : 0 <= INR (String.length (nameOf state d)) * INR CHAR_PX).
  { apply Rmult_le_pos; apply pos_INR. }
  pose proof (meanRadius_nonneg state d) as Hr.
  unfold perimeter in *.
  assert (Hr' : 0 < meanRadius state d).
  { destruct Hr as [Hr|Hr]; [exact Hr|]. rewrite <- Hr in Hlt. lra. }
  assert (Hd : 0 < deltaAngle state d).
  { destruct (Rlt_le_dec 0 (deltaAngle state d)) as [L|L]; [exact L|].
    pose proof (Rmult_le_compat_l _ _ _ Hr L). lra. }
  rewrite middleArcLine_eq.
  destruct (Req_dec_T (meanRadius state d) 0); [lra|].
  destruct (Req_dec_T (deltaAngle state d) 0); [lra|].
  assert (E1 : Rabs (startAngle state d - PI / 2 - (endAngle state d - PI / 2))
               = deltaAngle state d).
  { unfold deltaAngle, startAngle, endAngle in *.
    rewrite Rabs_left; lra. }
  assert (E2 : Rabs (endAngle state d - PI / 2 - (startAngle state d - PI / 2))
               = deltaAngle state d).
  { unfold deltaAngle, startAngle, endAngle in *.
    rewrite Rabs_right; lra. }
  destruct (invertDirection _); cbn [guide_length];
    rewrite ?E1, ?E2; repeat split; try discriminate; lra.
Qed.

Lemma fitting_label_has_guide_witness :
  middleArcLine (frame 1 (loaded 800 600 Sample.long_label))
                (root_datum Sample.long_label) <> no_path
  /\ guide_length (middleArcLine (frame 1 (loaded 800 600 Sample.long_label))
                                 (root_datum Sample.long_label))
     = perimeter (frame 1 (loaded 800 600 Sample.long_label))
                 (root_datum Sample.long_label)
  /\ INR (String.length (nameOf (frame 1 (loaded 800 600 Sample.long_label))
                                (root_datum Sample.long_label))) * INR CHAR_PX
     < guide_length (middleArcLine (frame 1 (loaded 800 600 Sample.long_label))
                                   (root_datum Sample.long_label)).
Proof.
  apply (@fitting_label_has_guide
           (frame 1 (loaded 800 600 Sample.long_label))
           (root_datum Sample.long_label)).
  apply long_label_fits.
Defined.

(** X15.  The guide follows the wedge.  There is no guide exactly when
    the mean radius or the sweep of the wedge is 0, as for a wedge of zero
    width.  Otherwise the guide is an arc at the mean radius between the
    wedge's start and end angle, each turned back by a quarter turn; it
    runs counter-clockwise, from the end to the start, exactly when the
    middle of the wedge lies strictly between a quarter turn and three
    quarters (the lower half of the chart), and clockwise from the start to
    the end otherwise. *)
Theorem guide_follows_wedge :
  forall state d,
    (middleArcLine state d = no_path
     <-> meanRadius state d = 0 \/ deltaAngle state d = 0)
    /\ ((D3.x0 (node d) == D3.x1 (node d))%Q -> middleArcLine state d = no_path)
    /\ forall r a0 a1 ccw,
         middleArcLine state d = arc_path r a0 a1 ccw ->
         r = meanRadius state d /\ 0 < r
         /\ (ccw = true
             <-> PI / 2 < (startAngle state d + endAngle state d) / 2 < 3 * PI / 2)
         /\ (ccw = true ->
             a0 = endAngle state d - PI / 2 /\ a1 = startAngle state d - PI / 2)
         /\ (ccw = false ->
             a0 = startAngle state d - PI / 2 /\ a1 = endAngle state d - PI / 2).
Proof.
  intros state d. rewrite middleArcLine_eq.
  pose proof (meanRadius_nonneg state d) as Hr.
  pose proof (invertDirection_iff
                ((startAngle state d + endAngle state d) / 2 - PI / 2)) as Hi.
  split; [|split].
  - destruct (Req_dec_T (meanRadius state d) 0); [tauto|].
    destruct (Req_dec_T (deltaAngle state d) 0); [tauto|].
    destruct (invertDirection _); split; intros H; try discriminate; tauto.
  - intros E. apply Qeq_eqR in E.
    assert (Z : deltaAngle state d = 0).
    { unfold deltaAngle. rewrite E. lra. }
    destruct (Req_dec_T (meanRadius state d) 0); [reflexivity|].
    destruct (Req_dec_T (deltaAngle state d) 0); [reflexivity|contradiction].
  - intros r a0 a1 ccw.
    destruct (Req_dec_T (meanRadius state d) 0); [discriminate|].
    destruct (Req_dec_T (deltaAngle state d) 0); [discriminate|].
    destruct (invertDirection _) eqn:I; intros H; injection H as <- <- <- <-.
    + split; [reflexivity|]. split; [lra|].
      assert (I' : 0 < (startAngle state d + endAngle state d) / 2 - PI / 2 < PI)
        by (apply Hi; reflexivity).
      split; [split; [intros _; lra|reflexivity]|].
      split; [now split|discriminate].
    + split; [reflexivity|]. split; [lra|].
      split; [|split; [discriminate|now split]].
      split; [discriminate|]. intros I'. apply Hi. lra.
Qed.

End Guide.

(* ------------------------------------------------------------------ *)
(** ** The pointer: breadcrumb, tooltip, clicks *)

Module Pointer.
Import Sunburst.
Local Open Scope R_scope.

Lemma climb_ancestors : forall (l : Linked) (stack : list Linked),
  climb l stack = ancestors l ++ stack.
Proof.
  fix IH 1. intros [n [p|]] stack; cbn [climb ancestors].
  - rewrite IH, <- app_assoc. reflexivity.
  - reflexivity.
Qed.

Lemma getNodeStack_ancestors (l : Linked) : getNodeStack l = ancestors l.
Proof. unfold getNodeStack. rewrite climb_ancestors. apply app_nil_r. Qed.

Lemma ancestors_linked (n : D3.Node) (parent : option Linked) :
  ancestors (mkLinked n parent) = ancestors_of parent ++ [mkLinked n parent].
Proof. destruct parent; reflexivity. Qed.

Lemma linked_nodes (n : D3.Node) :
  forall parent, map lnode (linked_from parent n) = D3.preorder n.
Proof.
  induction n as [n IH] using TreeFacts.node_induction. intros parent.
  destruct n as [da de he va xa xb ya yb cs].
  cbn [linked_from D3.preorder D3.children map lnode] in *. f_equal.
  generalize (Some (mkLinked (D3.mkNode da de he va xa xb ya yb cs) parent)) as q.
  intros q. induction IH as [|c l Hc Hl IHl]; cbn [flat_map map]; [reflexivity|].
  rewrite map_app, Hc, IHl. reflexivity.
Qed.

Lemma linked_descent (n : D3.Node) :
  forall parent l,
    In l (linked_from parent n) ->
    exists p,
      descent n (lnode l) p
      /\ map lnode (ancestors l) = map lnode (ancestors_of parent) ++ p.
Proof.
  induction n as [n IH] using TreeFacts.node_induction. intros parent l Hl.
  destruct n as [da de he va xa xb ya yb cs].
  cbn [linked_from D3.children] in *.
  set (me := mkLinked (D3.mkNode da de he va xa xb ya yb cs) parent) in *.
  destruct Hl as [<-|Hl].
  - exists [lnode me]. split; [constructor|].
    unfold me. rewrite ancestors_linked, map_app. reflexivity.
  - apply in_flat_map in Hl. destruct Hl as (c & Hc & Hl).
    rewrite Forall_forall in IH.
    destruct (IH c Hc (Some me) l Hl) as (p & Hp & E).
    exists (lnode me :: p). split.
    + apply descent_down with (c := c); [exact Hc|exact Hp].
    + rewrite E. cbn [ancestors_of]. unfold me at 1.
      rewrite ancestors_linked, map_app, <- app_assoc. reflexivity.
Qed.

Lemma descent_length : forall (n m : D3.Node) (p : list D3.Node),
  descent n m p ->
  Forall Invariants.deep (D3.preorder n) ->
  List.length p = S (D3.depth m - D3.depth n) /\ (D3.depth n <= D3.depth m)%nat.
Proof.
  fix IH 4. intros n m p H Hd. destruct H as [n|n c m p Hc H].
  - cbn. split; [f_equal; lia|lia].
  - apply TreeFacts.Forall_preorder in Hd. destruct Hd as [Hn Hcs].
    rewrite Forall_forall in Hcs. unfold Invariants.deep in Hn.
    rewrite Forall_forall in Hn.
    destruct (IH c m p H (Hcs c Hc)) as [E L]. rewrite (Hn c Hc) in *.
    cbn [List.length]. rewrite E. split; [f_equal; lia|lia].
Qed.

(** *** The statements *)

(** X16.  The breadcrumb of the tooltip.  The nodes of the laid-out
    tree with their parent links are its nodes; for each of them
    [getNodeStack] returns the path from the root down to the node, every
    node a child of the one before it, one entry per level, and the title
    of the tooltip is the labels along that path joined by [ > ]. *)
Theorem breadcrumb_runs_from_root :
  forall state root,
    map lnode (linked (layout state root)) = D3.preorder (layout state root)
    /\ Forall
         (fun l =>
            descent (layout state root) (lnode l) (map lnode (getNodeStack l))
            /\ List.length (getNodeStack l) = S (D3.depth (lnode l))
            /\ tooltip_title state l
               = String.concat " > "
                   (map (fun n => label state (D3.data n))
                        (map lnode (getNodeStack l))))
         (linked (layout state root)).
Proof.
  intros state root. split; [apply linked_nodes|].
  apply Forall_forall. intros l Hl.
  destruct (@linked_descent (layout state root) None l Hl) as (p & Hp & E).
  cbn [ancestors_of map app] in E. rewrite getNodeStack_ancestors, E.
  split; [exact Hp|]. split.
  - rewrite <- (length_map lnode), E.
    destruct (descent_length Hp (LayoutFacts.layout_deep state root)) as [L _].
    rewrite L, LayoutFacts.layout_depth. f_equal. lia.
  - unfold tooltip_title. rewrite getNodeStack_ancestors, <- E, map_map.
    reflexivity.
Qed.

(** X17.  The [mousemove] handler places the tooltip by the pointer's
    position in the page: its left edge is at
    [pageX * (1 - w / width)].  With the pointer between 0 and the
    chart's width in the page, the shift is between 0 and 100 percent and
    a tooltip no wider than the chart lies between page positions 0 and
    [width]; that is the canvas only when the canvas starts at the left
    edge of the page.  On a canvas that starts at [o > 0], with the
    pointer on its left edge, a tooltip of positive width starts left of
    the canvas. *)
Theorem tooltip_follows_page_position :
  forall state pageX w o,
    0 < width state ->
    0 <= pageX <= width state ->
    0 <= w <= width state ->
    tooltip_left state pageX w = pageX * (1 - w / width state)
    /\ 0 <= tooltip_shift state pageX <= 100
    /\ 0 <= tooltip_left state pageX w
    /\ tooltip_left state pageX w + w <= width state
    /\ (0 < o -> pageX = o -> 0 < w -> tooltip_left state pageX w < o).
Proof.
  intros state pageX w o HW Hx Hw. unfold tooltip_left, tooltip_shift.
  set (u := pageX / width state).
  assert (Eu : pageX = u * width state) by (unfold u; field; lra).
  assert (Hu : 0 <= u <= 1).
  { split.
    - unfold u. apply Rmult_le_pos; [lra|]. apply Rlt_le, Rinv_0_lt_compat, HW.
    - apply (Rmult_le_reg_r (width state)); [exact HW|]. lra. }
  replace (u * 100 / 100) with u by lra.
  split; [unfold u; field; lra|].
  split; [lra|].
  split; [rewrite Eu; nra|].
  split; [rewrite Eu; nra|].
  intros Ho E Hw0.
  assert (0 < u).
  { unfold u. apply Rmult_lt_0_compat; [lra|]. apply Rinv_0_lt_compat, HW. }
  assert (0 < u * w) by (apply Rmult_lt_0_compat; lra).
  lra.
Qed.

Lemma tooltip_follows_page_position_witness :
  tooltip_left (init 800 600 None) 400 200 = 400 * (1 - 200 / width (init 800 600 None))
  /\ 0 <= tooltip_shift (init 800 600 None) 400 <= 100
  /\ 0 <= tooltip_left (init 800 600 None) 400 200
  /\ tooltip_left (init 800 600 None) 400 200 + 200 <= width (init 800 600 None)
  /\ (0 < 400 -> 400 = 400 -> 0 < 200 -> tooltip_left (init 800 600 None) 400 200 < 400).
Proof.
  apply (@tooltip_follows_page_position (init 800 600 None) 400 200 400);
    unfold init; cbn [width]; lra.
Defined.

(** X18.  A click on the canvas, once its zoom has run to its end,
    restores the full view whatever the view was before: the angular
    domain is [0, 1] over the full circle and the radial domain [0, 1]
    between the hole and [maxRadius], so a wedge with [x0] and [x1] between
    0 and 1 starts at [2 * PI * x0] and ends at [2 * PI * x1]. *)
Theorem canvas_click_restores_full_view :
  forall state ld,
    Reachable state ->
    layoutData state = Some ld ->
    angleScale (frame 1 (click_canvas state)) = Scale.mk (0, 1) (0, 2 * PI)
    /\ radiusScale (frame 1 (click_canvas state))
       = Scale.mk (0, 1) (maxRadius state * 0.1, maxRadius state)
    /\ focusOnNode (frame 1 (click_canvas state)) = None
    /\ forall e,
         (0 <= D3.x0 (node e))%Q -> (D3.x0 (node e) <= D3.x1 (node e))%Q ->
         (D3.x1 (node e) <= 1)%Q ->
         startAngle (frame 1 (click_canvas state)) e = 2 * PI * Q2R (D3.x0 (node e))
         /\ endAngle (frame 1 (click_canvas state)) e = 2 * PI * Q2R (D3.x1 (node e)).
Proof.
  intros state ld Hr Hl.
  pose proof (Lifecycle.reachable_angle_range Hr) as A.
  assert (Ea : angleScale (frame 1 (click_canvas state)) = Scale.mk (0, 1) (0, 2 * PI)).
  { unfold click_canvas, set_focusOnNode.
    rewrite (@Render.angleScale_frame_update 1 (with_focusOnNode state None) ld Hl).
    rewrite ScaleFacts.interpolate_1.
    change (focusD (with_focusOnNode state None)) with (mkFocus 0 1 0 1).
    cbn [fx0 fx1]. rewrite Render.Q2R_zero, Render.Q2R_one.
    change (Scale.range (angleScale (with_focusOnNode state None)))
      with (Scale.range (angleScale state)).
    now rewrite A. }
  split; [exact Ea|]. split; [|split].
  - unfold click_canvas, set_focusOnNode.
    rewrite (@Render.radiusScale_frame_update 1 (with_focusOnNode state None) ld Hl).
    rewrite ScaleFacts.interpolate_1.
    change (focusD (with_focusOnNode state None)) with (mkFocus 0 1 0 1).
    cbn [fy0]. rewrite Render.Q2R_zero. reflexivity.
  - unfold click_canvas, set_focusOnNode.
    rewrite (proj2 (proj2 (Render.frame_fields 1 _))).
    rewrite (proj2 (proj2 (Render.update_fields _))). reflexivity.
  - intros e H0 H1 H2. unfold startAngle, endAngle. rewrite Ea.
    apply Qle_Rle in H0, H1, H2. rewrite Render.Q2R_zero in H0.
    rewrite Render.Q2R_one in H2.
    rewrite !Geometry.linear_clamped_inside by lra. split; field.
Qed.

Lemma canvas_click_restores_full_view_witness :
  angleScale (frame 1 (click_canvas (loaded 800 600 Sample.abc)))
  = Scale.mk (0, 1) (0, 2 * PI)
  /\ radiusScale (frame 1 (click_canvas (loaded 800 600 Sample.abc)))
     = Scale.mk (0, 1) (maxRadius (loaded 800 600 Sample.abc) * 0.1,
                        maxRadius (loaded 800 600 Sample.abc))
  /\ focusOnNode (frame 1 (click_canvas (loaded 800 600 Sample.abc))) = None
  /\ forall e,
       (0 <= D3.x0 (node e))%Q -> (D3.x0 (node e) <= D3.x1 (node e))%Q ->
       (D3.x1 (node e) <= 1)%Q ->
       startAngle (frame 1 (click_canvas (loaded 800 600 Sample.abc))) e
       = 2 * PI * Q2R (D3.x0 (node e))
       /\ endAngle (frame 1 (click_canvas (loaded 800 600 Sample.abc))) e
          = 2 * PI * Q2R (D3.x1 (node e)).
Proof.
  apply (@canvas_click_restores_full_view
           (loaded 800 600 Sample.abc) (Sample.data_of Sample.abc)).
  - unfold loaded. apply reach_data, reach_init.
  - apply Render.loaded_layoutData.
Defined.

End Pointer.

(* ------------------------------------------------------------------ *)
(** ** The filter around the focus *)

Module Filter.
Import Sunburst.
Local Open Scope Q_scope.

Lemma share_lt (m w : Q) : m < 360 -> 0 < w -> m / 360 * w < w.
Proof.
  intros Hm Hw.
  assert (H : m / 360 * w < 1 * w).
  { apply Qmult_lt_compat_r; [exact Hw|].
    apply Qlt_shift_div_r; [reflexivity|]. lra. }
  lra.
Qed.

Lemma share_ge (m w : Q) : 360 <= m -> 0 < w -> w <= m / 360 * w.
Proof.
  intros Hm Hw.
  assert (H : 1 * w <= m / 360 * w).
  { apply Qmult_le_compat_r; [|lra].
    apply Qle_shift_div_l; [reflexivity|]. lra. }
  lra.
Qed.

Lemma ancestor_passes (state : State) (root : RawNode) (d e : LayoutDatum) (m : Q) :
  sizes_nonneg state root ->
  In (node e) (D3.preorder (layout state root)) ->
  In (node d) (D3.preorder (node e)) ->
  D3.x0 (node d) < D3.x1 (node d) ->
  m < 360 ->
  visible m (box_of d) e = true.
Proof.
  intros Hs He Hde Hx Hm.
  pose proof (@Structure.layout_encloses state root Hs) as Hn.
  rewrite Forall_forall in Hn. specialize (Hn _ He). unfold Shape.encloses in Hn.
  rewrite Forall_forall in Hn. destruct (Hn _ Hde) as (B1 & B2 & B3).
  assert (Hbox : fx0 (box_of d) <= fx1 (box_of d)) by (cbn; lra).
  apply (Render.visible_iff m (box_of d) e Hbox).
  unfold overlaps. cbn [box_of fx0 fx1].
  pose proof (@share_lt m (D3.x1 (node d) - D3.x0 (node d)) Hm) as S.
  repeat split; lra.
Qed.

(** X19.  Zooming to a wedge of positive width hides neither the wedge
    nor any wedge it descends from as long as [minSliceAngle] is below
    360: they all pass the filter whose window is that wedge.  The wedge
    itself passes exactly when [minSliceAngle] is below 360. *)
Theorem focus_and_ancestors_pass_filter :
  forall state root,
    data state = Some root ->
    sizes_nonneg state root ->
    exists ld,
      layoutData (_parseData state) = Some ld
      /\ forall d e m,
           In e ld ->
           In (node d) (D3.preorder (node e)) ->
           D3.x0 (node d) < D3.x1 (node d) ->
           (m < 360 -> visible m (box_of d) e = true)
           /\ (visible m (box_of d) d = true <-> m < 360).
Proof.
  intros state root Hd Hs.
  eexists. split; [exact (@LayoutFacts.parseData_layoutData state root Hd)|].
  intros d e m He Hde Hx. apply LayoutFacts.layoutData_In in He.
  split; [now apply (@ancestor_passes state root d e m)|].
  assert (Hbox : fx0 (box_of d) <= fx1 (box_of d)) by (cbn; lra).
  rewrite (Render.visible_iff m (box_of d) d Hbox).
  unfold overlaps. cbn [box_of fx0 fx1]. split.
  - intros (_ & H). destruct (Qlt_le_dec m 360) as [L|L]; [exact L|].
    pose proof (@share_ge m (D3.x1 (node d) - D3.x0 (node d)) L). lra.
  - intros Hm.
    pose proof (@share_lt m (D3.x1 (node d) - D3.x0 (node d)) Hm) as S.
    repeat split; lra.
Qed.

Lemma focus_and_ancestors_pass_filter_witness :
  exists ld,
    layoutData (_parseData (init 800 600 (Some Sample.abc))) = Some ld
    /\ forall d e m,
         In e ld ->
         In (node d) (D3.preorder (node e)) ->
         D3.x0 (node d) < D3.x1 (node d) ->
         (m < 360 -> visible m (box_of d) e = true)
         /\ (visible m (box_of d) d = true <-> m < 360).
Proof.
  apply (@focus_and_ancestors_pass_filter
           (init 800 600 (Some Sample.abc)) Sample.abc).
  - reflexivity.
  - apply Layout.abc_sizes_nonneg.
Defined.

(** X20.  A node without weight is never drawn: when no size is
    negative, the total is not 0 and [minSliceAngle] is not negative, a
    datum of value 0 fails the filter whatever the window of the zoom. *)
Theorem weightless_nodes_are_never_drawn :
  forall state root,
    data state = Some root ->
    sizes_nonneg state root ->
    ~ rootValue state root == 0 ->
    0 <= minSliceAngle state ->
    exists ld,
      layoutData (_parseData state) = Some ld
      /\ forall f d,
           In d ld ->
           D3.value (node d) == 0 ->
           visible (minSliceAngle state) f d = false.
Proof.
  intros state root Hd Hs Hv Hm.
  eexists. split; [exact (@LayoutFacts.parseData_layoutData state root Hd)|].
  intros f d Hin Hz. apply LayoutFacts.layoutData_In in Hin.
  pose proof (@LayoutFacts.layout_shared state root Hs Hv) as Hw.
  rewrite Forall_forall in Hw. specialize (Hw _ Hin).
  unfold Invariants.shared, D3.span in Hw. rewrite Hz in Hw.
  assert (E : D3.x1 (node d) - D3.x0 (node d) == 0) by (rewrite Hw; ring).
  unfold visible.
  assert (J : js_gt (js_div (D3.x1 (node d) - D3.x0 (node d)) (fx1 f - fx0 f))
                    (minSliceAngle state / 360) = false).
  { unfold js_div. destruct (Qeq_bool (fx1 f - fx0 f) 0) eqn:B.
    - destruct (Qlt_le_dec 0 _); [lra|]. now destruct (Qlt_le_dec _ 0).
    - unfold js_gt. destruct (Qlt_le_dec _ _) as [L|]; [|reflexivity].
      exfalso. rewrite E in L.
      assert (Z : 0 / (fx1 f - fx0 f) == 0) by (unfold Qdiv; apply Qmult_0_l).
      rewrite Z in L.
      assert (0 <= minSliceAngle state / 360).
      { apply Qle_shift_div_l; [reflexivity|]. lra. }
      lra. }
  rewrite J. apply andb_false_r.
Qed.

Lemma weightless_nodes_are_never_drawn_witness :
  In Sample.weightless_B (Sample.data_of Sample.weightless)
  /\ D3.value (node Sample.weightless_B) == 0
  /\ visible (minSliceAngle (init 800 600 (Some Sample.weightless)))
             whole_tree Sample.weightless_B = false
  /\ visible (minSliceAngle (init 800 600 (Some Sample.weightless)))
             (box_of Sample.weightless_B) Sample.weightless_B = false.
Proof.
  assert (Hin : In Sample.weightless_B (Sample.data_of Sample.weightless)).
  { vm_compute. right. left. reflexivity. }
  assert (Hv : D3.value (node Sample.weightless_B) == 0) by reflexivity.
  destruct (@weightless_nodes_are_never_drawn
              (init 800 600 (Some Sample.weightless)) Sample.weightless)
    as (ld & Hl & H).
  - reflexivity.
  - unfold sizes_nonneg. simpl. repeat constructor; simpl; discriminate.
  - vm_compute. discriminate.
  - vm_compute. discriminate.
  - assert (E : layoutData (_parseData (init 800 600 (Some Sample.weightless)))
                = Some (Sample.data_of Sample.weightless)) by reflexivity.
    rewrite E in Hl. injection Hl as <-.
    split; [exact Hin|]. split; [exact Hv|].
    split; apply H; assumption.
Defined.

Lemma parseData_minSliceAngle (state : State) :
  minSliceAngle (_parseData state) = minSliceAngle state.
Proof. unfold _parseData. now destruct (data state). Qed.

Lemma parseData_slices (state : State) :
  slices (_parseData state) = slices state.
Proof. unfold _parseData. now destruct (data state). Qed.

Lemma update_data (state : State) : data (update state) = data state.
Proof.
  unfold update. cbn [layoutData set_radiusScale].
  destruct (layoutData state); reflexivity.
Qed.

Lemma update_size (state : State) : size (update state) = size state.
Proof.
  unfold update. cbn [layoutData set_radiusScale].
  destruct (layoutData state); reflexivity.
Qed.

(** The slices of a chart that has just been loaded are all new. *)
Lemma loaded_slices_fresh (w h : R) (root : RawNode) :
  Forall (fun s => removed s = false /\ fade s = None) (slices (loaded w h root)).
Proof.
  unfold loaded, set_data.
  assert (Hl : layoutData (_parseData (with_data (init w h None) (Some root)))
               = Some (number_from 0 (D3.descendants
                         (layout (with_data (init w h None) (Some root)) root))))
    by reflexivity.
  rewrite (@Join.update_shown _ _ Hl), Join.reconcile_eq, parseData_slices.
  cbn [with_data init slices map app].
  apply Forall_map, Forall_forall. intros d _. now split.
Qed.

(** X21.  A click on a wedge of positive width keeps it on the screen:
    when no slice of the document is leaving, no size is negative and
    [minSliceAngle] is below 360, then after [focusOnNode] has been set to
    the wedge's raw node the document holds a slice bound to the wedge, at
    full opacity, neither fading nor marked for removal, and the slice is
    still there once the exited slices are removed; the same holds of
    every wedge the clicked one descends from. *)
Theorem clicked_wedge_stays_drawn :
  forall state root d,
    data state = Some root ->
    sizes_nonneg state root ->
    minSliceAngle state < 360 ->
    D3.x0 (node d) < D3.x1 (node d) ->
    Forall (fun s => removed s = false /\ fade s = None) (slices state) ->
    exists ld,
      layoutData (_parseData state) = Some ld
      /\ forall e,
           In e ld ->
           In (node d) (D3.preorder (node e)) ->
           exists s,
             In s (slices (click_slice d (_parseData state)))
             /\ datum s = e /\ opacity s = 1
             /\ removed s = false /\ fade s = None
             /\ In s (slices (settle (click_slice d (_parseData state)))).
Proof.
  intros state root d Hd Hs Hm Hx Hf.
  pose proof (@LayoutFacts.parseData_layoutData state root Hd) as Hl.
  eexists. split; [exact Hl|]. intros e He Hde.
  unfold click_slice, set_focusOnNode.
  assert (N : NoDup (map id (number_from 0 (D3.descendants (layout state root))))).
  { rewrite LayoutFacts.number_from_ids. apply seq_NoDup. }
  destruct (@Join.shown_datum_stays
              (with_focusOnNode (_parseData state) (Some (target_of d))) _ e Hl N)
    as (s & H1 & H2 & H3 & H4 & H5).
  - unfold shown. apply filter_In. split; [exact He|].
    rewrite Render.focusD_target.
    change (minSliceAngle (with_focusOnNode (_parseData state) (Some (target_of d))))
      with (minSliceAngle (_parseData state)).
    rewrite parseData_minSliceAngle.
    apply LayoutFacts.layoutData_In in He.
    now apply (@ancestor_passes state root d e (minSliceAngle state)).
  - intros s0 H0 _.
    change (slices (with_focusOnNode (_parseData state) (Some (target_of d))))
      with (slices (_parseData state)) in H0.
    rewrite parseData_slices in H0.
    rewrite Forall_forall in Hf. now apply Hf.
  - exists s. repeat split; auto.
    unfold settle, set_slices. cbn [slices]. apply filter_In.
    split; [exact H1|]. unfold staying. now rewrite H4.
Qed.

Lemma clicked_wedge_stays_drawn_witness :
  exists ld,
    layoutData (_parseData (loaded 800 600 Sample.abc)) = Some ld
    /\ forall e,
         In e ld ->
         In (node Sample.abc_C) (D3.preorder (node e)) ->
         exists s,
           In s (slices (click_slice Sample.abc_C
                           (_parseData (loaded 800 600 Sample.abc))))
           /\ datum s = e /\ opacity s = 1
           /\ removed s = false /\ fade s = None
           /\ In s (slices (settle (click_slice Sample.abc_C
                                      (_parseData (loaded 800 600 Sample.abc))))).
Proof.
  assert (Es : size (loaded 800 600 Sample.abc) = raw_value).
  { unfold loaded, set_data. now rewrite update_size. }
  apply (@clicked_wedge_stays_drawn
           (loaded 800 600 Sample.abc) Sample.abc Sample.abc_C).
  - unfold loaded, set_data. now rewrite update_data.
  - unfold sizes_nonneg. rewrite Es. simpl.
    repeat constructor; simpl; discriminate.
  - rewrite Render.loaded_minSliceAngle. reflexivity.
  - vm_compute. reflexivity.
  - apply loaded_slices_fresh.
Defined.

End Filter.
